(** * Country-domination hangman: a model of [script.js]

    The game keeps one global, mutable [gameState] object and a handful of
    functions that update it.  This development embeds the game logic of
    [script.js] (the local-storage variant of the game) as state-passing
    functions over a record, together with the pieces of the browser the
    logic touches: the array objects shared between [gameState.dominated] and
    the continent-status entries, the two [localStorage] items, and the modal
    dialog with its pending action.  The module [UI] adds the elements of the
    page that a round writes to (keyboard, word, troops, streak, flag) and the
    two keyboards; the module [Legacy] is the older variant of the file, with
    the same rounds and the same buttons, without the storage and without the
    merge of [loadContinent].

    JavaScript strings are sequences of UTF-16 code units; the regular
    expressions of [cleanWord] are run by a small backtracking matcher. *)

From stdpp Require Import gmap strings list fin_maps.

(** ** JavaScript strings *)

(** A string is its list of UTF-16 code units. *)
Abbreviation jsstring := (list N).

(** ASCII literals. *)
Fixpoint lit (s : string) : jsstring :=
  match s with
  | EmptyString => []
  | String a s' => Ascii.N_of_ascii a :: lit s'
  end.

(** [String.prototype.toUpperCase] and [String.prototype.normalize("NFD")]
    are given by the Unicode tables of the engine running the game. *)
Class Platform := {
  toUpperCase : jsstring → jsstring;
  normalizeNFD : jsstring → jsstring;
}.

(** The class [\s] of regular expressions, which is also the set of code
    units removed by [String.prototype.trim]: white space and line
    terminators. *)
Definition is_white_space (c : N) : bool :=
  bool_decide (c ∈ [9; 10; 11; 12; 13; 32; 160; 5760; 8232; 8233; 8239; 8287; 12288; 65279]%N)
  || ((8192 <=? c)%N && (c <=? 8202)%N).

(** Line terminators, which [.] does not match. *)
Definition is_line_terminator (c : N) : bool :=
  bool_decide (c ∈ [10; 13; 8232; 8233]%N).

(** [[A-Z]] *)
Definition is_upper_latin (c : N) : bool := (65 <=? c)%N && (c <=? 90)%N.

(** The combining diacritical marks, U+0300 to U+036F. *)
Definition is_combining_mark (c : N) : bool := (768 <=? c)%N && (c <=? 879)%N.

(** [.] *)
Definition is_dot (c : N) : bool := negb (is_line_terminator c).

(** [[^A-Z\s]] *)
Definition not_upper_or_space (c : N) : bool :=
  negb (is_upper_latin c || is_white_space c).

(** ** Regular expressions

    The fragment used by the game: character classes, concatenation, and the
    greedy and lazy stars of a class. *)
Inductive regex :=
| Class (p : N → bool)
| Cat (r1 r2 : regex)
| Star (p : N → bool)
| LazyStar (p : N → bool).

(** Backtracking matchers in continuation-passing style: [k] runs the rest of
    the pattern on the remaining input and the first success wins.  A greedy
    star takes as many units as it can and gives them back one at a time; a
    lazy star tries the continuation first and takes one more unit each time
    it fails. *)
Fixpoint star_greedy (p : N → bool) (s : jsstring)
    (k : jsstring → option jsstring) : option jsstring :=
  match s with
  | c :: s' =>
      if p c then
        match star_greedy p s' k with
        | Some r => Some r
        | None => k s
        end
      else k s
  | [] => k []
  end.

Fixpoint star_lazy (p : N → bool) (s : jsstring)
    (k : jsstring → option jsstring) : option jsstring :=
  match k s with
  | Some r => Some r
  | None =>
      match s with
      | c :: s' => if p c then star_lazy p s' k else None
      | [] => None
      end
  end.

Fixpoint regex_exec (r : regex) (s : jsstring)
    (k : jsstring → option jsstring) : option jsstring :=
  match r with
  | Class p =>
      match s with
      | c :: s' => if p c then k s' else None
      | [] => None
      end
  | Cat r1 r2 => regex_exec r1 s (λ s', regex_exec r2 s' k)
  | Star p => star_greedy p s k
  | LazyStar p => star_lazy p s k
  end.

(** A match anchored at the start of [s]; the result is the input left after
    the match. *)
Definition regex_match (r : regex) (s : jsstring) : option jsstring :=
  regex_exec r s Some.

(** [s.replace(/.../g, '')] for a matcher [m]: scan from the left; where a
    match starts, drop it and go on after it; otherwise keep the unit and move
    one position on (an empty match removes nothing).  Each round consumes at
    least one unit, so [length s] rounds are enough. *)
Fixpoint remove_matches_fuel (fuel : nat) (m : jsstring → option jsstring)
    (s : jsstring) : jsstring :=
  match fuel with
  | O => s
  | S fuel' =>
      match s with
      | [] => []
      | c :: s' =>
          match m s with
          | Some rest =>
              if bool_decide (length rest < length s)
              then remove_matches_fuel fuel' m rest
              else c :: remove_matches_fuel fuel' m s'
          | None => c :: remove_matches_fuel fuel' m s'
          end
      end
  end.

Definition remove_matches (m : jsstring → option jsstring) (s : jsstring) : jsstring :=
  remove_matches_fuel (length s) m s.

Definition replace_all (r : regex) (s : jsstring) : jsstring :=
  remove_matches (regex_match r) s.

(** [String.prototype.trim] *)
Fixpoint drop_while (p : N → bool) (s : jsstring) : jsstring :=
  match s with
  | c :: s' => if p c then drop_while p s' else s
  | [] => []
  end.

Definition trim (s : jsstring) : jsstring :=
  reverse (drop_while is_white_space (reverse (drop_while is_white_space s))).

(** [/\s*\(.*?\)\s*/] *)
Definition re_parenthesized : regex :=
  Cat (Star is_white_space)
    (Cat (Class (N.eqb 40))
      (Cat (LazyStar is_dot)
        (Cat (Class (N.eqb 41)) (Star is_white_space)))).

Section WithPlatform.
Context `{Platform}.

(** [cleanWord]:
<<
    return name
        .toUpperCase()
        .replace(/\s*\(.*?\)\s*/g, '')
        .normalize(NFD).replace(/[\u0300-\u036f]/g, '')
        .replace(/[^A-Z\s]/g, '')
        .trim();
>> *)
Definition cleanWord (name : jsstring) : jsstring :=
  trim
    (replace_all (Class not_upper_or_space)
      (replace_all (Class is_combining_mark)
        (normalizeNFD
          (replace_all re_parenthesized
            (toUpperCase name))))).

End WithPlatform.

(** ** The Basic Latin and Latin-1 fragment of the Unicode tables

    On strings whose code units are all below U+0100 these two functions are
    the engine's [toUpperCase] and [normalize("NFD")], the second one also on
    what the first one makes of such a string: upper-casing yields two units
    above U+00FF, U+0178 (decomposed into Y and a diaeresis) and U+039C (which
    has no decomposition).  Other code units are left as they are. *)
Definition latin1_upper_unit (c : N) : jsstring :=
  if ((97 <=? c) && (c <=? 122))%N then [c - 32]%N
  else if (c =? 181)%N then [924]%N
  else if (c =? 223)%N then [83; 83]%N
  else if (c =? 247)%N then [c]
  else if (c =? 255)%N then [376]%N
  else if ((224 <=? c) && (c <=? 254))%N then [c - 32]%N
  else [c].

(** Canonical decompositions of U+00C0..U+00DF; the lower-case row
    U+00E0..U+00FF has the same marks on the lower-case base letter. *)
Definition latin1_decomposition (c : N) : option (N * N) :=
  match c with
  | 192 => Some (65, 768) | 193 => Some (65, 769) | 194 => Some (65, 770)
  | 195 => Some (65, 771) | 196 => Some (65, 776) | 197 => Some (65, 778)
  | 199 => Some (67, 807)
  | 200 => Some (69, 768) | 201 => Some (69, 769) | 202 => Some (69, 770)
  | 203 => Some (69, 776)
  | 204 => Some (73, 768) | 205 => Some (73, 769) | 206 => Some (73, 770)
  | 207 => Some (73, 776)
  | 209 => Some (78, 771)
  | 210 => Some (79, 768) | 211 => Some (79, 769) | 212 => Some (79, 770)
  | 213 => Some (79, 771) | 214 => Some (79, 776)
  | 217 => Some (85, 768) | 218 => Some (85, 769) | 219 => Some (85, 770)
  | 220 => Some (85, 776)
  | 221 => Some (89, 769)
  | _ => None
  end%N.

Definition latin1_nfd_unit (c : N) : jsstring :=
  if (c =? 255)%N then [121; 776]%N
  else if (c =? 376)%N then [89; 776]%N
  else if ((224 <=? c) && (c <=? 255))%N then
    match latin1_decomposition (c - 32) with
    | Some (b, m) => [b + 32; m]%N
    | None => [c]
    end
  else
    match latin1_decomposition c with
    | Some (b, m) => [b; m]
    | None => [c]
    end.

Definition latin1 : Platform := {|
  toUpperCase s := flat_map latin1_upper_unit s;
  normalizeNFD s := flat_map latin1_nfd_unit s;
|}.

Definition cote_divoire : jsstring :=
  lit "C" ++ [244%N] ++ lit "te d'Ivoire (disputed)".

(** The same name between two spaces and with a full stop and a space
    after it: a name that needs trimming at both ends. *)
Definition cote_divoire_padded : jsstring :=
  lit "  " ++ cote_divoire ++ lit ". ".

(** A name with a tab (U+0009) between two letters. *)
Definition a_tab_b : jsstring := [65; 9; 66]%N.

(** ** Normalisation, step by step

    The five steps of the specification's [normalize], written with list
    functions instead of regular expressions.  In the second step a
    parenthesized segment runs from an opening parenthesis to the nearest
    closing one on the same line, and is removed with the white space on
    either side of it.  In the fourth step a space is any white-space code
    unit (the class [\s]) in [normalize_letters], and the space U+0020 alone
    in [normalize_letters_plain].  The fifth step is not a function here but
    the relation [trimmed_of]. *)

(** After an opening parenthesis: what follows the nearest closing one. *)
Fixpoint close_paren (s : jsstring) : option jsstring :=
  match s with
  | [] => None
  | c :: s' =>
      if (c =? 41)%N then Some s'
      else if is_line_terminator c then None
      else close_paren s'
  end.

(** A parenthesized segment with the white space around it, at the start of
    [s]: what follows it. *)
Definition parenthesized_segment (s : jsstring) : option jsstring :=
  match drop_while is_white_space s with
  | c :: s1 =>
      if (c =? 40)%N then drop_while is_white_space <$> close_paren s1 else None
  | [] => None
  end.

(** Steps 1 to 4. *)
Definition normalize_letters `{Platform} (rawName : jsstring) : jsstring :=
  let upper := toUpperCase rawName in
  let unparenthesized := remove_matches parenthesized_segment upper in
  let unmarked :=
    List.filter (λ c, negb (is_combining_mark c)) (normalizeNFD unparenthesized) in
  List.filter (λ c, is_upper_latin c || is_white_space c) unmarked.

(** The same with the fourth step read to the letter: only the space U+0020
    is kept besides the letters. *)
Definition normalize_letters_plain `{Platform} (rawName : jsstring) : jsstring :=
  let upper := toUpperCase rawName in
  let unparenthesized := remove_matches parenthesized_segment upper in
  let unmarked :=
    List.filter (λ c, negb (is_combining_mark c)) (normalizeNFD unparenthesized) in
  List.filter (λ c, is_upper_latin c || (c =? 32)%N) unmarked.

(** Step 5: [t] is [s] less the white space at its two ends.  What is left
    out on either side is white space, and [t] neither begins nor ends with
    white space. *)
Definition trimmed_of (s t : jsstring) : Prop :=
  (∃ pre post, s = pre ++ t ++ post ∧
     Forall (λ c, is_white_space c = true) pre ∧
     Forall (λ c, is_white_space c = true) post) ∧
  (∀ c, head t = Some c → is_white_space c = false) ∧
  (∀ c, last t = Some c → is_white_space c = false).

(** The five steps with the code's own [trim] for the last. *)
Definition normalize_spec `{Platform} (rawName : jsstring) : jsstring :=
  trim (normalize_letters rawName).

Definition normalize_spec_plain `{Platform} (rawName : jsstring) : jsstring :=
  trim (normalize_letters_plain rawName).

(** The only white space in [s] is the space U+0020. *)
Definition plain_spaces (s : jsstring) : Prop :=
  ∀ c, c ∈ s → is_white_space c = true → c = 32%N.

(** [targetWord] as the specification's data model wants it: upper-case
    Latin letters and single spaces (U+0020), none at either end and no two in
    a row. *)
Definition single_spaced (w : jsstring) : Prop :=
  Forall (λ c, is_upper_latin c = true ∨ c = 32%N) w ∧
  head w ≠ Some 32%N ∧
  last w ≠ Some 32%N ∧
  ¬ ∃ i, w !! i = Some 32%N ∧ w !! S i = Some 32%N.

(** ** The game state *)

Definition CONTINENTS : list string :=
  ["Africa"; "Americas"; "Asia"; "Europe"; "Oceania"]%string.

Definition MAX_TROOPS : Z := 3.

(** The objects built by [loadContinent] from the records of the API. *)
Record Country := mkCountry {
  name : jsstring;
  flag : jsstring;
  key : jsstring;
  isDominated : bool;
}.

#[global] Instance Country_eq_dec : EqDecision Country.
Proof. solve_decision. Defined.

(** A record of the REST API, as far as the game reads it: [name.common],
    [flags.svg], [population], and [area] as the string that [+] appends to
    the cleaned name. *)
Record ApiCountry := mkApiCountry {
  name_common : jsstring;
  flags_svg : jsstring;
  population : Z;
  area : jsstring;
}.

(** A value of [gameState.continentStatus]: one of the strings ['available'],
    ['dominated'], ['in-progress'], or the object [{ status, countries }]
    whose [countries] field refers to an array of names. *)
Inductive StatusValue :=
| StatusString (s : string)
| StatusObject (status : string) (countries : nat).

#[global] Instance StatusValue_eq_dec : EqDecision StatusValue.
Proof. solve_decision. Defined.

(** The same value after [JSON.stringify]: the array is written out. *)
Inductive StoredStatus :=
| StoredString (s : string)
| StoredObject (status : string) (countries : list jsstring).

(** The two items of [localStorage].  The best streak is kept as the integer
    that [parseInt(item) || 0] reads back ([None]: no item, or an empty one);
    an item that [parseInt] reads as [Infinity] is not covered.  The continent
    status is kept as the object that [JSON.parse] returns ([None]: no item,
    or one that does not parse), each of its values being of one of the two
    shapes that the game writes: a string, or an object whose [status] is a
    string and whose [countries] is an array of strings.  An item that parses
    to anything else (a number, or an object with a value of another shape,
    such as a [status] field that is itself an object) is not covered. *)
Record Storage := mkStorage {
  stored_best_streak : option Z;
  stored_continent_status : option (gmap string StoredStatus);
}.

Inductive View := ViewMenu | ViewContinentSelect | ViewGame | ViewRanking.

(** What a modal dialog announces, and what its button does. *)
Inductive Signal :=
| CountryDominated (country : jsstring) (streak : Z)
| TroopsDepleted (country : jsstring)
| GlobalVictory
| ContinentConquered (continent : string).

#[global] Instance Signal_eq_dec : EqDecision Signal.
Proof. solve_decision. Defined.

Inductive ModalAction := ActNewRound | ActGlobalReset | ActContinentSelect.

Record Modal := mkModal {
  modalSignal : Signal;
  modalAction : ModalAction;
}.

(** [gameState], followed by the parts of the browser that the game logic
    reads and writes: the array objects (by reference: [dominated] and the
    [countries] of a status object may be one and the same array), the
    storage, the number of calls of [saveGameStateToStorage], the visible
    modal, and every signal shown so far, latest first.  [currentCountry] is
    held by value: the game reads its name, its flag and its key only, and
    these never change. *)
Record GameState := mkGameState {
  currentView : View;
  continentStatus : gmap string StatusValue;
  currentStreak : Z;
  bestStreak : Z;
  currentContinent : string;
  countries : list Country;
  dominated : nat;
  currentCountry : option Country;
  targetWord : jsstring;
  guessedLetters : gset jsstring;
  troops : Z;
  isGameActive : bool;
  arrays : list (list jsstring);
  localStorage : Storage;
  saveCalls : nat;
  modal : option Modal;
  signals : list Signal;
}.

(** Assignments to one field. *)
Definition set_currentView (v : View) (st : GameState) : GameState :=
  mkGameState v (continentStatus st) (currentStreak st) (bestStreak st)
    (currentContinent st) (countries st) (dominated st) (currentCountry st)
    (targetWord st) (guessedLetters st) (troops st) (isGameActive st)
    (arrays st) (localStorage st) (saveCalls st) (modal st) (signals st).

Definition set_continentStatus (v : gmap string StatusValue) (st : GameState) : GameState :=
  mkGameState (currentView st) v (currentStreak st) (bestStreak st)
    (currentContinent st) (countries st) (dominated st) (currentCountry st)
    (targetWord st) (guessedLetters st) (troops st) (isGameActive st)
    (arrays st) (localStorage st) (saveCalls st) (modal st) (signals st).

Definition set_currentStreak (v : Z) (st : GameState) : GameState :=
  mkGameState (currentView st) (continentStatus st) v (bestStreak st)
    (currentContinent st) (countries st) (dominated st) (currentCountry st)
    (targetWord st) (guessedLetters st) (troops st) (isGameActive st)
    (arrays st) (localStorage st) (saveCalls st) (modal st) (signals st).

Definition set_bestStreak (v : Z) (st : GameState) : GameState :=
  mkGameState (currentView st) (continentStatus st) (currentStreak st) v
    (currentContinent st) (countries st) (dominated st) (currentCountry st)
    (targetWord st) (guessedLetters st) (troops st) (isGameActive st)
    (arrays st) (localStorage st) (saveCalls st) (modal st) (signals st).

Definition set_currentContinent (v : string) (st : GameState) : GameState :=
  mkGameState (currentView st) (continentStatus st) (currentStreak st)
    (bestStreak st) v (countries st) (dominated st) (currentCountry st)
    (targetWord st) (guessedLetters st) (troops st) (isGameActive st)
    (arrays st) (localStorage st) (saveCalls st) (modal st) (signals st).

Definition set_countries (v : list Country) (st : GameState) : GameState :=
  mkGameState (currentView st) (continentStatus st) (currentStreak st)
    (bestStreak st) (currentContinent st) v (dominated st) (currentCountry st)
    (targetWord st) (guessedLetters st) (troops st) (isGameActive st)
    (arrays st) (localStorage st) (saveCalls st) (modal st) (signals st).

Definition set_dominated (v : nat) (st : GameState) : GameState :=
  mkGameState (currentView st) (continentStatus st) (currentStreak st)
    (bestStreak st) (currentContinent st) (countries st) v (currentCountry st)
    (targetWord st) (guessedLetters st) (troops st) (isGameActive st)
    (arrays st) (localStorage st) (saveCalls st) (modal st) (signals st).

Definition set_currentCountry (v : option Country) (st : GameState) : GameState :=
  mkGameState (currentView st) (continentStatus st) (currentStreak st)
    (bestStreak st) (currentContinent st) (countries st) (dominated st) v
    (targetWord st) (guessedLetters st) (troops st) (isGameActive st)
    (arrays st) (localStorage st) (saveCalls st) (modal st) (signals st).

Definition set_targetWord (v : jsstring) (st : GameState) : GameState :=
  mkGameState (currentView st) (continentStatus st) (currentStreak st)
    (bestStreak st) (currentContinent st) (countries st) (dominated st)
    (currentCountry st) v (guessedLetters st) (troops st) (isGameActive st)
    (arrays st) (localStorage st) (saveCalls st) (modal st) (signals st).

Definition set_guessedLetters (v : gset jsstring) (st : GameState) : GameState :=
  mkGameState (currentView st) (continentStatus st) (currentStreak st)
    (bestStreak st) (currentContinent st) (countries st) (dominated st)
    (currentCountry st) (targetWord st) v (troops st) (isGameActive st)
    (arrays st) (localStorage st) (saveCalls st) (modal st) (signals st).

Definition set_troops (v : Z) (st : GameState) : GameState :=
  mkGameState (currentView st) (continentStatus st) (currentStreak st)
    (bestStreak st) (currentContinent st) (countries st) (dominated st)
    (currentCountry st) (targetWord st) (guessedLetters st) v
    (isGameActive st) (arrays st) (localStorage st) (saveCalls st) (modal st)
    (signals st).

Definition set_isGameActive (v : bool) (st : GameState) : GameState :=
  mkGameState (currentView st) (continentStatus st) (currentStreak st)
    (bestStreak st) (currentContinent st) (countries st) (dominated st)
    (currentCountry st) (targetWord st) (guessedLetters st) (troops st) v
    (arrays st) (localStorage st) (saveCalls st) (modal st) (signals st).

Definition set_arrays (v : list (list jsstring)) (st : GameState) : GameState :=
  mkGameState (currentView st) (continentStatus st) (currentStreak st)
    (bestStreak st) (currentContinent st) (countries st) (dominated st)
    (currentCountry st) (targetWord st) (guessedLetters st) (troops st)
    (isGameActive st) v (localStorage st) (saveCalls st) (modal st)
    (signals st).

Definition set_localStorage (v : Storage) (st : GameState) : GameState :=
  mkGameState (currentView st) (continentStatus st) (currentStreak st)
    (bestStreak st) (currentContinent st) (countries st) (dominated st)
    (currentCountry st) (targetWord st) (guessedLetters st) (troops st)
    (isGameActive st) (arrays st) v (saveCalls st) (modal st) (signals st).

Definition set_saveCalls (v : nat) (st : GameState) : GameState :=
  mkGameState (currentView st) (continentStatus st) (currentStreak st)
    (bestStreak st) (currentContinent st) (countries st) (dominated st)
    (currentCountry st) (targetWord st) (guessedLetters st) (troops st)
    (isGameActive st) (arrays st) (localStorage st) v (modal st) (signals st).

Definition set_modal (v : option Modal) (st : GameState) : GameState :=
  mkGameState (currentView st) (continentStatus st) (currentStreak st)
    (bestStreak st) (currentContinent st) (countries st) (dominated st)
    (currentCountry st) (targetWord st) (guessedLetters st) (troops st)
    (isGameActive st) (arrays st) (localStorage st) (saveCalls st) v
    (signals st).

Definition set_signals (v : list Signal) (st : GameState) : GameState :=
  mkGameState (currentView st) (continentStatus st) (currentStreak st)
    (bestStreak st) (currentContinent st) (countries st) (dominated st)
    (currentCountry st) (targetWord st) (guessedLetters st) (troops st)
    (isGameActive st) (arrays st) (localStorage st) (saveCalls st) (modal st)
    v.

(** ** Arrays and strings *)

(** [array.push(x)] on the array object at [l]. *)
Definition array_push (l : nat) (x : jsstring) (heap : list (list jsstring)) :
    list (list jsstring) :=
  alter (λ a, a ++ [x]) l heap.

(** The contents of the array object at [l]. *)
Definition array_get (l : nat) (heap : list (list jsstring)) : list jsstring :=
  default [] (heap !! l).

Fixpoint is_prefix (p s : jsstring) : bool :=
  match p, s with
  | [], _ => true
  | a :: p', b :: s' => (a =? b)%N && is_prefix p' s'
  | _ :: _, [] => false
  end.

(** [s.includes(sub)] *)
Fixpoint includes (s sub : jsstring) : bool :=
  is_prefix sub s ||
  match s with
  | [] => false
  | _ :: s' => includes s' sub
  end.

(** ** Persistence *)

(** [JSON.stringify(gameState.continentStatus)] *)
Definition stringify_status (heap : list (list jsstring)) (v : StatusValue) : StoredStatus :=
  match v with
  | StatusString s => StoredString s
  | StatusObject s l => StoredObject s (array_get l heap)
  end.

(** *** The best streak as a string

    A streak is a Number with an integer value, kept here as that integer.
    [bestStreak.toString()] writes such a Number in decimal digits while it is
    below 10^21 in magnitude, and in exponent notation from there on: the
    digits of the shortest decimal that rounds to it, a point after the first
    one, and [e+] with the exponent. *)

(** From this magnitude on [Number.prototype.toString] uses exponent
    notation. *)
Definition plain_limit : Z := 10 ^ 21.

(** The Number nearest to the natural number [n]: 53 significant bits,
    ties to the even one.  The overflow to [Infinity], above 2^1024, is left
    out. *)
Definition to_number (n : Z) : Z :=
  let e := Z.log2 n in
  if (e <? 53)%Z then n
  else
    let shift := (e - 52)%Z in
    let q := Z.shiftr n shift in
    let r := (n mod 2 ^ shift)%Z in
    let half := (2 ^ (shift - 1))%Z in
    let q' := if ((half <? r) || ((r =? half) && Z.odd q))%Z then (q + 1)%Z else q in
    Z.shiftl q' shift.

(** The first decimal digit of [x] and the power of ten it stands at. *)
Fixpoint leading_digit (fuel : nat) (x p : Z) : Z * Z :=
  match fuel with
  | O => (x, p)
  | S fuel' => if (x <? 10)%Z then (x, p) else leading_digit fuel' (x / 10) (p * 10)
  end.

(** The first digit of the shortest decimal that rounds to the positive
    Number [x]: the first digit of [x], or the next one where that digit
    followed by zeros rounds to [x]. *)
Definition exponent_digit (x : Z) : Z :=
  let '(d, p) := leading_digit (S (Z.to_nat (Z.log2 x))) x 1 in
  if (to_number ((d + 1) * p) =? x)%Z then (if (d =? 9)%Z then 1 else d + 1)%Z
  else d.

(** [parseInt(n.toString())]: below [plain_limit] the digits are read back
    as they were written; in exponent notation [parseInt] stops at the point
    or at the [e] and returns the first digit, with the sign. *)
Definition parseInt_toString (n : Z) : Z :=
  if (Z.abs n <? plain_limit)%Z then n
  else (Z.sgn n * exponent_digit (Z.abs n))%Z.

(** [saveGameStateToStorage]: the best-streak item is the string
    [bestStreak.toString()], kept as the integer that [parseInt] reads from
    it. *)
Definition saveGameStateToStorage (st : GameState) : GameState :=
  set_saveCalls (S (saveCalls st))
    (set_localStorage
       {| stored_best_streak := Some (parseInt_toString (bestStreak st));
          stored_continent_status :=
            Some (stringify_status (arrays st) <$> continentStatus st) |}
       st).

(** [if (status[c]) gameState.continentStatus[c] = status[c]]: an empty
    string is falsy; a parsed object brings its own, new array. *)
Definition load_continent_status (status : gmap string StoredStatus)
    (st : GameState) (c : string) : GameState :=
  match status !! c with
  | None => st
  | Some (StoredString s) =>
      if bool_decide (s = EmptyString) then st
      else set_continentStatus (<[c := StatusString s]> (continentStatus st)) st
  | Some (StoredObject s names) =>
      set_continentStatus
        (<[c := StatusObject s (length (arrays st))]> (continentStatus st))
        (set_arrays (arrays st ++ [names]) st)
  end.

(** [loadGameStateFromStorage] *)
Definition loadGameStateFromStorage (st : GameState) : GameState :=
  let st1 :=
    match stored_best_streak (localStorage st) with
    | Some z => set_bestStreak z st
    | None => st
    end in
  match stored_continent_status (localStorage st1) with
  | Some status => foldl (load_continent_status status) st1 CONTINENTS
  | None => st1
  end.

(** ** Rendering: what is left of it *)

Definition showView (viewId : View) (st : GameState) : GameState :=
  set_currentView viewId st.

(** [renderStreak]: besides the display, it raises the best streak and saves. *)
Definition renderStreak (st : GameState) : GameState :=
  if (currentStreak st >? bestStreak st)%Z then
    saveGameStateToStorage (set_bestStreak (currentStreak st) st)
  else st.

(** [handleModal]: show the dialog and arm its button. *)
Definition handleModal (sig : Signal) (action : ModalAction) (st : GameState) : GameState :=
  set_modal (Some {| modalSignal := sig; modalAction := action |})
    (set_signals (sig :: signals st) st).

(** ** Game flow *)

(** [handleContinentWin], up to the dialog. *)
Definition handleContinentWin (st : GameState) : GameState :=
  let st1 :=
    set_continentStatus
      (<[currentContinent st := StatusString "dominated"]> (continentStatus st)) st in
  let st2 := saveGameStateToStorage st1 in
  let allDominated :=
    forallb (λ c, bool_decide (continentStatus st2 !! c = Some (StatusString "dominated")))
      CONTINENTS in
  if allDominated then handleModal GlobalVictory ActGlobalReset st2
  else handleModal (ContinentConquered (currentContinent st2)) ActContinentSelect st2.

(** The loop of [initializeAppUI] over [CONTINENTS]. *)
Definition initialize_continent (st : GameState) (continent : string) : GameState :=
  match continentStatus st !! continent with
  | None => set_continentStatus (<[continent := StatusString "available"]> (continentStatus st)) st
  | Some (StatusString s) =>
      if bool_decide (s = EmptyString) || bool_decide (s = "available"%string)
      then set_continentStatus (<[continent := StatusString "available"]> (continentStatus st)) st
      else st
  | Some (StatusObject s _) =>
      set_continentStatus
        (<[continent := StatusString (if bool_decide (s = EmptyString) then "available" else s)]>
           (continentStatus st)) st
  end.

(** [initializeAppUI] *)
Definition initializeAppUI (st : GameState) : GameState :=
  let st1 := loadGameStateFromStorage st in
  let st2 := foldl initialize_continent st1 CONTINENTS in
  showView ViewMenu st2.

(** The action of the global-victory dialog. *)
Definition global_reset (st : GameState) : GameState :=
  let st1 :=
    foldl (λ st c, set_continentStatus (<[c := StatusString "available"]> (continentStatus st)) st)
      st CONTINENTS in
  let st2 := saveGameStateToStorage st1 in
  let st3 := initializeAppUI st2 in
  showView ViewMenu st3.

(** [backToMapButton.onclick] *)
Definition backToMap (st : GameState) : GameState :=
  let st1 := set_isGameActive false st in
  let st2 := set_currentStreak 0 st1 in
  showView ViewContinentSelect st2.

Section Game.
Context `{Platform}.

(** [getCountryKey] *)
Definition getCountryKey (c : ApiCountry) : jsstring :=
  cleanWord (name_common c) ++ area c.

(** [newRound].  [pick] stands for the draw of [Math.random]: the index
    [Math.floor(Math.random() * n)] is some index below [n]. *)
Definition newRound (pick : nat) (st : GameState) : GameState :=
  let availableCountries := List.filter (λ c, negb (isDominated c)) (countries st) in
  match availableCountries with
  | [] => handleContinentWin st
  | c0 :: _ =>
      let countryIndex := pick `mod` length availableCountries in
      let country := nth countryIndex availableCountries c0 in
      let st1 := set_currentCountry (Some country) st in
      let st2 := set_targetWord (cleanWord (name country)) st1 in
      let st3 := set_guessedLetters ∅ st2 in
      let st4 := set_troops MAX_TROOPS st3 in
      let st5 := set_isGameActive true st4 in
      renderStreak st5
  end.

(** The two constants at the head of [checkGameStatus]:
<<
    const wordLetters = new Set(gameState.targetWord.replace(/\s/g, '').split(''));
    const correctlyGuessed = [...wordLetters].every(letter => gameState.guessedLetters.has(letter));
>> *)
Definition wordLetters (st : GameState) : gset jsstring :=
  list_to_set ((λ c, [c]) <$> replace_all (Class is_white_space) (targetWord st)).

Definition correctlyGuessed (st : GameState) : bool :=
  forallb (λ letter, bool_decide (letter ∈ guessedLetters st)) (elements (wordLetters st)).

(** The block of [checkGameStatus] that looks the current country up by its
    key, marks the first country with that key and pushes its name on the
    [dominated] array. *)
Definition mark_dominated (countryKey : jsstring) (st : GameState) : GameState :=
  match list_find (λ c, key c = countryKey) (countries st) with
  | Some (i, countryInList) =>
      set_arrays (array_push (dominated st) (name countryInList) (arrays st))
        (set_countries
           (<[i := {| name := name countryInList; flag := flag countryInList;
                      key := key countryInList; isDominated := true |}]>
              (countries st)) st)
  | None => st
  end.

(** The branch [// WIN COUNTRY].  Reading a field of [currentCountry] while it
    is still [null] throws; the state is then left as it was at that point. *)
Definition win_country (st : GameState) : GameState :=
  let st1 := set_isGameActive false st in
  let st2 := set_currentStreak (currentStreak st1 + 1)%Z st1 in
  let st3 := renderStreak st2 in
  match currentCountry st3 with
  | None => st3
  | Some current =>
      let st4 := mark_dominated (key current) st3 in
      let st5 :=
        set_continentStatus
          (<[currentContinent st4 := StatusObject "in-progress" (dominated st4)]>
             (continentStatus st4)) st4 in
      let st6 := saveGameStateToStorage st5 in
      handleModal (CountryDominated (name current) (currentStreak st6)) ActNewRound st6
  end.

(** The branch [// LOSE GAME]. *)
Definition lose_game (st : GameState) : GameState :=
  let st1 := set_isGameActive false st in
  match currentCountry st1 with
  | None => st1
  | Some current => handleModal (TroopsDepleted (name current)) ActNewRound st1
  end.

(** [checkGameStatus] *)
Definition checkGameStatus (st : GameState) : GameState :=
  if negb (isGameActive st) then st
  else if correctlyGuessed st then win_country st
  else if (troops st <=? 0)%Z then lose_game st
  else st.

(** The middle of [guessLetter], from [guessedLetters.add] to the branch on
    [targetWord.includes]: the letter is recorded and a wrong one costs a troop
    and the streak. *)
Definition record_guess (upperLetter : jsstring) (st : GameState) : GameState :=
  let st1 := set_guessedLetters ({[upperLetter]} ∪ guessedLetters st) st in
  if includes (targetWord st1) upperLetter then st1
  else
    let st2 := set_troops (troops st1 - 1)%Z st1 in
    let st3 := set_currentStreak 0 st2 in
    renderStreak st3.

(** [guessLetter] *)
Definition guessLetter (letter : jsstring) (st : GameState) : GameState :=
  if negb (isGameActive st) then st else
  let upperLetter := toUpperCase letter in
  if bool_decide (upperLetter ∈ guessedLetters st) then st else
  checkGameStatus (record_guess upperLetter st).

(** The [forEach] of [loadContinent] that marks again the countries named in
    the array at [stored], pushing each name on the array at [dom]. *)
Fixpoint remark_dominated (stored dom : nat) (cs : list Country)
    (heap : list (list jsstring)) : list Country * list (list jsstring) :=
  match cs with
  | [] => ([], heap)
  | country :: rest =>
      if bool_decide (name country ∈ array_get stored heap) then
        let '(rest', heap') :=
          remark_dominated stored dom rest (array_push dom (name country) heap) in
        ({| name := name country; flag := flag country; key := key country;
            isDominated := true |} :: rest', heap')
      else
        let '(rest', heap') := remark_dominated stored dom rest heap in
        (country :: rest', heap')
  end.

(** The test of the [filter] of [loadContinent]: a name, a flag and more than
    100000 inhabitants. *)
Definition qualifies (c : ApiCountry) : bool :=
  negb (bool_decide (name_common c = [])) &&
  negb (bool_decide (flags_svg c = [])) &&
  (population c >? 100000)%Z.

(** The object of the [map] of [loadContinent]. *)
Definition to_country (c : ApiCountry) : Country :=
  {| name := name_common c; flag := flags_svg c; key := getCountryKey c;
     isDominated := false |}.

(** The block of [loadContinent] that brings back the countries dominated
    earlier: it runs when the status of the continent is an object with a
    [countries] array. *)
Definition merge_dominated (continent : string) (st : GameState) : GameState :=
  match continentStatus st !! continent with
  | Some (StatusObject _ stored) =>
      let '(cs, heap) :=
        remark_dominated stored (dominated st) (countries st) (arrays st) in
      set_arrays heap (set_countries cs st)
  | _ => st
  end.

(** [loadContinent], once the request has come back: [None] is a response that
    is not [ok], [Some data] the parsed records.  Both failures end in the
    [catch], which only shows a message. *)
Definition loadContinent (continent : string) (response : option (list ApiCountry))
    (pick : nat) (st : GameState) : GameState :=
  match response with
  | None => st
  | Some data =>
      let st1 := set_countries (to_country <$> List.filter qualifies data) st in
      if bool_decide (length (countries st1) = 0) then st1 else
      let st2 := merge_dominated continent st1 in
      let st3 := set_currentContinent continent st2 in
      let st4 :=
        set_dominated (length (arrays st3))
          (set_arrays
             (arrays st3 ++ [name <$> List.filter isDominated (countries st3)]) st3) in
      newRound pick st4
  end.

(** [startGame]: show the game view and send the request; [loadContinent]
    goes on when the answer arrives. *)
Definition startGame (continent : string) (st : GameState) : GameState :=
  showView ViewGame st.

(** The button of the modal dialog: hide it and run its action. *)
Definition modalButton (pick : nat) (st : GameState) : GameState :=
  match modal st with
  | None => st
  | Some m =>
      let st1 := set_modal None st in
      match modalAction m with
      | ActNewRound => newRound pick st1
      | ActGlobalReset => global_reset st1
      | ActContinentSelect => showView ViewContinentSelect st1
      end
  end.

(** ** Sessions *)

(** What can happen to a running game: the clicks wired by [initializeAppUI],
    [renderContinentSelect] and [renderKeyboard] (a key of the physical
    keyboard clicks the button of its letter), the answer of the API to a
    request, and the timer of the [catch] of [loadContinent].  The card of a
    continent has a handler only if the continent is not dominated. *)
Inductive Event :=
| ClickStart
| ClickRanking
| ClickBackToMenu
| ClickContinent (continent : string)
| FetchSettled (continent : string) (response : option (list ApiCountry)) (pick : nat)
| LoadErrorTimeout
| ClickKey (letter : jsstring)
| ClickModalButton (pick : nat)
| ClickBackToMap.

Definition step (st : GameState) (e : Event) : GameState :=
  match e with
  | ClickStart => showView ViewContinentSelect st
  | ClickRanking => showView ViewRanking st
  | ClickBackToMenu => showView ViewMenu st
  | ClickContinent continent =>
      if bool_decide (continentStatus st !! continent = Some (StatusString "dominated"))
      then st
      else startGame continent st
  | FetchSettled continent response pick => loadContinent continent response pick st
  | LoadErrorTimeout => showView ViewContinentSelect st
  | ClickKey letter => guessLetter letter st
  | ClickModalButton pick => modalButton pick st
  | ClickBackToMap => backToMap st
  end.

Definition run (st : GameState) (es : list Event) : GameState := foldl step st es.

(** A round played out: the guesses in order. *)
Definition guesses (st : GameState) (letters : list jsstring) : GameState :=
  foldl (λ st letter, guessLetter letter st) st letters.

End Game.

(** The literal that [gameState] starts from, on a page whose storage holds
    [storage]; [window.onload] then runs [initializeAppUI]. *)
Definition gameState0 (storage : Storage) : GameState :=
  {| currentView := ViewMenu;
     continentStatus := ∅;
     currentStreak := 0;
     bestStreak := 0;
     currentContinent := EmptyString;
     countries := [];
     dominated := 0;
     currentCountry := None;
     targetWord := [];
     guessedLetters := ∅;
     troops := MAX_TROOPS;
     isGameActive := false;
     arrays := [[]];
     localStorage := storage;
     saveCalls := 0;
     modal := None;
     signals := [] |}.

Definition onload (storage : Storage) : GameState :=
  initializeAppUI (gameState0 storage).

(** ** Notions used in the statements *)

(** A country object with its [isDominated] set. *)
Definition marked (c : Country) : Country :=
  {| name := name c; flag := flag c; key := key c; isDominated := true |}.

(** The win condition: every code unit of the word that is not white space is,
    as a one-unit string, among the guessed letters. *)
Definition word_complete (word : jsstring) (guessed : gset jsstring) : Prop :=
  ∀ c, c ∈ word → is_white_space c = false → [c] ∈ guessed.

(** The invariant of the troops: between 0 and 3, and not 0 while a round is
    active. *)
Definition troops_ok (st : GameState) : Prop :=
  (0 ≤ troops st ≤ MAX_TROOPS)%Z ∧ (isGameActive st = true → (0 < troops st)%Z).


(** The stored best streak is the current one, as [toString] writes it. *)
Definition synced (st : GameState) : Prop :=
  stored_best_streak (localStorage st) = Some (parseInt_toString (bestStreak st)).

(** How the best streak and the saves may move between two states: the best
    streak does not go down, no save is undone, a higher best streak comes with
    a save, and it is the stored one from then on. *)
Definition streak_step (st st' : GameState) : Prop :=
  (bestStreak st ≤ bestStreak st')%Z ∧
  saveCalls st ≤ saveCalls st' ∧
  ((bestStreak st < bestStreak st')%Z → saveCalls st < saveCalls st') ∧
  (synced st ∨ (bestStreak st < bestStreak st')%Z → synced st').

(** The higher of the two streaks, or 0. *)
Definition streak_top (st : GameState) : Z :=
  Z.max 0 (Z.max (bestStreak st) (currentStreak st)).

(** From [st] to [st'] the streaks rise by [k] at most, and the current one
    stays non-negative if it was. *)
Definition streak_rise (k : Z) (st st' : GameState) : Prop :=
  ((0 ≤ currentStreak st)%Z → (0 ≤ currentStreak st')%Z) ∧
  (streak_top st' ≤ streak_top st + k)%Z.

(** The streaks are so far below [plain_limit] that [n] events, each of which
    raises them by 1 at most, cannot bring them there. *)
Definition streak_room (n : nat) (st : GameState) : Prop :=
  (streak_top st + Z.of_nat n < plain_limit)%Z.

(** The reset of the global victory, as far as the best streak and the saves
    go: one save, and the best streak is the one read back. *)
Definition streak_reread (st st' : GameState) : Prop :=
  bestStreak st' = parseInt_toString (bestStreak st) ∧
  saveCalls st' = S (saveCalls st) ∧
  synced st'.

(** Everything in the state but the view, the continent statuses and the
    array objects. *)
Definition game_fields (st : GameState) :=
  (currentStreak st, bestStreak st, currentContinent st, countries st, dominated st,
   currentCountry st, targetWord st, guessedLetters st, troops st, isGameActive st,
   localStorage st, saveCalls st, modal st, signals st).

(** ** Sample data *)

Definition peru_api : ApiCountry :=
  {| name_common := lit "Peru"; flags_svg := lit "pe.svg";
     population := 33000000; area := lit "1285216" |}.

Definition chile_api : ApiCountry :=
  {| name_common := lit "Chile"; flags_svg := lit "cl.svg";
     population := 19000000; area := lit "756102" |}.

(** The object that [loadContinent] makes of [peru_api]. *)
Definition peru : Country :=
  {| name := lit "Peru"; flag := lit "pe.svg"; key := lit "PERU1285216";
     isDominated := false |}.

Definition empty_storage : Storage :=
  {| stored_best_streak := None; stored_continent_status := None |}.

(** A first round on Peru, on a new page. *)
Definition peru_round : GameState :=
  @run latin1 (onload empty_storage)
    [ClickContinent "Americas"; FetchSettled "Americas" (Some [peru_api]) 0].

(** A continent with Peru alone, conquered: the four letters, the dialog of
    the country, the dialog of the continent. *)
Definition conquest (continent : string) : list Event :=
  [ClickContinent continent; FetchSettled continent (Some [peru_api]) 0;
   ClickKey (lit "P"); ClickKey (lit "E"); ClickKey (lit "R"); ClickKey (lit "U");
   ClickModalButton 0; ClickModalButton 0].

(** Four continents conquered and the one country of the fifth just won, its
    dialog closed. *)
Definition last_country_won : GameState :=
  set_modal None
    (@run latin1 (onload empty_storage)
       (conquest "Africa" ++ conquest "Americas" ++ conquest "Asia" ++ conquest "Europe" ++
        [ClickContinent "Oceania"; FetchSettled "Oceania" (Some [peru_api]) 0;
         ClickKey (lit "P"); ClickKey (lit "E"); ClickKey (lit "R"); ClickKey (lit "U")])).



(** Peru won on a continent of two countries, then back to the map: the
    status of the continent is an in-progress object. *)
Definition americas_in_progress : GameState :=
  @run latin1 (onload empty_storage)
    [ClickContinent "Americas"; FetchSettled "Americas" (Some [peru_api; chile_api]) 0;
     ClickKey (lit "P"); ClickKey (lit "E"); ClickKey (lit "R"); ClickKey (lit "U");
     ClickBackToMap].


(** ** More notions: what a reload keeps *)

(** The word that the loop of [initializeAppUI] makes of a held status: an
    absent or empty one is available, a string is itself, an object is its
    [status] field. *)
Definition status_word (held : option StatusValue) : string :=
  match held with
  | None => "available"
  | Some (StatusString s) => if bool_decide (s = EmptyString) then "available" else s
  | Some (StatusObject s _) => if bool_decide (s = EmptyString) then "available" else s
  end.

(** The word of a continent after [initializeAppUI], from its stored value and
    the value held before: a stored value that is truthy wins. *)
Definition reloaded_word (stored : option StoredStatus) (held : option StatusValue) : string :=
  match stored with
  | Some (StoredString s) => if bool_decide (s = EmptyString) then status_word held else s
  | Some (StoredObject s _) => if bool_decide (s = EmptyString) then "available" else s
  | None => status_word held
  end.

(** ** More notions: the accounts of a round *)

(** The guessed letters that are not in the word. *)
Definition wrong_letters (st : GameState) : gset jsstring :=
  filter (λ u, includes (targetWord st) u = false) (guessedLetters st).

(** Every troop that is missing was taken by one wrong letter. *)
Definition troops_counted (st : GameState) : Prop :=
  troops st = (MAX_TROOPS - Z.of_nat (size (wrong_letters st)))%Z.

(** The current streak is not negative and, unless it is 0, not above the
    best one. *)
Definition streaks_ok (st : GameState) : Prop :=
  (0 ≤ currentStreak st ≤ Z.max 0 (bestStreak st))%Z.

(** The array of dominated names exists. *)
Definition dominated_in_range (st : GameState) : Prop :=
  dominated st < length (arrays st).

(** The round on Peru with its last letter recorded and not yet checked. *)
Definition peru_last_letter : GameState :=
  record_guess (lit "U") (@guesses latin1 peru_round [lit "P"; lit "E"; lit "R"]).

(** A record whose name has no Latin letter, and the round on it. *)
Definition unnamed_api : ApiCountry :=
  {| name_common := lit "(?)"; flags_svg := lit "xx.svg";
     population := 200000; area := lit "1" |}.

Definition unnamed_round : GameState :=
  @run latin1 (onload empty_storage)
    [ClickContinent "Asia"; FetchSettled "Asia" (Some [unnamed_api]) 0].

#[global] Instance View_eq_dec : EqDecision View.
Proof. solve_decision. Defined.

(** ** The page

    The elements of the document that the game writes to while a round is
    played, as far as the script decides them: the on-screen keyboard, the
    slots of the word, the troop icons, the streak counter and the flag.  The
    markup of the page is not part of the sources: an element is [None] (for
    the keyboard: without buttons) until the script has written to it. *)
Module UI.

(** A [div] of the word display: the placeholder of a space, or a letter slot
    showing [displayChar]. *)
Inductive Slot := SpaceSlot | LetterSlot (displayChar : N).

(** A [button] of the keyboard: its [data-letter], which of the three groups
    of classes it carries (the grey ones, [guessed-correct],
    [guessed-incorrect]), its [disabled] attribute, and whether it has an
    [onclick] handler. *)
Record Button := mkButton {
  data_letter : jsstring;
  plain : bool;
  guessed_correct : bool;
  guessed_incorrect : bool;
  disabled : bool;
  onclick : bool;
}.

Record Page := mkPage {
  game : GameState;
  keyboard : list Button;
  wordDisplay : option (list Slot);
  troopsDisplay : option (list bool);
  streakDisplay : option Z;
  flagImage : option jsstring;
}.

Definition set_game (v : GameState) (p : Page) : Page :=
  mkPage v (keyboard p) (wordDisplay p) (troopsDisplay p) (streakDisplay p) (flagImage p).

Definition set_keyboard (v : list Button) (p : Page) : Page :=
  mkPage (game p) v (wordDisplay p) (troopsDisplay p) (streakDisplay p) (flagImage p).

Definition set_wordDisplay (v : option (list Slot)) (p : Page) : Page :=
  mkPage (game p) (keyboard p) v (troopsDisplay p) (streakDisplay p) (flagImage p).

Definition set_troopsDisplay (v : option (list bool)) (p : Page) : Page :=
  mkPage (game p) (keyboard p) (wordDisplay p) v (streakDisplay p) (flagImage p).

Definition set_streakDisplay (v : option Z) (p : Page) : Page :=
  mkPage (game p) (keyboard p) (wordDisplay p) (troopsDisplay p) v (flagImage p).

Definition set_flagImage (v : option jsstring) (p : Page) : Page :=
  mkPage (game p) (keyboard p) (wordDisplay p) (troopsDisplay p) (streakDisplay p) v.

Definition set_disabled (v : bool) (b : Button) : Button :=
  mkButton (data_letter b) (plain b) (guessed_correct b) (guessed_incorrect b) v (onclick b).

Definition add_guessed_correct (b : Button) : Button :=
  mkButton (data_letter b) (plain b) true (guessed_incorrect b) (disabled b) (onclick b).

Definition add_guessed_incorrect (b : Button) : Button :=
  mkButton (data_letter b) (plain b) (guessed_correct b) true (disabled b) (onclick b).

(** [elements.keyboard.querySelector('[data-letter=...]')], followed by an
    update of the button found, if any: the first button, in document order,
    with that letter. *)
Definition update_button (letter : jsstring) (f : Button → Button) (kb : list Button) :
    list Button :=
  match list_find (λ b, data_letter b = letter) kb with
  | Some (i, button) => <[i := f button]> kb
  | None => kb
  end.

(** [renderTroops]: after the label, one icon for each of the [MAX_TROOPS]
    places, a full one ([true]) while [i < gameState.troops]. *)
Definition troop_icons (troops : Z) : list bool :=
  (λ i, bool_decide (Z.of_nat i < troops)%Z) <$> seq 0 (Z.to_nat MAX_TROOPS).

Definition renderTroops (p : Page) : Page :=
  set_troopsDisplay (Some (troop_icons (troops (game p)))) p.

(** [renderStreak], with the counter it writes. *)
Definition renderStreak (p : Page) : Page :=
  let p1 := set_streakDisplay (Some (currentStreak (game p))) p in
  set_game (renderStreak (game p1)) p1.

(** [renderWordDisplay]: nothing for an empty word; else one [div] for each
    code unit, the placeholder for the space U+0020, the letter itself when
    guessed and an underscore (U+005F) otherwise. *)
Definition word_slot (guessed : gset jsstring) (char : N) : Slot :=
  if (char =? 32)%N then SpaceSlot
  else LetterSlot (if bool_decide ([char] ∈ guessed) then char else 95%N).

Definition renderWordDisplay (p : Page) : Page :=
  if bool_decide (targetWord (game p) = []) then p
  else
    set_wordDisplay
      (Some (word_slot (guessedLetters (game p)) <$> targetWord (game p))) p.

(** [renderKeyboard]: a button for each letter of the alphabet, disabled and
    marked when the letter is guessed; the buttons that are not disabled get
    the handler. *)
Definition alphabet : list jsstring := (λ c, [c]) <$> lit "ABCDEFGHIJKLMNOPQRSTUVWXYZ".

Definition keyboard_button (st : GameState) (letter : jsstring) : Button :=
  let isDisabled := bool_decide (letter ∈ guessedLetters st) in
  {| data_letter := letter;
     plain := negb isDisabled;
     guessed_correct := isDisabled && includes (targetWord st) letter;
     guessed_incorrect := isDisabled && negb (includes (targetWord st) letter);
     disabled := isDisabled;
     onclick := negb isDisabled |}.

Definition renderKeyboard (p : Page) : Page :=
  set_keyboard (keyboard_button (game p) <$> alphabet) p.

Section Handlers.
Context `{Platform}.

(** [newRound] *)
Definition newRound (pick : nat) (p : Page) : Page :=
  let st := game p in
  let availableCountries := List.filter (λ c, negb (isDominated c)) (countries st) in
  match availableCountries with
  | [] => set_game (handleContinentWin st) p
  | c0 :: _ =>
      let countryIndex := pick `mod` length availableCountries in
      let country := nth countryIndex availableCountries c0 in
      let st1 := set_currentCountry (Some country) st in
      let st2 := set_targetWord (cleanWord (name country)) st1 in
      let st3 := set_guessedLetters ∅ st2 in
      let st4 := set_troops MAX_TROOPS st3 in
      let st5 := set_isGameActive true st4 in
      let p1 := set_flagImage (Some (flag country)) (set_game st5 p) in
      renderKeyboard (renderWordDisplay (renderStreak (renderTroops p1)))
  end.

(** The branch [// WIN COUNTRY] of [checkGameStatus]. *)
Definition win_country (p : Page) : Page :=
  let st1 := set_isGameActive false (game p) in
  let st2 := set_currentStreak (currentStreak st1 + 1)%Z st1 in
  let p3 := renderStreak (set_game st2 p) in
  match currentCountry (game p3) with
  | None => p3
  | Some current =>
      let st4 := mark_dominated (key current) (game p3) in
      let st5 :=
        set_continentStatus
          (<[currentContinent st4 := StatusObject "in-progress" (dominated st4)]>
             (continentStatus st4)) st4 in
      let st6 := saveGameStateToStorage st5 in
      set_game
        (handleModal (CountryDominated (name current) (currentStreak st6)) ActNewRound st6)
        p3
  end.

(** [checkGameStatus] *)
Definition checkGameStatus (p : Page) : Page :=
  if negb (isGameActive (game p)) then p
  else if correctlyGuessed (game p) then win_country p
  else if (troops (game p) <=? 0)%Z then set_game (lose_game (game p)) p
  else p.

(** The middle of [guessLetter], from [guessedLetters.add] to the branch on
    [targetWord.includes], with the class that the button gets. *)
Definition record_guess (upperLetter : jsstring) (p : Page) : Page :=
  let p1 :=
    set_game (set_guessedLetters ({[upperLetter]} ∪ guessedLetters (game p)) (game p)) p in
  if includes (targetWord (game p1)) upperLetter then
    set_keyboard (update_button upperLetter add_guessed_correct (keyboard p1)) p1
  else
    let p2 := set_game (set_troops (troops (game p1) - 1)%Z (game p1)) p1 in
    let p3 :=
      set_keyboard (update_button upperLetter add_guessed_incorrect (keyboard p2)) p2 in
    renderStreak (set_game (set_currentStreak 0 (game p3)) p3).

(** [guessLetter] *)
Definition guessLetter (letter : jsstring) (p : Page) : Page :=
  if negb (isGameActive (game p)) then p else
  let upperLetter := toUpperCase letter in
  let p1 := set_keyboard (update_button upperLetter (set_disabled true) (keyboard p)) p in
  if bool_decide (upperLetter ∈ guessedLetters (game p1)) then p1 else
  checkGameStatus (renderWordDisplay (renderTroops (record_guess upperLetter p1))).

(** [loadContinent], once the request has come back. *)
Definition loadContinent (continent : string) (response : option (list ApiCountry))
    (pick : nat) (p : Page) : Page :=
  match response with
  | None => p
  | Some data =>
      let st1 := set_countries (to_country <$> List.filter qualifies data) (game p) in
      if bool_decide (length (countries st1) = 0) then set_game st1 p else
      let st2 := merge_dominated continent st1 in
      let st3 := set_currentContinent continent st2 in
      let st4 :=
        set_dominated (length (arrays st3))
          (set_arrays
             (arrays st3 ++ [name <$> List.filter isDominated (countries st3)]) st3) in
      newRound pick (set_game st4 p)
  end.

(** The button of the modal dialog. *)
Definition modalButton (pick : nat) (p : Page) : Page :=
  match modal (game p) with
  | None => p
  | Some m =>
      let st1 := set_modal None (game p) in
      match modalAction m with
      | ActNewRound => newRound pick (set_game st1 p)
      | ActGlobalReset => set_game (global_reset st1) p
      | ActContinentSelect => set_game (showView ViewContinentSelect st1) p
      end
  end.

(** A click on a button: nothing on a disabled one, else its handler, if it
    has one. *)
Definition click (button : Button) (p : Page) : Page :=
  if negb (disabled button) && onclick button then guessLetter (data_letter button) p
  else p.

(** The [keydown] listener of [window.onload]. *)
Definition keydown (key : jsstring) (p : Page) : Page :=
  if bool_decide (currentView (game p) = ViewGame) && isGameActive (game p) then
    let letter := toUpperCase key in
    match letter with
    | [c] =>
        if is_upper_latin c then
          match list_find (λ b, data_letter b = letter) (keyboard p) with
          | Some (_, button) => if negb (disabled button) then click button p else p
          | None => p
          end
        else p
    | _ => p
    end
  else p.

(** What can happen to the page: as for the game, but a guess comes from the
    [i]-th button of the keyboard or from a key of the physical keyboard. *)
Inductive Event :=
| ClickStart
| ClickRanking
| ClickBackToMenu
| ClickContinent (continent : string)
| FetchSettled (continent : string) (response : option (list ApiCountry)) (pick : nat)
| LoadErrorTimeout
| ClickButton (i : nat)
| KeyDown (key : jsstring)
| ClickModalButton (pick : nat)
| ClickBackToMap.

Definition step (p : Page) (e : Event) : Page :=
  match e with
  | ClickStart => set_game (showView ViewContinentSelect (game p)) p
  | ClickRanking => set_game (showView ViewRanking (game p)) p
  | ClickBackToMenu => set_game (showView ViewMenu (game p)) p
  | ClickContinent continent =>
      if bool_decide (continentStatus (game p) !! continent = Some (StatusString "dominated"))
      then p
      else set_game (startGame continent (game p)) p
  | FetchSettled continent response pick => loadContinent continent response pick p
  | LoadErrorTimeout => set_game (showView ViewContinentSelect (game p)) p
  | ClickButton i =>
      match keyboard p !! i with
      | Some button => click button p
      | None => p
      end
  | KeyDown key => keydown key p
  | ClickModalButton pick => modalButton pick p
  | ClickBackToMap => set_game (backToMap (game p)) p
  end.

Definition run (p : Page) (es : list Event) : Page := foldl step p es.

End Handlers.

(** The page when [window.onload] has run. *)
Definition onload (storage : Storage) : Page :=
  {| game := onload storage; keyboard := []; wordDisplay := None;
     troopsDisplay := None; streakDisplay := None; flagImage := None |}.

End UI.

(** The event of the game that an event of the page amounts to, if any: a
    click on a button that is enabled and has a handler, or the press of a
    key that clicks such a button, is the guess of the letter of the button. *)
Definition guess_of (button : UI.Button) : option Event :=
  if negb (UI.disabled button) && UI.onclick button
  then Some (ClickKey (UI.data_letter button)) else None.

Definition game_event `{Platform} (p : UI.Page) (e : UI.Event) : option Event :=
  match e with
  | UI.ClickStart => Some ClickStart
  | UI.ClickRanking => Some ClickRanking
  | UI.ClickBackToMenu => Some ClickBackToMenu
  | UI.ClickContinent continent => Some (ClickContinent continent)
  | UI.FetchSettled continent response pick => Some (FetchSettled continent response pick)
  | UI.LoadErrorTimeout => Some LoadErrorTimeout
  | UI.ClickButton i => UI.keyboard p !! i ≫= guess_of
  | UI.KeyDown key =>
      if bool_decide (currentView (UI.game p) = ViewGame) && isGameActive (UI.game p) then
        match toUpperCase key with
        | [c] =>
            if is_upper_latin c then
              list_find (λ b, UI.data_letter b = [c]) (UI.keyboard p) ≫= λ found,
              guess_of found.2
            else None
        | _ => None
        end
      else None
  | UI.ClickModalButton pick => Some (ClickModalButton pick)
  | UI.ClickBackToMap => Some ClickBackToMap
  end.

(** The events of the game behind a session of the page. *)
Fixpoint game_events `{Platform} (p : UI.Page) (es : list UI.Event) : list Event :=
  match es with
  | [] => []
  | e :: es' =>
      match game_event p e with
      | Some e' => e' :: game_events (UI.step p e) es'
      | None => game_events (UI.step p e) es'
      end
  end.

(** A button agrees with the game: it has its handler, it is disabled exactly
    when its letter is guessed, and it carries [guessed-correct] or
    [guessed-incorrect] exactly when its letter is guessed and is, or is
    not, in the word. *)
Definition button_ok (st : GameState) (b : UI.Button) : Prop :=
  UI.onclick b = true ∧
  (UI.disabled b = true ↔ UI.data_letter b ∈ guessedLetters st) ∧
  (UI.guessed_correct b = true ↔
     UI.data_letter b ∈ guessedLetters st ∧ includes (targetWord st) (UI.data_letter b) = true) ∧
  (UI.guessed_incorrect b = true ↔
     UI.data_letter b ∈ guessedLetters st ∧ includes (targetWord st) (UI.data_letter b) = false).

Definition keyboard_ok (p : UI.Page) : Prop :=
  (UI.keyboard p = [] ∨ UI.data_letter <$> UI.keyboard p = UI.alphabet) ∧
  Forall (button_ok (UI.game p)) (UI.keyboard p) ∧
  (isGameActive (UI.game p) = true → UI.keyboard p ≠ []) ∧
  (∀ u, u ∈ guessedLetters (UI.game p) → u ∈ UI.alphabet).

(** The displays agree with the game. *)
Definition displays_ok (p : UI.Page) : Prop :=
  let st := UI.game p in
  (∀ shown, UI.troopsDisplay p = Some shown → shown = UI.troop_icons (troops st)) ∧
  (isGameActive st = true → is_Some (UI.troopsDisplay p)) ∧
  (targetWord st ≠ [] →
   UI.wordDisplay p = Some (UI.word_slot (guessedLetters st) <$> targetWord st)) ∧
  (isGameActive st = true → UI.streakDisplay p = Some (currentStreak st)) ∧
  UI.flagImage p = flag <$> currentCountry st.

Definition page_ok (p : UI.Page) : Prop := keyboard_ok p ∧ displays_ok p.

(** What the page shows of the game. *)
Definition face (st : GameState) :=
  (guessedLetters st, targetWord st, troops st, currentCountry st, isGameActive st,
   currentStreak st).

(** ** The earlier variant of the script

    [unnamed/part_000] is the same game without the storage: its
    [renderStreak], [checkGameStatus] and [handleContinentWin] do not save,
    its [loadContinent] does not bring back dominated countries, its
    [initializeAppUI] reads nothing, the dialog of the global victory runs
    [initializeAppUI] without making the continents available, and the start
    button does not draw the continent cards again.  The functions that the
    two files have word for word ([cleanWord], [getCountryKey], [showView],
    [handleModal], [startGame]) are the ones above.  The game starts when the
    timer of [window.onload] finds the authentication settled and runs
    [initializeAppUI]. *)
Module Legacy.

(** [renderStreak] *)
Definition renderStreak (st : GameState) : GameState :=
  if (currentStreak st >? bestStreak st)%Z then set_bestStreak (currentStreak st) st
  else st.

(** [handleContinentWin], up to the dialog. *)
Definition handleContinentWin (st : GameState) : GameState :=
  let st1 :=
    set_continentStatus
      (<[currentContinent st := StatusString "dominated"]> (continentStatus st)) st in
  let allDominated :=
    forallb (λ c, bool_decide (continentStatus st1 !! c = Some (StatusString "dominated")))
      CONTINENTS in
  if allDominated then handleModal GlobalVictory ActGlobalReset st1
  else handleModal (ContinentConquered (currentContinent st1)) ActContinentSelect st1.

Section Game.
Context `{Platform}.

(** [newRound] *)
Definition newRound (pick : nat) (st : GameState) : GameState :=
  let availableCountries := List.filter (λ c, negb (isDominated c)) (countries st) in
  match availableCountries with
  | [] => handleContinentWin st
  | c0 :: _ =>
      let countryIndex := pick `mod` length availableCountries in
      let country := nth countryIndex availableCountries c0 in
      let st1 := set_currentCountry (Some country) st in
      let st2 := set_targetWord (cleanWord (name country)) st1 in
      let st3 := set_guessedLetters ∅ st2 in
      let st4 := set_troops MAX_TROOPS st3 in
      let st5 := set_isGameActive true st4 in
      renderStreak st5
  end.

(** The branch [// WIN COUNTRY]. *)
Definition win_country (st : GameState) : GameState :=
  let st1 := set_isGameActive false st in
  let st2 := set_currentStreak (currentStreak st1 + 1)%Z st1 in
  let st3 := renderStreak st2 in
  match currentCountry st3 with
  | None => st3
  | Some current =>
      let st4 := mark_dominated (key current) st3 in
      handleModal (CountryDominated (name current) (currentStreak st4)) ActNewRound st4
  end.

(** [checkGameStatus] *)
Definition checkGameStatus (st : GameState) : GameState :=
  if negb (isGameActive st) then st
  else if correctlyGuessed st then win_country st
  else if (troops st <=? 0)%Z then lose_game st
  else st.

(** The middle of [guessLetter]. *)
Definition record_guess (upperLetter : jsstring) (st : GameState) : GameState :=
  let st1 := set_guessedLetters ({[upperLetter]} ∪ guessedLetters st) st in
  if includes (targetWord st1) upperLetter then st1
  else
    let st2 := set_troops (troops st1 - 1)%Z st1 in
    let st3 := set_currentStreak 0 st2 in
    renderStreak st3.

(** [guessLetter] *)
Definition guessLetter (letter : jsstring) (st : GameState) : GameState :=
  if negb (isGameActive st) then st else
  let upperLetter := toUpperCase letter in
  if bool_decide (upperLetter ∈ guessedLetters st) then st else
  checkGameStatus (record_guess upperLetter st).

(** [loadContinent], once the request has come back: [dominated] is a new,
    empty array. *)
Definition loadContinent (continent : string) (response : option (list ApiCountry))
    (pick : nat) (st : GameState) : GameState :=
  match response with
  | None => st
  | Some data =>
      let st1 := set_countries (to_country <$> List.filter qualifies data) st in
      if bool_decide (length (countries st1) = 0) then st1 else
      let st2 := set_currentContinent continent st1 in
      let st3 := set_dominated (length (arrays st2)) (set_arrays (arrays st2 ++ [[]]) st2) in
      newRound pick st3
  end.

End Game.

(** The game and the continent cards that have a click handler, as
    [renderContinentSelect] left them. *)
Record Page := mkPage {
  game : GameState;
  cards : list string;
}.

Definition set_game (v : GameState) (p : Page) : Page := mkPage v (cards p).

(** [renderContinentSelect]: a card for each continent, with a handler unless
    the continent is dominated. *)
Definition renderContinentSelect (p : Page) : Page :=
  mkPage (game p)
    (List.filter
       (λ c, negb (bool_decide (continentStatus (game p) !! c
                                = Some (StatusString "dominated"))))
       CONTINENTS).

(** The loop of [initializeAppUI]: a status that is missing or empty becomes
    ['available']. *)
Definition initialize_continent (st : GameState) (continent : string) : GameState :=
  match continentStatus st !! continent with
  | None => set_continentStatus (<[continent := StatusString "available"]> (continentStatus st)) st
  | Some (StatusString s) =>
      if bool_decide (s = EmptyString)
      then set_continentStatus (<[continent := StatusString "available"]> (continentStatus st)) st
      else st
  | Some (StatusObject _ _) => st
  end.

(** [initializeAppUI] *)
Definition initializeAppUI (p : Page) : Page :=
  let st1 := foldl initialize_continent (game p) CONTINENTS in
  let p1 := renderContinentSelect (set_game st1 p) in
  set_game (showView ViewMenu (game p1)) p1.

(** [backToMapButton.onclick] *)
Definition backToMap (p : Page) : Page :=
  let st1 := set_isGameActive false (game p) in
  let st2 := set_currentStreak 0 st1 in
  let p1 := renderContinentSelect (set_game st2 p) in
  set_game (showView ViewContinentSelect (game p1)) p1.

Section Sessions.
Context `{Platform}.

(** The button of the modal dialog. *)
Definition modalButton (pick : nat) (p : Page) : Page :=
  match modal (game p) with
  | None => p
  | Some m =>
      let p1 := set_game (set_modal None (game p)) p in
      match modalAction m with
      | ActNewRound => set_game (newRound pick (game p1)) p1
      | ActGlobalReset =>
          let p2 := initializeAppUI p1 in
          set_game (showView ViewMenu (game p2)) p2
      | ActContinentSelect =>
          let p2 := renderContinentSelect p1 in
          set_game (showView ViewContinentSelect (game p2)) p2
      end
  end.

(** The events are those of the game above; a continent card acts if it has
    its handler. *)
Definition step (p : Page) (e : Event) : Page :=
  match e with
  | ClickStart => set_game (showView ViewContinentSelect (game p)) p
  | ClickRanking => set_game (showView ViewRanking (game p)) p
  | ClickBackToMenu => set_game (showView ViewMenu (game p)) p
  | ClickContinent continent =>
      if bool_decide (continent ∈ cards p) then set_game (startGame continent (game p)) p
      else p
  | FetchSettled continent response pick =>
      set_game (loadContinent continent response pick (game p)) p
  | LoadErrorTimeout => set_game (showView ViewContinentSelect (game p)) p
  | ClickKey letter => set_game (guessLetter letter (game p)) p
  | ClickModalButton pick => modalButton pick p
  | ClickBackToMap => backToMap p
  end.

Definition run (p : Page) (es : list Event) : Page := foldl step p es.

End Sessions.

(** The literal that [gameState] starts from, and the page when
    [initializeAppUI] has run. *)
Definition gameState0 : GameState :=
  {| currentView := ViewMenu;
     continentStatus := ∅;
     currentStreak := 0;
     bestStreak := 0;
     currentContinent := EmptyString;
     countries := [];
     dominated := 0;
     currentCountry := None;
     targetWord := [];
     guessedLetters := ∅;
     troops := MAX_TROOPS;
     isGameActive := false;
     arrays := [[]];
     localStorage := {| stored_best_streak := None; stored_continent_status := None |};
     saveCalls := 0;
     modal := None;
     signals := [] |}.

Definition onload : Page := initializeAppUI {| game := gameState0; cards := [] |}.

End Legacy.

(** Two states of the two variants with the same round, the same list of
    countries and the same dominated names: all of the game but the continent
    statuses and the storage. *)
Definition agree (st st' : GameState) : Prop :=
  currentStreak st = currentStreak st' ∧ bestStreak st = bestStreak st' ∧
  currentContinent st = currentContinent st' ∧ countries st = countries st' ∧
  currentCountry st = currentCountry st' ∧ targetWord st = targetWord st' ∧
  guessedLetters st = guessedLetters st' ∧ troops st = troops st' ∧
  isGameActive st = isGameActive st' ∧ modal st = modal st' ∧ signals st = signals st' ∧
  array_get (dominated st) (arrays st) = array_get (dominated st') (arrays st') ∧
  dominated_in_range st ∧ dominated_in_range st'.

(** The same continents are dominated. *)
Definition same_conquests (st st' : GameState) : Prop :=
  ∀ c, continentStatus st !! c = Some (StatusString "dominated") ↔
       continentStatus st' !! c = Some (StatusString "dominated").

(** Every continent is dominated. *)
Definition all_dominated (st : GameState) : Prop :=
  ∀ c, c ∈ CONTINENTS → continentStatus st !! c = Some (StatusString "dominated").

(** The event is the arrival of a response of the API. *)
Definition is_response (e : Event) : bool :=
  match e with
  | FetchSettled _ _ _ => true
  | _ => false
  end.

(** The five continents conquered in the earlier variant, the dialog of the
    global victory still open. *)
Definition legacy_all_conquered : Legacy.Page :=
  @Legacy.run latin1 Legacy.onload
    (conquest "Africa" ++ conquest "Americas" ++ conquest "Asia" ++ conquest "Europe" ++
     [ClickContinent "Oceania"; FetchSettled "Oceania" (Some [peru_api]) 0;
      ClickKey (lit "P"); ClickKey (lit "E"); ClickKey (lit "R"); ClickKey (lit "U");
      ClickModalButton 0]).

(** * Properties *)

(** ** Regular expressions against list functions *)

Lemma remove_class_fuel (p : N → bool) (fuel : nat) (s : jsstring) :
  length s ≤ fuel →
  remove_matches_fuel fuel (regex_match (Class p)) s = List.filter (λ c, negb (p c)) s.
Proof.
  revert s. induction fuel as [|fuel IH]; intros [|c s] Hlen; simpl in *; try done; try lia.
  unfold regex_match at 1. simpl. destruct (p c); simpl.
  - rewrite bool_decide_eq_true_2 by lia. apply IH. lia.
  - f_equal. apply IH. lia.
Qed.

Lemma replace_all_class (p : N → bool) (s : jsstring) :
  replace_all (Class p) s = List.filter (λ c, negb (p c)) s.
Proof. apply remove_class_fuel. done. Qed.

Lemma star_greedy_last (p : N → bool) (s : jsstring) :
  star_greedy p s Some = Some (drop_while p s).
Proof.
  induction s as [|c s IH]; simpl; [done|].
  destruct (p c); [by rewrite IH | done].
Qed.

(** A greedy star gives nothing back when what follows cannot start with a
    unit of its class. *)
Lemma star_greedy_no_backtrack (p : N → bool) (k : jsstring → option jsstring) (s : jsstring) :
  (∀ c s', p c = true → k (c :: s') = None) →
  star_greedy p s k = k (drop_while p s).
Proof.
  intros Hk. induction s as [|c s IH]; simpl; [done|].
  destruct (p c) eqn:Hc; [|done].
  rewrite IH. destruct (k (drop_while p s)) eqn:Hr; [done|].
  by apply Hk.
Qed.

Lemma star_lazy_close_paren (s : jsstring) :
  star_lazy is_dot s
    (λ s3, regex_exec (Cat (Class (N.eqb 41)) (Star is_white_space)) s3 Some)
  = drop_while is_white_space <$> close_paren s.
Proof.
  induction s as [|c s IH]; [done|].
  cbn [star_lazy regex_exec close_paren].
  rewrite (N.eqb_sym 41 c).
  destruct (c =? 41)%N.
  - by rewrite star_greedy_last.
  - unfold is_dot at 1. destruct (is_line_terminator c); [done|].
    exact IH.
Qed.

Lemma regex_match_parenthesized (s : jsstring) :
  regex_match re_parenthesized s = parenthesized_segment s.
Proof.
  unfold regex_match, re_parenthesized, parenthesized_segment.
  cbn [regex_exec].
  rewrite star_greedy_no_backtrack.
  - destruct (drop_while is_white_space s) as [|c s1]; [done|].
    rewrite (N.eqb_sym 40 c). destruct (c =? 40)%N; [|done].
    apply star_lazy_close_paren.
  - intros c s' Hc. destruct (N.eqb_spec 40 c) as [<-|]; [|done].
    by vm_compute in Hc.
Qed.

Lemma remove_matches_fuel_ext (m1 m2 : jsstring → option jsstring) (fuel : nat) (s : jsstring) :
  (∀ s, m1 s = m2 s) →
  remove_matches_fuel fuel m1 s = remove_matches_fuel fuel m2 s.
Proof.
  intros Hm. revert s. induction fuel as [|fuel IH]; intros [|c s]; simpl; try done.
  rewrite Hm. destruct (m2 (c :: s)); [case_bool_decide|]; by rewrite ?IH.
Qed.

Lemma replace_all_parenthesized (s : jsstring) :
  replace_all re_parenthesized s = remove_matches parenthesized_segment s.
Proof. apply remove_matches_fuel_ext, regex_match_parenthesized. Qed.

(** ** What [trim] leaves *)

Lemma drop_while_suffix (p : N → bool) (s : jsstring) :
  ∃ pre, s = pre ++ drop_while p s.
Proof.
  induction s as [|c s [pre IH]]; simpl; [by exists []|].
  destruct (p c).
  - exists (c :: pre). simpl. by f_equal.
  - by exists [].
Qed.

Lemma drop_while_head (p : N → bool) (s : jsstring) (c : N) :
  head (drop_while p s) = Some c → p c = false.
Proof.
  induction s as [|a s IH]; simpl; [done|].
  destruct (p a) eqn:Ha; [done|]. simpl. by intros [= <-].
Qed.

Lemma drop_while_elem (p : N → bool) (s : jsstring) (c : N) :
  c ∈ drop_while p s → c ∈ s.
Proof.
  destruct (drop_while_suffix p s) as [pre Hs]. rewrite Hs at 2.
  rewrite elem_of_app. auto.
Qed.

Lemma trim_elem (s : jsstring) (c : N) : c ∈ trim s → c ∈ s.
Proof.
  unfold trim. rewrite elem_of_reverse. intros Hc%drop_while_elem.
  rewrite elem_of_reverse in Hc. by apply drop_while_elem in Hc.
Qed.

Lemma trim_head (s : jsstring) (c : N) :
  head (trim s) = Some c → is_white_space c = false.
Proof.
  unfold trim. rewrite head_reverse.
  set (s1 := drop_while is_white_space s).
  destruct (drop_while_suffix is_white_space (reverse s1)) as [pre Hpre].
  intros Hlast.
  assert (last (reverse s1) = Some c) as Hl.
  { rewrite Hpre. destruct (drop_while is_white_space (reverse s1)) as [|a t] eqn:Ht; [done|].
    rewrite last_app. by rewrite Hlast. }
  rewrite last_reverse in Hl. by apply drop_while_head in Hl.
Qed.

Lemma trim_last (s : jsstring) (c : N) :
  last (trim s) = Some c → is_white_space c = false.
Proof. unfold trim. rewrite last_reverse. apply drop_while_head. Qed.

Lemma drop_while_split (p : N → bool) (s : jsstring) :
  ∃ pre, s = pre ++ drop_while p s ∧ Forall (λ c, p c = true) pre.
Proof.
  induction s as [|c s (pre & IH & Hpre)]; simpl; [by exists []|].
  destruct (p c) eqn:Hc.
  - exists (c :: pre). simpl. split; [by f_equal|by constructor].
  - by exists [].
Qed.

Lemma drop_while_app_all (p : N → bool) (pre s : jsstring) :
  Forall (λ c, p c = true) pre → drop_while p (pre ++ s) = drop_while p s.
Proof. induction 1 as [|c pre Hc _ IH]; simpl; [done|]. by rewrite Hc. Qed.

Lemma drop_while_all (p : N → bool) (s : jsstring) :
  Forall (λ c, p c = true) s → drop_while p s = [].
Proof.
  intros Hs. rewrite <- (app_nil_r s). by rewrite drop_while_app_all.
Qed.

Lemma drop_while_keeps (p : N → bool) (s : jsstring) :
  (∀ c, head s = Some c → p c = false) → drop_while p s = s.
Proof. destruct s as [|c s]; simpl; [done|]. intros Hc. by rewrite (Hc c). Qed.

(** [trim] does what [trimmed_of] says, and nothing else does. *)
Lemma trim_trimmed_of (s : jsstring) : trimmed_of s (trim s).
Proof.
  split; [|split; [apply trim_head|apply trim_last]].
  destruct (drop_while_split is_white_space s) as (pre & Hs & Hpre).
  destruct (drop_while_split is_white_space (reverse (drop_while is_white_space s)))
    as (q & Hu & Hq).
  exists pre, (reverse q). split; [|split; [done|by apply Forall_reverse]].
  rewrite Hs at 1. f_equal. unfold trim.
  rewrite <- reverse_app, <- Hu. by rewrite reverse_involutive.
Qed.

Lemma trimmed_of_trim (s t : jsstring) : trimmed_of s t → t = trim s.
Proof.
  intros ((pre & post & -> & Hpre & Hpost) & Hhead & Hlast). unfold trim.
  rewrite drop_while_app_all by done.
  destruct t as [|c t].
  { rewrite app_nil_l, (drop_while_all _ post Hpost). reflexivity. }
  rewrite (drop_while_keeps _ ((c :: t) ++ post)) by (intros a [= <-]; by apply Hhead).
  rewrite reverse_app.
  rewrite (drop_while_app_all _ (reverse post)) by by apply Forall_reverse.
  rewrite drop_while_keeps; [by rewrite reverse_involutive|].
  intros a. rewrite head_reverse. apply Hlast.
Qed.

Lemma filter_upper_or_space (s : jsstring) :
  List.filter (λ c, negb (not_upper_or_space c)) s
  = List.filter (λ c, is_upper_latin c || is_white_space c) s.
Proof.
  apply List.filter_ext. intros c. unfold not_upper_or_space. apply negb_involutive.
Qed.


Section Normalisation.
Context `{Platform}.

Lemma cleanWord_spec (rawName : jsstring) : cleanWord rawName = normalize_spec rawName.
Proof.
  unfold cleanWord, normalize_spec, normalize_letters.
  by rewrite !replace_all_class, replace_all_parenthesized, filter_upper_or_space.
Qed.

(** Where the only white space is the plain space, keeping the white space
    and keeping the spaces are the same. *)
Lemma cleanWord_spec_plain (rawName : jsstring) :
  plain_spaces (normalizeNFD (replace_all re_parenthesized (toUpperCase rawName))) →
  cleanWord rawName = normalize_spec_plain rawName.
Proof.
  intros Hplain. rewrite cleanWord_spec.
  unfold normalize_spec, normalize_spec_plain, normalize_letters, normalize_letters_plain.
  rewrite <- replace_all_parenthesized. f_equal.
  apply List.filter_ext_in. intros c [Hc _]%List.filter_In. f_equal.
  destruct (is_white_space c) eqn:Hws.
  - rewrite (Hplain c); [done|by apply list_elem_of_In|done].
  - destruct (N.eqb_spec c 32) as [->|]; [by vm_compute in Hws|done].
Qed.

Lemma cleanWord_elem (rawName : jsstring) (c : N) :
  c ∈ cleanWord rawName → is_upper_latin c = true ∨ is_white_space c = true.
Proof.
  rewrite cleanWord_spec. unfold normalize_spec, normalize_letters. intros Hc%trim_elem.
  apply list_elem_of_In, List.filter_In in Hc as [_ Hc]. by apply orb_prop.
Qed.

Lemma cleanWord_head (rawName : jsstring) (c : N) :
  head (cleanWord rawName) = Some c → is_upper_latin c = true.
Proof.
  intros Hc. destruct (cleanWord_elem rawName c) as [|Hws]; [|done|].
  - destruct (cleanWord rawName); [done|]. injection Hc as ->. apply elem_of_cons. auto.
  - unfold cleanWord in Hc. apply trim_head in Hc. congruence.
Qed.

Lemma cleanWord_last (rawName : jsstring) (c : N) :
  last (cleanWord rawName) = Some c → is_upper_latin c = true.
Proof.
  intros Hc. destruct (cleanWord_elem rawName c) as [|Hws]; [|done|].
  - apply last_Some in Hc as [l' ->]. rewrite elem_of_app, list_elem_of_singleton. auto.
  - unfold cleanWord in Hc. apply trim_last in Hc. congruence.
Qed.

End Normalisation.

(** ** The state functions, field by field *)

Lemma renderStreak_cases (st : GameState) :
  (renderStreak st = st ∧ (currentStreak st ≤ bestStreak st)%Z) ∨
  (renderStreak st = saveGameStateToStorage (set_bestStreak (currentStreak st) st) ∧
   (bestStreak st < currentStreak st)%Z).
Proof.
  unfold renderStreak.
  destruct (Z.gtb_spec (currentStreak st) (bestStreak st)); [right|left]; split; auto; lia.
Qed.

(** [renderStreak] changes nothing of the round. *)
Lemma renderStreak_round (st : GameState) :
  troops (renderStreak st) = troops st ∧
  isGameActive (renderStreak st) = isGameActive st ∧
  guessedLetters (renderStreak st) = guessedLetters st ∧
  targetWord (renderStreak st) = targetWord st ∧
  currentCountry (renderStreak st) = currentCountry st ∧
  currentStreak (renderStreak st) = currentStreak st ∧
  signals (renderStreak st) = signals st ∧
  modal (renderStreak st) = modal st.
Proof. by destruct (renderStreak_cases st) as [[-> ?]|[-> ?]]. Qed.

Lemma renderStreak_session (st : GameState) :
  countries (renderStreak st) = countries st ∧
  dominated (renderStreak st) = dominated st ∧
  arrays (renderStreak st) = arrays st ∧
  continentStatus (renderStreak st) = continentStatus st ∧
  currentContinent (renderStreak st) = currentContinent st ∧
  currentView (renderStreak st) = currentView st.
Proof. by destruct (renderStreak_cases st) as [[-> ?]|[-> ?]]. Qed.

Lemma mark_dominated_frame (k : jsstring) (st : GameState) :
  troops (mark_dominated k st) = troops st ∧
  isGameActive (mark_dominated k st) = isGameActive st ∧
  guessedLetters (mark_dominated k st) = guessedLetters st ∧
  targetWord (mark_dominated k st) = targetWord st ∧
  currentCountry (mark_dominated k st) = currentCountry st ∧
  currentStreak (mark_dominated k st) = currentStreak st ∧
  bestStreak (mark_dominated k st) = bestStreak st ∧
  signals (mark_dominated k st) = signals st ∧
  modal (mark_dominated k st) = modal st ∧
  localStorage (mark_dominated k st) = localStorage st ∧
  saveCalls (mark_dominated k st) = saveCalls st ∧
  continentStatus (mark_dominated k st) = continentStatus st ∧
  currentContinent (mark_dominated k st) = currentContinent st ∧
  dominated (mark_dominated k st) = dominated st.
Proof. unfold mark_dominated. by destruct (list_find _ _) as [[i c]|]. Qed.

(** What the winning branch does to the round. *)
Lemma win_country_round (st : GameState) :
  troops (win_country st) = troops st ∧
  isGameActive (win_country st) = false ∧
  guessedLetters (win_country st) = guessedLetters st ∧
  targetWord (win_country st) = targetWord st ∧
  currentCountry (win_country st) = currentCountry st ∧
  currentStreak (win_country st) = (currentStreak st + 1)%Z.
Proof.
  unfold win_country.
  set (st2 := set_currentStreak _ _).
  destruct (renderStreak_round st2) as (Ht & Ha & Hg & Hw & Hc & Hs & _).
  revert Ht Ha Hg Hw Hc Hs. generalize (renderStreak st2). subst st2. simpl.
  intros st3 Ht Ha Hg Hw Hc Hs.
  destruct (currentCountry st3) as [cur|] eqn:Hcur; [|repeat split; congruence].
  destruct (mark_dominated_frame (key cur) st3) as (?&?&?&?&?&?&_).
  simpl. repeat split; congruence.
Qed.

Lemma win_country_signals (st : GameState) (cur : Country) :
  currentCountry st = Some cur →
  signals (win_country st)
  = CountryDominated (name cur) (currentStreak st + 1) :: signals st ∧
  modal (win_country st)
  = Some {| modalSignal := CountryDominated (name cur) (currentStreak st + 1);
            modalAction := ActNewRound |}.
Proof.
  unfold win_country.
  set (st2 := set_currentStreak _ _).
  destruct (renderStreak_round st2) as (_ & _ & _ & _ & Hc & Hs & Hsig & _).
  revert Hc Hs Hsig. generalize (renderStreak st2). subst st2. simpl.
  intros st3 -> Hs Hsig ->.
  destruct (mark_dominated_frame (key cur) st3) as (_&_&_&_&_&Hs'&_&Hsig'&_).
  simpl. by rewrite Hs', Hs, Hsig', Hsig.
Qed.


Lemma lose_game_round (st : GameState) :
  troops (lose_game st) = troops st ∧
  isGameActive (lose_game st) = false ∧
  guessedLetters (lose_game st) = guessedLetters st ∧
  targetWord (lose_game st) = targetWord st ∧
  currentCountry (lose_game st) = currentCountry st ∧
  currentStreak (lose_game st) = currentStreak st ∧
  bestStreak (lose_game st) = bestStreak st ∧
  saveCalls (lose_game st) = saveCalls st ∧
  localStorage (lose_game st) = localStorage st.
Proof. unfold lose_game. simpl. by destruct (currentCountry st) eqn:E. Qed.




(** [checkGameStatus] neither spends troops nor touches the guesses or the
    word. *)
Lemma checkGameStatus_round (st : GameState) :
  troops (checkGameStatus st) = troops st ∧
  guessedLetters (checkGameStatus st) = guessedLetters st ∧
  targetWord (checkGameStatus st) = targetWord st ∧
  currentCountry (checkGameStatus st) = currentCountry st.
Proof.
  unfold checkGameStatus.
  destruct (isGameActive st); simpl; [|done].
  destruct (correctlyGuessed st).
  { destruct (win_country_round st) as (?&?&?&?&?&?). by repeat split. }
  destruct (troops st <=? 0)%Z; [|done].
  destruct (lose_game_round st) as (?&?&?&?&?&?). by repeat split.
Qed.

Lemma checkGameStatus_still_active (st : GameState) :
  isGameActive (checkGameStatus st) = true →
  checkGameStatus st = st ∧ isGameActive st = true ∧
  correctlyGuessed st = false ∧ (0 < troops st)%Z.
Proof.
  unfold checkGameStatus.
  destruct (isGameActive st) eqn:Hact; simpl; [|congruence].
  destruct (correctlyGuessed st).
  { destruct (win_country_round st) as (_&->&_). done. }
  destruct (Z.leb_spec (troops st) 0); [|done].
  destruct (lose_game_round st) as (_&->&_). done.
Qed.

(** The streak after [checkGameStatus]: one more on a win. *)
Lemma checkGameStatus_currentStreak (st : GameState) :
  currentStreak (checkGameStatus st)
  = if isGameActive st && correctlyGuessed st
    then (currentStreak st + 1)%Z else currentStreak st.
Proof.
  unfold checkGameStatus.
  destruct (isGameActive st); simpl; [|done].
  destruct (correctlyGuessed st).
  { by destruct (win_country_round st) as (_&_&_&_&_&->). }
  destruct (troops st <=? 0)%Z; [|done].
  by destruct (lose_game_round st) as (_&_&_&_&_&->&_).
Qed.

(** ** The win condition *)

Lemma correctlyGuessed_spec (st : GameState) :
  correctlyGuessed st = true ↔ word_complete (targetWord st) (guessedLetters st).
Proof.
  unfold correctlyGuessed, wordLetters, word_complete.
  rewrite forallb_forall, replace_all_class. split.
  - intros Hall c Hc Hws. specialize (Hall [c]).
    rewrite bool_decide_eq_true in Hall. apply Hall.
    apply list_elem_of_In, elem_of_elements, elem_of_list_to_set, list_elem_of_fmap.
    exists c. split; [done|].
    apply list_elem_of_In, List.filter_In. split; [by apply list_elem_of_In|by rewrite Hws].
  - intros Hw x Hx. apply bool_decide_eq_true.
    apply list_elem_of_In, elem_of_elements, elem_of_list_to_set, list_elem_of_fmap
      in Hx as (c & -> & Hc).
    apply list_elem_of_In, List.filter_In in Hc as [Hc Hn].
    apply Hw; [by apply list_elem_of_In|by apply negb_true_iff].
Qed.

Lemma correctlyGuessed_false (st : GameState) :
  correctlyGuessed st = false ↔ ¬ word_complete (targetWord st) (guessedLetters st).
Proof. rewrite <- correctlyGuessed_spec. by destruct (correctlyGuessed st). Qed.

Lemma is_prefix_unit (c : N) (s : jsstring) : is_prefix [c] (c :: s) = true.
Proof. simpl. by rewrite N.eqb_refl. Qed.

Lemma includes_unit (c : N) (word : jsstring) : c ∈ word → includes word [c] = true.
Proof.
  induction word as [|a word IH]; [by intros ?%elem_of_nil|].
  intros [->|Hc]%elem_of_cons.
  - cbn [includes]. by rewrite is_prefix_unit.
  - cbn [includes]. rewrite IH by done. apply orb_true_r.
Qed.

(** A letter that is not in the word does not help to complete it. *)
Lemma word_complete_wrong_letter (word u : jsstring) (guessed : gset jsstring) :
  includes word u = false →
  word_complete word ({[u]} ∪ guessed) ↔ word_complete word guessed.
Proof.
  intros Hu. unfold word_complete. split; intros Hw c Hc Hws.
  - specialize (Hw c Hc Hws). apply elem_of_union in Hw as [Hw%elem_of_singleton|]; [|done].
    subst u. rewrite includes_unit in Hu by done. done.
  - apply elem_of_union. right. by apply Hw.
Qed.

(** ** One guess *)

Lemma record_guess_frame (u : jsstring) (st : GameState) :
  guessedLetters (record_guess u st) = {[u]} ∪ guessedLetters st ∧
  targetWord (record_guess u st) = targetWord st ∧
  isGameActive (record_guess u st) = isGameActive st ∧
  currentCountry (record_guess u st) = currentCountry st ∧
  signals (record_guess u st) = signals st.
Proof.
  unfold record_guess. simpl. destruct (includes (targetWord st) u); [done|].
  set (st3 := set_currentStreak _ _).
  by destruct (renderStreak_round st3) as (_ & -> & -> & -> & -> & _ & -> & _).
Qed.

Lemma record_guess_right (u : jsstring) (st : GameState) :
  includes (targetWord st) u = true →
  troops (record_guess u st) = troops st ∧
  currentStreak (record_guess u st) = currentStreak st ∧
  bestStreak (record_guess u st) = bestStreak st.
Proof. unfold record_guess. simpl. by intros ->. Qed.

Lemma record_guess_wrong (u : jsstring) (st : GameState) :
  includes (targetWord st) u = false →
  troops (record_guess u st) = (troops st - 1)%Z ∧
  currentStreak (record_guess u st) = 0%Z.
Proof.
  unfold record_guess. simpl. intros ->.
  set (st3 := set_currentStreak _ _).
  by destruct (renderStreak_round st3) as (-> & _ & _ & _ & _ & -> & _).
Qed.

Section OneGuess.
Context `{Platform}.

Lemma guessLetter_inactive (letter : jsstring) (st : GameState) :
  isGameActive st = false → guessLetter letter st = st.
Proof. unfold guessLetter. by intros ->. Qed.

Lemma guessLetter_repeated (letter : jsstring) (st : GameState) :
  toUpperCase letter ∈ guessedLetters st → guessLetter letter st = st.
Proof.
  intros Hin. unfold guessLetter. destruct (isGameActive st); simpl; [|done].
  by rewrite bool_decide_eq_true_2.
Qed.

Lemma guessLetter_fresh (letter : jsstring) (st : GameState) :
  isGameActive st = true → toUpperCase letter ∉ guessedLetters st →
  guessLetter letter st = checkGameStatus (record_guess (toUpperCase letter) st).
Proof.
  intros Hact Hin. unfold guessLetter. rewrite Hact. simpl.
  by rewrite bool_decide_eq_false_2.
Qed.

(** After a guess the round is over or the letter is among the guessed ones. *)
Lemma guessLetter_recorded (letter : jsstring) (st : GameState) :
  isGameActive (guessLetter letter st) = false ∨
  toUpperCase letter ∈ guessedLetters (guessLetter letter st).
Proof.
  destruct (isGameActive st) eqn:Hact.
  2: { left. by rewrite guessLetter_inactive. }
  destruct (decide (toUpperCase letter ∈ guessedLetters st)) as [Hin|Hin].
  { right. by rewrite guessLetter_repeated. }
  right. rewrite guessLetter_fresh by done.
  destruct (checkGameStatus_round (record_guess (toUpperCase letter) st)) as (_ & -> & _).
  destruct (record_guess_frame (toUpperCase letter) st) as (-> & _).
  set_solver.
Qed.

Lemma guessLetter_troops (letter : jsstring) (st : GameState) :
  (troops st - 1 ≤ troops (guessLetter letter st) ≤ troops st)%Z.
Proof.
  destruct (isGameActive st) eqn:Hact.
  2: { rewrite guessLetter_inactive by done. lia. }
  destruct (decide (toUpperCase letter ∈ guessedLetters st)) as [Hin|Hin].
  { rewrite guessLetter_repeated by done. lia. }
  rewrite guessLetter_fresh by done.
  destruct (checkGameStatus_round (record_guess (toUpperCase letter) st)) as (-> & _).
  destruct (includes (targetWord st) (toUpperCase letter)) eqn:Hinc.
  - destruct (record_guess_right _ _ Hinc) as (-> & _). lia.
  - destruct (record_guess_wrong _ _ Hinc) as (-> & _). lia.
Qed.

End OneGuess.





Section Rounds.
Context `{Platform}.


Lemma guesses_inactive (letters : list jsstring) (st : GameState) :
  isGameActive st = false → guesses st letters = st.
Proof.
  intros Hact. induction letters as [|l ls IH]; [done|].
  unfold guesses in *. simpl. by rewrite guessLetter_inactive.
Qed.

Lemma guesses_cons (letter : jsstring) (letters : list jsstring) (st : GameState) :
  guesses st (letter :: letters) = guesses (guessLetter letter st) letters.
Proof. done. Qed.



End Rounds.

(** ** Guesses *)

(** C9: [guessLetter] is a no-op when the round is inactive or the
    upper-cased letter is already among the guessed letters: the whole game
    state, and so the guessed letters, the troops, both streaks and the
    activity of the round, is returned as it was.  Hence a guess made twice
    in a row has the effect of making it once. *)
Theorem guessLetter_noop `{Platform} (letter : jsstring) (st : GameState) :
  (isGameActive st = false ∨ toUpperCase letter ∈ guessedLetters st →
   guessLetter letter st = st) ∧
  guessLetter letter (guessLetter letter st) = guessLetter letter st.
Proof.
  split.
  - intros [Hact|Hin]; [by apply guessLetter_inactive|by apply guessLetter_repeated].
  - destruct (guessLetter_recorded letter st) as [Hact|Hin];
      [by apply guessLetter_inactive|by apply guessLetter_repeated].
Qed.

Lemma guessLetter_noop_witness :
  let st := @guessLetter latin1 (lit "p") peru_round in
  (@toUpperCase latin1 (lit "p")) ∈ guessedLetters st ∧
  @guessLetter latin1 (lit "p") st = st.
Proof.
  assert (@toUpperCase latin1 (lit "p")
          ∈ guessedLetters (@guessLetter latin1 (lit "p") peru_round)) as Hin.
  { apply (bool_decide_unpack _). vm_compute. exact I. }
  split; [exact Hin|].
  apply (proj1 (@guessLetter_noop latin1 (lit "p") _)). right. exact Hin.
Defined.

(** The test of the specification: the four letters of PERU in any order
    draw no signal at the first three and the win signal at the fourth. *)
Example peru_any_order :
  Forall (λ order,
    signals (@guesses latin1 peru_round (take 3 order)) = [] ∧
    signals (@guesses latin1 peru_round order) = [CountryDominated (lit "Peru") 1])
    (permutations [lit "P"; lit "E"; lit "R"; lit "U"]).
Proof. apply (bool_decide_unpack _). vm_compute. exact I. Qed.

(** The other test of the specification: three wrong letters lose the round,
    with the streak at 0 and one signal. *)
Example peru_three_wrong :
  let st := @guesses latin1 peru_round [lit "X"; lit "Y"; lit "Z"] in
  signals st = [TroopsDepleted (lit "Peru")] ∧ troops st = 0%Z ∧
  currentStreak st = 0%Z ∧ isGameActive st = false.
Proof. by vm_compute. Qed.

(** C2 as it holds: in an active round, for a letter not guessed before, a
    letter that is not in the word costs exactly one troop and sets the streak
    to 0 before the outcome is looked at; a letter that is in the word costs
    nothing and leaves the streak as it is at that point.  [checkGameStatus]
    then runs in the same call and never touches the troops, but when the word
    is complete it adds 1 to the streak: a guess that completes the word
    returns with the streak one higher.  A letter that is not in the word
    completes nothing, so after it the streak is 0 unless the word was
    complete before. *)
Theorem guessLetter_troops_and_streak `{Platform} (letter : jsstring) (st : GameState) :
  isGameActive st = true → toUpperCase letter ∉ guessedLetters st →
  let u := toUpperCase letter in
  let st' := guessLetter letter st in
  let complete := word_complete (targetWord st) ({[u]} ∪ guessedLetters st) in
  st' = checkGameStatus (record_guess u st) ∧
  (includes (targetWord st) u = false →
     troops (record_guess u st) = (troops st - 1)%Z ∧
     currentStreak (record_guess u st) = 0%Z ∧
     troops st' = (troops st - 1)%Z ∧
     (complete ↔ word_complete (targetWord st) (guessedLetters st)) ∧
     (¬ complete → currentStreak st' = 0%Z) ∧
     (complete → currentStreak st' = 1%Z)) ∧
  (includes (targetWord st) u = true →
     troops (record_guess u st) = troops st ∧
     currentStreak (record_guess u st) = currentStreak st ∧
     troops st' = troops st ∧
     (¬ complete → currentStreak st' = currentStreak st) ∧
     (complete → currentStreak st' = (currentStreak st + 1)%Z)).
Proof.
  intros Hact Hin u st' complete.
  assert (st' = checkGameStatus (record_guess u st)) as Hst'
    by by apply guessLetter_fresh.
  split; [done|].
  destruct (record_guess_frame u st) as (Hg & Hw & Ha & _).
  destruct (checkGameStatus_round (record_guess u st)) as (Ht & _).
  pose proof (checkGameStatus_currentStreak (record_guess u st)) as Hs.
  rewrite Ha, Hact in Hs. simpl in Hs. rewrite <- Hst' in Ht, Hs.
  pose proof (correctlyGuessed_spec (record_guess u st)) as Hyes.
  pose proof (correctlyGuessed_false (record_guess u st)) as Hno.
  rewrite Hg, Hw in Hyes, Hno. fold complete in Hyes, Hno.
  split; intros Hinc.
  - destruct (record_guess_wrong u st Hinc) as [Htr Hcs].
    rewrite Ht, Htr. do 3 (split; [done|]). split; [|split].
    + by apply word_complete_wrong_letter.
    + intros Hc%Hno. by rewrite Hs, Hc.
    + intros Hc%Hyes. by rewrite Hs, Hc, Hcs.
  - destruct (record_guess_right u st Hinc) as (Htr & Hcs & _).
    rewrite Ht, Htr. do 3 (split; [done|]). split.
    + intros Hc%Hno. by rewrite Hs, Hc.
    + intros Hc%Hyes. by rewrite Hs, Hc, Hcs.
Qed.

Lemma guessLetter_troops_and_streak_witness :
  let st := peru_round in
  isGameActive st = true ∧ (@toUpperCase latin1 (lit "x") ∉ guessedLetters st) ∧
  @guessLetter latin1 (lit "x") st
  = checkGameStatus (record_guess (@toUpperCase latin1 (lit "x")) st).
Proof.
  assert (@toUpperCase latin1 (lit "x") ∉ guessedLetters peru_round) as Hin.
  { apply (bool_decide_unpack _). vm_compute. exact I. }
  split; [reflexivity|]. split; [exact Hin|].
  exact (proj1 (@guessLetter_troops_and_streak latin1 (lit "x") peru_round eq_refl Hin)).
Defined.

(** C2 fails as stated: with P, E and R guessed, U is in PERU and yet the
    call of [guessLetter] that guesses it changes the streak, from 0 to 1. *)
Lemma winning_guess_raises_streak :
  let st := @guesses latin1 peru_round [lit "P"; lit "E"; lit "R"] in
  isGameActive st = true ∧
  (@toUpperCase latin1 (lit "U") ∉ guessedLetters st) ∧
  includes (targetWord st) (@toUpperCase latin1 (lit "U")) = true ∧
  currentStreak st = 0%Z ∧
  currentStreak (@guessLetter latin1 (lit "U") st) = 1%Z.
Proof.
  split; [reflexivity|]. split.
  { apply (bool_decide_unpack _). vm_compute. exact I. }
  repeat split; reflexivity.
Qed.

(** ** The cleaned word *)

(** C5 as it holds: [cleanWord] is a function of the raw name (and of the
    tables of the platform) that applies, in this order: upper-casing; removal
    of each segment that runs from an opening parenthesis to the nearest
    closing one on the same line, with the white space on either side of it;
    canonical decomposition and removal of the combining marks; removal of
    every character that is neither an upper-case Latin letter nor white
    space; trimming.  White space is the class [\s], so a tab or a line feed
    inside the name is kept; for a name whose only white space, once
    decomposed, is the space U+0020, the fourth step keeps the letters and the
    spaces and nothing else.  Trimming leaves the one string that is the
    result of the fourth step less white space at its two ends and that
    neither begins nor ends with white space.  On a platform that upper-cases
    and decomposes the sample name as Unicode does, the result for it is
    COTE DIVOIRE. *)
Theorem cleanWord_normalize `{Platform} :
  (∀ rawName, trimmed_of (normalize_letters rawName) (cleanWord rawName)) ∧
  (∀ rawName t, trimmed_of (normalize_letters rawName) t → t = cleanWord rawName) ∧
  (∀ rawName,
     plain_spaces (normalizeNFD (replace_all re_parenthesized (toUpperCase rawName))) →
     normalize_letters rawName = normalize_letters_plain rawName ∧
     trimmed_of (normalize_letters_plain rawName) (cleanWord rawName)) ∧
  (toUpperCase cote_divoire = lit "C" ++ [212%N] ++ lit "TE D'IVOIRE (DISPUTED)" →
   normalizeNFD (lit "C" ++ [212%N] ++ lit "TE D'IVOIRE")
   = lit "CO" ++ [770%N] ++ lit "TE D'IVOIRE" →
   cleanWord cote_divoire = lit "COTE DIVOIRE").
Proof.
  assert (∀ rawName, trimmed_of (normalize_letters rawName) (cleanWord rawName)) as Htrim.
  { intros rawName. rewrite cleanWord_spec. apply trim_trimmed_of. }
  split; [exact Htrim|]. split; [|split].
  - intros rawName t Ht. rewrite cleanWord_spec. by apply trimmed_of_trim.
  - intros rawName Hplain.
    assert (normalize_letters rawName = normalize_letters_plain rawName) as Heq.
    { unfold normalize_letters, normalize_letters_plain.
      rewrite <- replace_all_parenthesized.
      apply List.filter_ext_in. intros c [Hc _]%List.filter_In. f_equal.
      destruct (is_white_space c) eqn:Hws.
      - rewrite (Hplain c); [done|by apply list_elem_of_In|done].
      - destruct (N.eqb_spec c 32) as [->|]; [by vm_compute in Hws|done]. }
    split; [exact Heq|]. rewrite <- Heq. apply Htrim.
  - intros Hupper Hnfd. unfold cleanWord. rewrite Hupper.
    assert (replace_all re_parenthesized (lit "C" ++ [212%N] ++ lit "TE D'IVOIRE (DISPUTED)")
            = lit "C" ++ [212%N] ++ lit "TE D'IVOIRE") as -> by by vm_compute.
    rewrite Hnfd. by vm_compute.
Qed.

Lemma cleanWord_normalize_witness :
  trimmed_of (@normalize_letters latin1 cote_divoire_padded) (lit "COTE DIVOIRE") ∧
  lit "COTE DIVOIRE" = @cleanWord latin1 cote_divoire_padded ∧
  @cleanWord latin1 cote_divoire = lit "COTE DIVOIRE".
Proof.
  assert (trimmed_of (@normalize_letters latin1 cote_divoire_padded) (lit "COTE DIVOIRE"))
    as Htrimmed.
  { split; [|split].
    - exists (lit "  "), (lit " "). split; [reflexivity|].
      split; repeat constructor.
    - intros c [= <-]. reflexivity.
    - intros c [= <-]. reflexivity. }
  split; [exact Htrimmed|]. split.
  - apply (proj1 (proj2 (@cleanWord_normalize latin1)) cote_divoire_padded _ Htrimmed).
  - apply (proj2 (proj2 (proj2 (@cleanWord_normalize latin1)))); reflexivity.
Defined.

(** C5 fails as stated: a tab is neither an upper-case Latin letter nor a
    space, and [cleanWord] keeps it, where the fourth step read to the letter
    removes it. *)
Lemma cleanWord_keeps_tab :
  @cleanWord latin1 a_tab_b = a_tab_b ∧
  9%N ∈ @cleanWord latin1 a_tab_b ∧
  is_upper_latin 9 = false ∧ (9 =? 32)%N = false ∧
  @normalize_spec_plain latin1 a_tab_b = lit "AB".
Proof.
  split; [reflexivity|]. split; [|by vm_compute].
  change (@cleanWord latin1 a_tab_b) with a_tab_b. apply (bool_decide_unpack _). by vm_compute.
Qed.

(** C6 as it holds: the word made of a raw name has only upper-case Latin
    letters and white-space characters, and it begins and ends with a letter;
    the white space inside the name is kept as it is, runs included.  The word
    of a round is the cleaned name of an undominated country of the list. *)
Theorem cleanWord_letters_and_white_space `{Platform} :
  (∀ rawName,
     let w := cleanWord rawName in
     Forall (λ c, is_upper_latin c = true ∨ is_white_space c = true) w ∧
     (∀ c, head w = Some c → is_upper_latin c = true) ∧
     (∀ c, last w = Some c → is_upper_latin c = true)) ∧
  (∀ pick st,
     newRound pick st = handleContinentWin st ∨
     ∃ country, country ∈ countries st ∧ isDominated country = false ∧
       currentCountry (newRound pick st) = Some country ∧
       targetWord (newRound pick st) = cleanWord (name country)).
Proof.
  split.
  - intros rawName w. split; [|split].
    + apply Forall_forall. apply cleanWord_elem.
    + apply cleanWord_head.
    + apply cleanWord_last.
  - intros pick st. unfold newRound.
    destruct (List.filter _ (countries st)) as [|c0 rest] eqn:Hav; [by left|].
    right. set (i := pick `mod` length (c0 :: rest)).
    set (country := nth i (c0 :: rest) c0). exists country.
    assert (In country (List.filter (λ c, negb (isDominated c)) (countries st))) as Hin.
    { rewrite Hav. subst country i. apply nth_In, Nat.mod_upper_bound. simpl. lia. }
    apply List.filter_In in Hin as [Hin Hdom].
    split; [by apply list_elem_of_In|]. split; [by apply negb_true_iff|].
    set (st5 := set_isGameActive _ _).
    by destruct (renderStreak_round st5) as (_ & _ & _ & -> & -> & _).
Qed.

Lemma cleanWord_letters_and_white_space_witness :
  head (@cleanWord latin1 (lit "Peru")) = Some 80%N ∧ is_upper_latin 80 = true.
Proof.
  split; [reflexivity|].
  apply (proj1 (proj2 (proj1 (@cleanWord_letters_and_white_space latin1) (lit "Peru")))).
  reflexivity.
Defined.

(** C6 fails as stated: a name with a character between two spaces keeps
    both spaces. *)
Lemma cleanWord_keeps_double_space :
  @cleanWord latin1 (lit "Antigua & Barbuda") = lit "ANTIGUA  BARBUDA" ∧
  ¬ single_spaced (@cleanWord latin1 (lit "Antigua & Barbuda")).
Proof.
  split; [reflexivity|].
  intros (_ & _ & _ & Hrun). apply Hrun. by exists 7.
Qed.

(** ** Start-up, reset and the loops over [CONTINENTS] *)

Lemma foldl_project {A B} (g : GameState → B) (f : GameState → A → GameState)
    (l : list A) (st : GameState) :
  (∀ st a, g (f st a) = g st) → g (foldl f st l) = g st.
Proof.
  intros Hf. revert st. induction l as [|a l IH]; intros st; simpl; [done|].
  by rewrite IH, Hf.
Qed.

Lemma game_fields_eq (st st' : GameState) :
  game_fields st' = game_fields st →
  currentStreak st' = currentStreak st ∧ bestStreak st' = bestStreak st ∧
  troops st' = troops st ∧ isGameActive st' = isGameActive st ∧
  localStorage st' = localStorage st ∧ saveCalls st' = saveCalls st ∧
  countries st' = countries st ∧ dominated st' = dominated st ∧
  signals st' = signals st ∧ modal st' = modal st.
Proof. unfold game_fields. intros [= ]. by repeat split. Qed.

Lemma load_continent_status_fields (status : gmap string StoredStatus)
    (st : GameState) (c : string) :
  game_fields (load_continent_status status st c) = game_fields st.
Proof.
  unfold load_continent_status.
  destruct (status !! c) as [[s|s names]|]; [case_bool_decide| |]; done.
Qed.

Lemma initialize_continent_fields (st : GameState) (c : string) :
  game_fields (initialize_continent st c) = game_fields st.
Proof.
  unfold initialize_continent.
  destruct (continentStatus st !! c) as [[s|s l]|]; [|done..].
  by destruct (_ || _).
Qed.

Lemma loadGameStateFromStorage_fields (st : GameState) :
  game_fields (loadGameStateFromStorage st)
  = game_fields (set_bestStreak
                   (default (bestStreak st) (stored_best_streak (localStorage st))) st).
Proof.
  unfold loadGameStateFromStorage.
  set (st1 := match stored_best_streak (localStorage st) with
              | Some z => set_bestStreak z st | None => st end).
  assert (game_fields st1
          = game_fields (set_bestStreak
              (default (bestStreak st) (stored_best_streak (localStorage st))) st)) as <-.
  { subst st1. by destruct (stored_best_streak (localStorage st)). }
  destruct (stored_continent_status (localStorage st1)) as [status|]; [|done].
  apply foldl_project. apply load_continent_status_fields.
Qed.

Lemma showView_fields (viewId : View) (st : GameState) :
  game_fields (showView viewId st) = game_fields st.
Proof. done. Qed.

Lemma initializeAppUI_fields (st : GameState) :
  game_fields (initializeAppUI st)
  = game_fields (set_bestStreak
                   (default (bestStreak st) (stored_best_streak (localStorage st))) st).
Proof.
  unfold initializeAppUI. rewrite showView_fields.
  rewrite (foldl_project game_fields initialize_continent CONTINENTS
             (loadGameStateFromStorage st) initialize_continent_fields).
  apply loadGameStateFromStorage_fields.
Qed.

Lemma initializeAppUI_frame (st : GameState) :
  currentStreak (initializeAppUI st) = currentStreak st ∧
  bestStreak (initializeAppUI st)
  = default (bestStreak st) (stored_best_streak (localStorage st)) ∧
  troops (initializeAppUI st) = troops st ∧
  isGameActive (initializeAppUI st) = isGameActive st ∧
  localStorage (initializeAppUI st) = localStorage st ∧
  saveCalls (initializeAppUI st) = saveCalls st ∧
  countries (initializeAppUI st) = countries st ∧
  dominated (initializeAppUI st) = dominated st ∧
  signals (initializeAppUI st) = signals st ∧
  modal (initializeAppUI st) = modal st.
Proof.
  pose proof (initializeAppUI_fields st) as Hf.
  apply game_fields_eq in Hf. exact Hf.
Qed.

(** The loop of the reset: the five continents are available again, the other
    entries are as before. *)
Lemma reset_loop_fields (l : list string) (st : GameState) :
  game_fields
    (foldl (λ st c, set_continentStatus
                      (<[c := StatusString "available"]> (continentStatus st)) st) st l)
  = game_fields st.
Proof. by apply foldl_project. Qed.

Lemma reset_loop_status (l : list string) (st : GameState) (c : string) :
  continentStatus
    (foldl (λ st c, set_continentStatus
                      (<[c := StatusString "available"]> (continentStatus st)) st) st l)
  !! c
  = if bool_decide (c ∈ l) then Some (StatusString "available")
    else continentStatus st !! c.
Proof.
  revert st. induction l as [|a l IH]; intros st; simpl; [done|].
  rewrite IH. simpl. destruct (decide (c = a)) as [->|Hne].
  - rewrite lookup_insert_eq, (bool_decide_eq_true_2 (a ∈ a :: l)) by apply list_elem_of_here.
    by case_bool_decide.
  - rewrite lookup_insert_ne by done.
    case_bool_decide as Hin.
    + by rewrite bool_decide_eq_true_2 by by apply list_elem_of_further.
    + rewrite bool_decide_eq_false_2; [done|].
      intros [?|?]%elem_of_cons; congruence.
Qed.

Lemma reset_loop_arrays (l : list string) (st : GameState) :
  arrays
    (foldl (λ st c, set_continentStatus
                      (<[c := StatusString "available"]> (continentStatus st)) st) st l)
  = arrays st.
Proof. by apply foldl_project. Qed.

(** Reading back, and initialising, continents that are stored and held as
    available changes no status. *)
Lemma load_loop_available (status : gmap string StoredStatus) (l : list string)
    (st : GameState) :
  (∀ a, a ∈ l → status !! a = Some (StoredString "available") ∧
                continentStatus st !! a = Some (StatusString "available")) →
  continentStatus (foldl (load_continent_status status) st l) = continentStatus st.
Proof.
  revert st. induction l as [|a l IH]; intros st Hl; simpl; [done|].
  assert (continentStatus (load_continent_status status st a) = continentStatus st) as Ha.
  { destruct (Hl a) as [Hs Hc]; [apply list_elem_of_here|].
    unfold load_continent_status. rewrite Hs. simpl. by apply insert_id. }
  rewrite IH, Ha; [done|].
  intros b Hb. rewrite Ha. by apply Hl, list_elem_of_further.
Qed.

Lemma initialize_loop_available (l : list string) (st : GameState) :
  (∀ a, a ∈ l → continentStatus st !! a = Some (StatusString "available")) →
  continentStatus (foldl initialize_continent st l) = continentStatus st.
Proof.
  revert st. induction l as [|a l IH]; intros st Hl; simpl; [done|].
  assert (continentStatus (initialize_continent st a) = continentStatus st) as Ha.
  { unfold initialize_continent. rewrite (Hl a) by apply list_elem_of_here.
    simpl. by apply insert_id, Hl, list_elem_of_here. }
  rewrite IH, Ha; [done|].
  intros b Hb. rewrite Ha. by apply Hl, list_elem_of_further.
Qed.

(** ** The best streak as a string *)

Lemma plain_limit_value : plain_limit = 1000000000000000000000%Z.
Proof. reflexivity. Qed.

Lemma leading_digit_range (fuel : nat) (x p : Z) :
  (1 ≤ x < 10 ^ Z.of_nat fuel)%Z → (1 ≤ (leading_digit fuel x p).1 ≤ 9)%Z.
Proof.
  revert x p. induction fuel as [|fuel IH]; intros x p Hx.
  - change (10 ^ Z.of_nat 0)%Z with 1%Z in Hx. lia.
  - cbn [leading_digit]. destruct (Z.ltb_spec x 10) as [Hlt|Hge]; [simpl; lia|].
    apply IH. rewrite Nat2Z.inj_succ, Z.pow_succ_r in Hx by lia.
    split; [apply Z.div_le_lower_bound; lia|apply Z.div_lt_upper_bound; lia].
Qed.

Lemma exponent_digit_range (x : Z) : (1 ≤ x)%Z → (1 ≤ exponent_digit x ≤ 9)%Z.
Proof.
  intros Hx. unfold exponent_digit.
  pose proof (leading_digit_range (S (Z.to_nat (Z.log2 x))) x 1) as Hd.
  destruct (leading_digit (S (Z.to_nat (Z.log2 x))) x 1) as [d p]. simpl in Hd.
  assert (x < 10 ^ Z.of_nat (S (Z.to_nat (Z.log2 x))))%Z as Hfuel.
  { rewrite Nat2Z.inj_succ, Z2Nat.id by apply Z.log2_nonneg.
    destruct (Z.log2_spec x) as [_ Hlt]; [lia|].
    eapply Z.lt_le_trans; [exact Hlt|].
    apply Z.pow_le_mono_l. lia. }
  specialize (Hd (conj Hx Hfuel)).
  destruct (to_number ((d + 1) * p) =? x)%Z; [|lia].
  destruct (Z.eqb_spec d 9); lia.
Qed.

(** 10^21 is written [1e+21], the Number nearest to 10^23 is written
    [1e+23] although its own digits begin with a 9, and 2 * 10^22 and
    123456789012345685803008 are written [2e+22] and
    [1.2345678901234569e+23]; the Number just below 10^21, which is
    10^21 - 131072, comes back as it is. *)
Example parseInt_toString_samples :
  parseInt_toString (10 ^ 21) = 1%Z ∧
  to_number (10 ^ 23) = 99999999999999991611392%Z ∧
  parseInt_toString 99999999999999991611392 = 1%Z ∧
  parseInt_toString (2 * 10 ^ 22) = 2%Z ∧
  parseInt_toString 123456789012345685803008 = 1%Z ∧
  parseInt_toString (- 7 * 10 ^ 22) = (-7)%Z ∧
  parseInt_toString (10 ^ 21 - 131072) = (10 ^ 21 - 131072)%Z ∧
  parseInt_toString 5 = 5%Z.
Proof. by vm_compute. Qed.

Lemma parseInt_toString_plain (n : Z) :
  (Z.abs n < plain_limit)%Z → parseInt_toString n = n.
Proof.
  intros Hn. unfold parseInt_toString.
  by destruct (Z.ltb_spec (Z.abs n) plain_limit); [|lia].
Qed.

(** In exponent notation only the first digit and the sign are read back. *)
Lemma parseInt_toString_exponent (n : Z) :
  (plain_limit ≤ Z.abs n)%Z →
  parseInt_toString n = (Z.sgn n * exponent_digit (Z.abs n))%Z ∧
  (1 ≤ Z.abs (parseInt_toString n) ≤ 9)%Z ∧
  Z.sgn (parseInt_toString n) = Z.sgn n.
Proof.
  intros Hn. unfold parseInt_toString. rewrite plain_limit_value in *.
  destruct (Z.ltb_spec (Z.abs n) 1000000000000000000000); [lia|].
  pose proof (exponent_digit_range (Z.abs n)) as Hd.
  split; [done|]. destruct (Z.sgn_spec n) as [[? ->]|[[? ->]|[? ->]]]; lia.
Qed.

Lemma parseInt_toString_bound (n : Z) : (Z.abs (parseInt_toString n) < plain_limit)%Z.
Proof.
  destruct (Z.lt_ge_cases (Z.abs n) plain_limit) as [Hlt|Hge].
  - by rewrite parseInt_toString_plain.
  - destruct (parseInt_toString_exponent n Hge) as (_ & Hd & _).
    rewrite plain_limit_value. lia.
Qed.

Lemma parseInt_toString_idemp (n : Z) :
  parseInt_toString (parseInt_toString n) = parseInt_toString n.
Proof. apply parseInt_toString_plain, parseInt_toString_bound. Qed.

(** Below the limit nothing is lost by the round trip, and a value far below
    zero comes back higher. *)
Lemma parseInt_toString_le (n : Z) :
  (n < plain_limit)%Z → (n ≤ parseInt_toString n)%Z.
Proof.
  intros Hn. destruct (Z.lt_ge_cases (Z.abs n) plain_limit) as [Hlt|Hge].
  - by rewrite parseInt_toString_plain.
  - destruct (parseInt_toString_exponent n Hge) as (_ & Hd & Hs).
    rewrite plain_limit_value in *. lia.
Qed.

Lemma parseInt_toString_max (n : Z) :
  (Z.max 0 (parseInt_toString n) ≤ Z.max 0 n)%Z.
Proof.
  destruct (Z.lt_ge_cases (Z.abs n) plain_limit) as [Hlt|Hge].
  - by rewrite parseInt_toString_plain.
  - destruct (parseInt_toString_exponent n Hge) as (_ & Hd & Hs).
    rewrite plain_limit_value in *.
    destruct (Z.sgn_spec n) as [[? Hn]|[[? Hn]|[? Hn]]]; rewrite Hn in Hs;
      destruct (Z.sgn_spec (parseInt_toString n)) as [[? Hp]|[[? Hp]|[? Hp]]]; lia.
Qed.

Lemma saveGameStateToStorage_fields (st : GameState) :
  localStorage (saveGameStateToStorage st)
  = {| stored_best_streak := Some (parseInt_toString (bestStreak st));
       stored_continent_status :=
         Some (stringify_status (arrays st) <$> continentStatus st) |} ∧
  saveCalls (saveGameStateToStorage st) = S (saveCalls st) ∧
  bestStreak (saveGameStateToStorage st) = bestStreak st ∧
  continentStatus (saveGameStateToStorage st) = continentStatus st ∧
  arrays (saveGameStateToStorage st) = arrays st ∧
  currentStreak (saveGameStateToStorage st) = currentStreak st ∧
  troops (saveGameStateToStorage st) = troops st ∧
  isGameActive (saveGameStateToStorage st) = isGameActive st ∧
  countries (saveGameStateToStorage st) = countries st ∧
  dominated (saveGameStateToStorage st) = dominated st ∧
  signals (saveGameStateToStorage st) = signals st ∧
  modal (saveGameStateToStorage st) = modal st.
Proof. done. Qed.

Lemma initializeAppUI_available (st : GameState) (status : gmap string StoredStatus) :
  stored_continent_status (localStorage st) = Some status →
  (∀ a, a ∈ CONTINENTS → status !! a = Some (StoredString "available") ∧
                         continentStatus st !! a = Some (StatusString "available")) →
  continentStatus (initializeAppUI st) = continentStatus st.
Proof.
  intros Hstored Hall.
  assert (continentStatus (loadGameStateFromStorage st) = continentStatus st) as Hload.
  { unfold loadGameStateFromStorage.
    set (st1 := match stored_best_streak (localStorage st) with
                | Some z => set_bestStreak z st | None => st end).
    assert (localStorage st1 = localStorage st ∧ continentStatus st1 = continentStatus st)
      as [Hls Hcs] by (subst st1; by destruct (stored_best_streak (localStorage st))).
    rewrite Hls, Hstored, load_loop_available; [done|].
    intros a Ha. rewrite Hcs. by apply Hall. }
  unfold initializeAppUI, showView.
  change (continentStatus (set_currentView ?v ?x)) with (continentStatus x).
  rewrite initialize_loop_available; [done|].
  intros a Ha. rewrite Hload. by apply Hall.
Qed.

(** What the reset of the global victory does. *)
Lemma global_reset_spec (st : GameState) :
  (∀ c, continentStatus (global_reset st) !! c
        = if bool_decide (c ∈ CONTINENTS) then Some (StatusString "available")
          else continentStatus st !! c) ∧
  localStorage (global_reset st)
  = {| stored_best_streak := Some (parseInt_toString (bestStreak st));
       stored_continent_status :=
         Some (stringify_status (arrays st) <$> continentStatus (global_reset st)) |} ∧
  saveCalls (global_reset st) = S (saveCalls st) ∧
  bestStreak (global_reset st) = parseInt_toString (bestStreak st) ∧
  currentStreak (global_reset st) = currentStreak st ∧
  troops (global_reset st) = troops st ∧
  isGameActive (global_reset st) = isGameActive st ∧
  countries (global_reset st) = countries st ∧
  dominated (global_reset st) = dominated st ∧
  signals (global_reset st) = signals st ∧
  modal (global_reset st) = modal st.
Proof.
  unfold global_reset.
  pose proof (reset_loop_fields CONTINENTS st) as Hf1.
  pose proof (reset_loop_status CONTINENTS st) as Hs1.
  pose proof (reset_loop_arrays CONTINENTS st) as Ha1.
  revert Hf1 Hs1 Ha1. generalize (foldl (λ st c, set_continentStatus
    (<[c := StatusString "available"]> (continentStatus st)) st) st CONTINENTS).
  intros st1 Hf1 Hs1 Ha1.
  apply game_fields_eq in Hf1 as (Hcs & Hbs & Htr & Hact & Hls & Hsc & Hco & Hdo & Hsi & Hmo).
  destruct (saveGameStateToStorage_fields st1)
    as (Hls2 & Hsc2 & Hbs2 & Hst2 & Har2 & Hcs2 & Htr2 & Hact2 & Hco2 & Hdo2 & Hsi2 & Hmo2).
  revert Hls2 Hsc2 Hbs2 Hst2 Har2 Hcs2 Htr2 Hact2 Hco2 Hdo2 Hsi2 Hmo2.
  generalize (saveGameStateToStorage st1).
  intros st2 Hls2 Hsc2 Hbs2 Hst2 Har2 Hcs2 Htr2 Hact2 Hco2 Hdo2 Hsi2 Hmo2.
  assert (continentStatus (initializeAppUI st2) = continentStatus st1) as Hstatus.
  { rewrite <- Hst2.
    apply (initializeAppUI_available st2
             (stringify_status (arrays st1) <$> continentStatus st1)).
    - by rewrite Hls2.
    - intros a Ha. by rewrite lookup_fmap, Hst2, Hs1, bool_decide_eq_true_2. }
  destruct (initializeAppUI_frame st2)
    as (Hcs3 & Hbs3 & Htr3 & Hact3 & Hls3 & Hsc3 & Hco3 & Hdo3 & Hsi3 & Hmo3).
  rewrite Hls2 in Hbs3. cbn [stored_best_streak default] in Hbs3.
  revert Hstatus Hcs3 Hbs3 Htr3 Hact3 Hls3 Hsc3 Hco3 Hdo3 Hsi3 Hmo3.
  generalize (initializeAppUI st2).
  intros st3 Hstatus Hcs3 Hbs3 Htr3 Hact3 Hls3 Hsc3 Hco3 Hdo3 Hsi3 Hmo3.
  unfold showView. simpl.
  rewrite Hstatus, Hls3, Hsc3, Hbs3, Hcs3, Htr3, Hact3, Hco3, Hdo3, Hsi3, Hmo3.
  rewrite Hls2, Hsc2, Hcs2, Htr2, Hact2, Hco2, Hdo2, Hsi2, Hmo2.
  rewrite Ha1, Hbs, Hsc, Hcs, Htr, Hact, Hco, Hdo, Hsi, Hmo.
  split; [exact Hs1|]. by repeat split.
Qed.

(** ** Continent completion *)

Lemma handleContinentWin_spec (st : GameState) :
  let all := forallb (λ c, bool_decide
               (<[currentContinent st := StatusString "dominated"]> (continentStatus st) !! c
                = Some (StatusString "dominated"))) CONTINENTS in
  let sig := if all then GlobalVictory else ContinentConquered (currentContinent st) in
  let action := if all then ActGlobalReset else ActContinentSelect in
  continentStatus (handleContinentWin st)
  = <[currentContinent st := StatusString "dominated"]> (continentStatus st) ∧
  localStorage (handleContinentWin st)
  = {| stored_best_streak := Some (parseInt_toString (bestStreak st));
       stored_continent_status :=
         Some (stringify_status (arrays st) <$> continentStatus (handleContinentWin st)) |} ∧
  saveCalls (handleContinentWin st) = S (saveCalls st) ∧
  signals (handleContinentWin st) = sig :: signals st ∧
  modal (handleContinentWin st) = Some {| modalSignal := sig; modalAction := action |} ∧
  bestStreak (handleContinentWin st) = bestStreak st ∧
  currentStreak (handleContinentWin st) = currentStreak st ∧
  troops (handleContinentWin st) = troops st ∧
  isGameActive (handleContinentWin st) = isGameActive st ∧
  countries (handleContinentWin st) = countries st ∧
  dominated (handleContinentWin st) = dominated st ∧
  arrays (handleContinentWin st) = arrays st.
Proof.
  intros all sig action. subst sig action. unfold handleContinentWin.
  change (continentStatus (saveGameStateToStorage ?x)) with (continentStatus x).
  change (continentStatus (set_continentStatus ?v ?x)) with v.
  fold all. clearbody all. by destruct all.
Qed.




(** ** Leaving a round *)

(** C10: the button back to the map ends the round and sets the current
    streak to 0, whatever it was and whether or not a wrong letter was
    guessed; the best streak, the continent statuses, the storage and the list
    of countries are untouched, and every later guess is a no-op. *)
Theorem backToMap_resets_streak `{Platform} (st : GameState) :
  let st' := step st ClickBackToMap in
  isGameActive st' = false ∧
  currentStreak st' = 0%Z ∧
  currentView st' = ViewContinentSelect ∧
  bestStreak st' = bestStreak st ∧
  continentStatus st' = continentStatus st ∧
  localStorage st' = localStorage st ∧
  saveCalls st' = saveCalls st ∧
  countries st' = countries st ∧
  dominated st' = dominated st ∧
  arrays st' = arrays st ∧
  (∀ letter, guessLetter letter st' = st') ∧
  (∀ letters, guesses st' letters = st').
Proof.
  simpl. do 10 (split; [done|]). split.
  - intros letter. by apply guessLetter_inactive.
  - intros letters. by apply guesses_inactive.
Qed.

(** ** The troops *)

Lemma troops_ok_frame (st st' : GameState) :
  troops st' = troops st → isGameActive st' = isGameActive st →
  troops_ok st → troops_ok st'.
Proof. unfold troops_ok. by intros -> ->. Qed.

Lemma troops_ok_inactive (st st' : GameState) :
  troops st' = troops st → isGameActive st' = false →
  troops_ok st → troops_ok st'.
Proof. unfold troops_ok. intros -> ->. by intros [? _]. Qed.

Lemma handleContinentWin_troops_ok (st : GameState) :
  troops_ok st → troops_ok (handleContinentWin st).
Proof.
  destruct (handleContinentWin_spec st) as (_&_&_&_&_&_&_&Ht&Ha&_).
  by apply troops_ok_frame.
Qed.

Lemma merge_dominated_frame (continent : string) (st : GameState) :
  troops (merge_dominated continent st) = troops st ∧
  isGameActive (merge_dominated continent st) = isGameActive st ∧
  bestStreak (merge_dominated continent st) = bestStreak st ∧
  saveCalls (merge_dominated continent st) = saveCalls st ∧
  localStorage (merge_dominated continent st) = localStorage st ∧
  continentStatus (merge_dominated continent st) = continentStatus st ∧
  dominated (merge_dominated continent st) = dominated st.
Proof.
  unfold merge_dominated.
  destruct (continentStatus st !! continent) as [[s|s stored]|]; [done| |done].
  by destruct (remark_dominated _ _ _ _).
Qed.

Section Troops.
Context `{Platform}.

Lemma guessLetter_troops_ok (letter : jsstring) (st : GameState) :
  troops_ok st → troops_ok (guessLetter letter st).
Proof.
  intros [Hrange Hpos].
  destruct (isGameActive st) eqn:Hact.
  2: { rewrite guessLetter_inactive by done. split; [done|congruence]. }
  destruct (decide (toUpperCase letter ∈ guessedLetters st)) as [Hin|Hin].
  { rewrite guessLetter_repeated by done. split; [done|]. intros _. by apply Hpos. }
  pose proof (guessLetter_troops letter st) as Hstep.
  specialize (Hpos eq_refl). split; [unfold MAX_TROOPS in *; lia|].
  rewrite guessLetter_fresh by done. intros Hstill.
  apply checkGameStatus_still_active in Hstill as (-> & _ & _ & Ht). done.
Qed.

Lemma guesses_troops_ok (letters : list jsstring) (st : GameState) :
  troops_ok st →
  troops_ok (guesses st letters) ∧ (troops (guesses st letters) ≤ troops st)%Z.
Proof.
  revert st. induction letters as [|l ls IH]; intros st Hok.
  { split; [done|]. unfold guesses. simpl. lia. }
  rewrite guesses_cons.
  destruct (IH (guessLetter l st)) as [Hok' Hle]; [by apply guessLetter_troops_ok|].
  split; [done|]. pose proof (guessLetter_troops l st). lia.
Qed.

Lemma newRound_starts (pick : nat) (st : GameState) :
  newRound pick st = handleContinentWin st ∨
  troops (newRound pick st) = MAX_TROOPS ∧ isGameActive (newRound pick st) = true ∧
  guessedLetters (newRound pick st) = ∅.
Proof.
  unfold newRound.
  destruct (List.filter _ (countries st)) as [|c0 rest]; [by left|]. right.
  set (st5 := set_isGameActive _ _).
  by destruct (renderStreak_round st5) as (-> & -> & -> & _).
Qed.

Lemma newRound_troops_ok (pick : nat) (st : GameState) :
  troops_ok st → troops_ok (newRound pick st).
Proof.
  intros Hok. destruct (newRound_starts pick st) as [->|(Ht & Ha & _)].
  - by apply handleContinentWin_troops_ok.
  - unfold troops_ok. rewrite Ht. unfold MAX_TROOPS. split; [lia|]. intros _. lia.
Qed.

Lemma loadContinent_troops_ok (continent : string) (response : option (list ApiCountry))
    (pick : nat) (st : GameState) :
  troops_ok st → troops_ok (loadContinent continent response pick st).
Proof.
  intros Hok. unfold loadContinent. destruct response as [data|]; [|done].
  case_bool_decide; [done|].
  apply newRound_troops_ok.
  set (st1 := set_countries _ st).
  destruct (merge_dominated_frame continent st1) as (Ht & Ha & _).
  revert Ht Ha. generalize (merge_dominated continent st1). subst st1. simpl.
  intros st2 Ht Ha. by apply (troops_ok_frame st).
Qed.

Lemma modalButton_troops_ok (pick : nat) (st : GameState) :
  troops_ok st → troops_ok (modalButton pick st).
Proof.
  intros Hok. unfold modalButton. destruct (modal st) as [m|]; [|done].
  destruct (modalAction m).
  - by apply newRound_troops_ok.
  - destruct (global_reset_spec (set_modal None st)) as (_&_&_&_&_&Ht&Ha&_).
    by apply (troops_ok_frame st).
  - done.
Qed.

Lemma step_troops_ok (st : GameState) (e : Event) :
  troops_ok st → troops_ok (step st e).
Proof.
  intros Hok. destruct e; simpl; try done.
  - by case_bool_decide.
  - by apply loadContinent_troops_ok.
  - by apply guessLetter_troops_ok.
  - by apply modalButton_troops_ok.
  - by apply (troops_ok_inactive st).
Qed.

Lemma run_troops_ok (st : GameState) (es : list Event) :
  troops_ok st → troops_ok (run st es).
Proof.
  revert st. induction es as [|e es IH]; intros st Hok; [done|].
  apply IH. by apply step_troops_ok.
Qed.

Lemma onload_troops_ok (storage : Storage) : troops_ok (onload storage).
Proof.
  unfold onload.
  destruct (initializeAppUI_frame (gameState0 storage)) as (_&_&Ht&Ha&_).
  unfold troops_ok. rewrite Ht, Ha. simpl. unfold MAX_TROOPS. split; [lia|done].
Qed.

End Troops.

(** C3: in every state that a session can reach the troops are between 0
    and 3, and they are not 0 while a round is active; a round starts with 3
    troops; a guess takes one troop or none; and over any sequence of guesses
    the troops stay in range and never go up. *)
Theorem troops_in_range `{Platform} :
  (∀ storage es,
     let st := run (onload storage) es in
     (0 ≤ troops st ≤ 3)%Z ∧ (troops st = 0%Z → isGameActive st = false)) ∧
  (∀ pick st,
     newRound pick st = handleContinentWin st ∨
     troops (newRound pick st) = 3%Z ∧ isGameActive (newRound pick st) = true) ∧
  (∀ letter st, (troops st - 1 ≤ troops (guessLetter letter st) ≤ troops st)%Z) ∧
  (∀ letters st,
     troops_ok st →
     troops_ok (guesses st letters) ∧ (troops (guesses st letters) ≤ troops st)%Z).
Proof.
  split; [|split; [|split]].
  - intros storage es st.
    destruct (run_troops_ok (onload storage) es (onload_troops_ok storage)) as [Hr Hp].
    fold st in Hr, Hp. unfold MAX_TROOPS in Hr. split; [done|].
    intros H0. destruct (isGameActive st); [|done]. specialize (Hp eq_refl). lia.
  - intros pick st. destruct (newRound_starts pick st) as [?|(?&?&_)]; auto.
  - apply guessLetter_troops.
  - apply guesses_troops_ok.
Qed.

Lemma troops_in_range_witness :
  troops_ok peru_round ∧
  (troops (@guesses latin1 peru_round [lit "X"; lit "Y"; lit "Z"; lit "W"])
   ≤ troops peru_round)%Z.
Proof.
  assert (troops_ok peru_round) as Hok.
  { split; [by vm_compute|]. intros _. by vm_compute. }
  split; [exact Hok|].
  apply (proj2 (proj2 (proj2 (@troops_in_range latin1)))
           [lit "X"; lit "Y"; lit "Z"; lit "W"] peru_round Hok).
Defined.

(** ** The best streak and the saves *)

Lemma streak_step_same (st st' : GameState) :
  bestStreak st' = bestStreak st → saveCalls st' = saveCalls st →
  localStorage st' = localStorage st → streak_step st st'.
Proof.
  unfold streak_step, synced. intros -> -> ->.
  split; [lia|]. split; [lia|]. split; [lia|]. intros [?|?]; [done|lia].
Qed.

#[global] Instance streak_step_refl : Reflexive streak_step.
Proof. intros st. by apply streak_step_same. Qed.

#[global] Instance streak_step_trans : Transitive streak_step.
Proof.
  unfold streak_step. intros a b c (H1 & H2 & H3 & H4) (H5 & H6 & H7 & H8).
  split; [lia|]. split; [lia|]. split.
  - intros Hlt. destruct (decide (bestStreak a < bestStreak b)%Z) as [Hab|Hab].
    + specialize (H3 Hab). lia.
    + assert (bestStreak b < bestStreak c)%Z as Hbc by lia. specialize (H7 Hbc). lia.
  - intros [Hs|Hlt]; [by auto|].
    destruct (decide (bestStreak b < bestStreak c)%Z); [by auto|].
    apply H8. left. apply H4. right. lia.
Qed.

Lemma saveGameStateToStorage_step (st : GameState) :
  streak_step st (saveGameStateToStorage st).
Proof.
  unfold streak_step, synced. simpl. split; [lia|]. split; [lia|]. split; [lia|done].
Qed.

Lemma renderStreak_step (st : GameState) : streak_step st (renderStreak st).
Proof.
  destruct (renderStreak_cases st) as [[-> ?]|[-> ?]]; [done|].
  unfold streak_step, synced. simpl. split; [lia|]. split; [lia|]. split; [lia|done].
Qed.

Lemma win_country_step (st : GameState) : streak_step st (win_country st).
Proof.
  unfold win_country.
  set (st2 := set_currentStreak _ _).
  trans st2; [by apply streak_step_same|].
  trans (renderStreak st2); [apply renderStreak_step|].
  generalize (renderStreak st2). clear st st2. intros st3.
  destruct (currentCountry st3) as [cur|]; [|done].
  destruct (mark_dominated_frame (key cur) st3) as (_&_&_&_&_&_&Hb&_&_&Hl&Hs&_).
  revert Hb Hl Hs. generalize (mark_dominated (key cur) st3). intros st4 Hb Hl Hs.
  trans st4; [by apply streak_step_same|].
  set (st5 := set_continentStatus _ st4).
  trans st5; [by apply streak_step_same|].
  trans (saveGameStateToStorage st5); [apply saveGameStateToStorage_step|].
  by apply streak_step_same.
Qed.


Lemma checkGameStatus_step (st : GameState) : streak_step st (checkGameStatus st).
Proof.
  unfold checkGameStatus.
  destruct (isGameActive st); simpl; [|done].
  destruct (correctlyGuessed st); [apply win_country_step|].
  destruct (troops st <=? 0)%Z; [|done].
  destruct (lose_game_round st) as (_&_&_&_&_&_&?&?&?). by apply streak_step_same.
Qed.

Lemma record_guess_step (u : jsstring) (st : GameState) :
  streak_step st (record_guess u st).
Proof.
  unfold record_guess. simpl. destruct (includes (targetWord st) u).
  - by apply streak_step_same.
  - set (st3 := set_currentStreak _ _).
    trans st3; [by apply streak_step_same|apply renderStreak_step].
Qed.

Lemma handleContinentWin_step (st : GameState) :
  streak_step st (handleContinentWin st).
Proof.
  destruct (handleContinentWin_spec st) as (_&Hl&Hs&_&_&Hb&_).
  unfold streak_step, synced. rewrite Hl, Hs, Hb. simpl.
  split; [lia|]. split; [lia|]. split; [lia|done].
Qed.

Lemma global_reset_reread (st : GameState) : streak_reread st (global_reset st).
Proof.
  destruct (global_reset_spec st) as (_&Hl&Hs&Hb&_).
  unfold streak_reread, synced. rewrite Hl, Hs, Hb. simpl.
  by rewrite parseInt_toString_idemp.
Qed.

(** Below the limit the reset does to the best streak what any other step
    may do. *)
Lemma streak_reread_step (st st' : GameState) :
  (bestStreak st < plain_limit)%Z → streak_reread st st' → streak_step st st'.
Proof.
  intros Hlt (Hb & Hs & Hsync). unfold streak_step.
  pose proof (parseInt_toString_le (bestStreak st) Hlt).
  rewrite Hb, Hs. split; [done|]. split; [lia|]. split; [lia|done].
Qed.

Lemma streak_step_reread (a b c : GameState) :
  bestStreak b = bestStreak a → saveCalls b = saveCalls a →
  streak_reread b c → streak_reread a c.
Proof. unfold streak_reread. by intros <- <-. Qed.

(** ** How far the streaks rise *)

Lemma streak_rise_frame (st st' : GameState) :
  currentStreak st' = currentStreak st → bestStreak st' = bestStreak st →
  streak_rise 0 st st'.
Proof. unfold streak_rise, streak_top. intros -> ->. lia. Qed.

Lemma streak_rise_trans (j k : Z) (a b c : GameState) :
  streak_rise j a b → streak_rise k b c → streak_rise (j + k) a c.
Proof. unfold streak_rise. intros [? ?] [? ?]. split; [auto|lia]. Qed.

Lemma streak_rise_le (j k : Z) (a b : GameState) :
  (j ≤ k)%Z → streak_rise j a b → streak_rise k a b.
Proof. unfold streak_rise. intros ? [? ?]. split; [auto|lia]. Qed.

Lemma renderStreak_rise (st : GameState) : streak_rise 0 st (renderStreak st).
Proof.
  unfold streak_rise, streak_top.
  destruct (renderStreak_cases st) as [[-> ?]|[-> ?]]; simpl; lia.
Qed.

Lemma win_country_rise (st : GameState) : streak_rise 1 st (win_country st).
Proof.
  unfold win_country.
  set (st2 := set_currentStreak _ _).
  apply (streak_rise_trans 1 0 st st2).
  { unfold streak_rise, streak_top. subst st2. simpl. lia. }
  apply (streak_rise_trans 0 0 st2 (renderStreak st2)); [apply renderStreak_rise|].
  generalize (renderStreak st2). clear st st2. intros st3.
  destruct (currentCountry st3) as [cur|]; [|by apply streak_rise_frame].
  destruct (mark_dominated_frame (key cur) st3) as (_&_&_&_&_&Hs&Hb&_).
  revert Hs Hb. generalize (mark_dominated (key cur) st3). intros st4 Hs Hb.
  by apply streak_rise_frame.
Qed.

Lemma checkGameStatus_rise (st : GameState) : streak_rise 1 st (checkGameStatus st).
Proof.
  unfold checkGameStatus.
  destruct (isGameActive st); simpl;
    [|by apply (streak_rise_le 0 1); [lia|apply streak_rise_frame]].
  destruct (correctlyGuessed st); [apply win_country_rise|].
  apply (streak_rise_le 0 1); [lia|].
  destruct (troops st <=? 0)%Z; [|by apply streak_rise_frame].
  destruct (lose_game_round st) as (_&_&_&_&_&Hs&Hb&_).
  by apply streak_rise_frame.
Qed.

Lemma record_guess_rise (u : jsstring) (st : GameState) :
  streak_rise 0 st (record_guess u st).
Proof.
  unfold record_guess. simpl. destruct (includes (targetWord st) u).
  - by apply streak_rise_frame.
  - set (st3 := set_currentStreak _ _).
    apply (streak_rise_trans 0 0 st st3); [|apply renderStreak_rise].
    unfold streak_rise, streak_top. subst st3. simpl. lia.
Qed.

Lemma handleContinentWin_rise (st : GameState) :
  streak_rise 0 st (handleContinentWin st).
Proof.
  destruct (handleContinentWin_spec st) as (_&_&_&_&_&Hb&Hs&_).
  by apply streak_rise_frame.
Qed.

Lemma global_reset_rise (st : GameState) : streak_rise 0 st (global_reset st).
Proof.
  destruct (global_reset_spec st) as (_&_&_&Hb&Hs&_).
  unfold streak_rise, streak_top. rewrite Hb, Hs.
  pose proof (parseInt_toString_max (bestStreak st)). lia.
Qed.

Section Streaks.
Context `{Platform}.

Lemma guessLetter_step (letter : jsstring) (st : GameState) :
  streak_step st (guessLetter letter st).
Proof.
  unfold guessLetter. destruct (isGameActive st); simpl; [|done].
  case_bool_decide; [done|].
  trans (record_guess (toUpperCase letter) st);
    [apply record_guess_step|apply checkGameStatus_step].
Qed.

Lemma newRound_step (pick : nat) (st : GameState) : streak_step st (newRound pick st).
Proof.
  unfold newRound.
  destruct (List.filter _ (countries st)) as [|c0 rest]; [apply handleContinentWin_step|].
  set (st5 := set_isGameActive _ _).
  trans st5; [by apply streak_step_same|apply renderStreak_step].
Qed.

Lemma loadContinent_step (continent : string) (response : option (list ApiCountry))
    (pick : nat) (st : GameState) :
  streak_step st (loadContinent continent response pick st).
Proof.
  unfold loadContinent. destruct response as [data|]; [|done].
  case_bool_decide; [by apply streak_step_same|].
  set (st1 := set_countries _ st).
  destruct (merge_dominated_frame continent st1) as (_ & _ & Hb & Hs & Hl & _).
  revert Hb Hs Hl. generalize (merge_dominated continent st1). subst st1. simpl.
  intros st2 Hb Hs Hl.
  set (st4 := set_dominated _ _).
  trans st4; [by apply streak_step_same|apply newRound_step].
Qed.

(** The button of a dialog: a step like any other, or the reset. *)
Lemma modalButton_step (pick : nat) (st : GameState) :
  streak_step st (modalButton pick st) ∨ streak_reread st (modalButton pick st).
Proof.
  unfold modalButton. destruct (modal st) as [m|]; [|by left].
  destruct (modalAction m).
  - left. trans (set_modal None st); [by apply streak_step_same|apply newRound_step].
  - right. apply (streak_step_reread st (set_modal None st)); [done..|].
    apply global_reset_reread.
  - left. by apply streak_step_same.
Qed.

Lemma step_streak_cases (st : GameState) (e : Event) :
  streak_step st (step st e) ∨ streak_reread st (step st e).
Proof.
  destruct e; simpl; try (left; by apply streak_step_same).
  - left. case_bool_decide; [done|]. by apply streak_step_same.
  - left. apply loadContinent_step.
  - left. apply guessLetter_step.
  - apply modalButton_step.
Qed.

Lemma step_streak_step (st : GameState) (e : Event) :
  (bestStreak st < plain_limit)%Z → streak_step st (step st e).
Proof.
  intros Hlt. destruct (step_streak_cases st e) as [?|?]; [done|].
  by apply streak_reread_step.
Qed.



Lemma guessLetter_rise (letter : jsstring) (st : GameState) :
  streak_rise 1 st (guessLetter letter st).
Proof.
  unfold guessLetter.
  destruct (isGameActive st); simpl;
    [|by apply (streak_rise_le 0 1); [lia|apply streak_rise_frame]].
  case_bool_decide; [by apply (streak_rise_le 0 1); [lia|apply streak_rise_frame]|].
  apply (streak_rise_trans 0 1 st (record_guess (toUpperCase letter) st));
    [apply record_guess_rise|apply checkGameStatus_rise].
Qed.

Lemma newRound_rise (pick : nat) (st : GameState) : streak_rise 0 st (newRound pick st).
Proof.
  unfold newRound.
  destruct (List.filter _ (countries st)) as [|c0 rest]; [apply handleContinentWin_rise|].
  set (st5 := set_isGameActive _ _).
  apply (streak_rise_trans 0 0 st st5); [by apply streak_rise_frame|apply renderStreak_rise].
Qed.

Lemma loadContinent_rise (continent : string) (response : option (list ApiCountry))
    (pick : nat) (st : GameState) :
  streak_rise 0 st (loadContinent continent response pick st).
Proof.
  unfold loadContinent. destruct response as [data|]; [|by apply streak_rise_frame].
  case_bool_decide; [by apply streak_rise_frame|].
  set (st1 := set_countries _ st).
  assert (currentStreak (merge_dominated continent st1) = currentStreak st1 ∧
          bestStreak (merge_dominated continent st1) = bestStreak st1) as [Hs Hb].
  { unfold merge_dominated.
    destruct (continentStatus st1 !! continent) as [[s|s stored]|]; [done| |done].
    by destruct (remark_dominated _ _ _ _). }
  revert Hs Hb. generalize (merge_dominated continent st1). subst st1. simpl.
  intros st2 Hs Hb.
  set (st4 := set_dominated _ _).
  apply (streak_rise_trans 0 0 st st4); [by apply streak_rise_frame|apply newRound_rise].
Qed.

Lemma modalButton_rise (pick : nat) (st : GameState) :
  streak_rise 0 st (modalButton pick st).
Proof.
  unfold modalButton. destruct (modal st) as [m|]; [|by apply streak_rise_frame].
  apply (streak_rise_trans 0 0 st (set_modal None st)); [by apply streak_rise_frame|].
  destruct (modalAction m).
  - apply newRound_rise.
  - apply global_reset_rise.
  - by apply streak_rise_frame.
Qed.

Lemma step_rise (st : GameState) (e : Event) : streak_rise 1 st (step st e).
Proof.
  destruct e; simpl;
    try (by apply (streak_rise_le 0 1); [lia|apply streak_rise_frame]).
  - apply (streak_rise_le 0 1); [lia|]. case_bool_decide; by apply streak_rise_frame.
  - apply (streak_rise_le 0 1); [lia|apply loadContinent_rise].
  - apply guessLetter_rise.
  - apply (streak_rise_le 0 1); [lia|apply modalButton_rise].
  - apply (streak_rise_le 0 1); [lia|]. unfold streak_rise, streak_top. simpl. lia.
Qed.

Lemma run_nonneg (st : GameState) (es : list Event) :
  (0 ≤ currentStreak st)%Z → (0 ≤ currentStreak (run st es))%Z.
Proof.
  revert st. induction es as [|e es IH]; intros st Hst; [done|].
  apply IH. by apply (step_rise st e).
Qed.

Lemma streak_room_best (n : nat) (st : GameState) :
  streak_room n st → (bestStreak st < plain_limit)%Z.
Proof. unfold streak_room, streak_top. lia. Qed.

Lemma step_streak_room (n : nat) (st : GameState) (e : Event) :
  streak_room (S n) st → streak_room n (step st e).
Proof.
  unfold streak_room. intros Hroom. destruct (step_rise st e) as [_ Hrise]. lia.
Qed.

Lemma streak_room_le (m n : nat) (st : GameState) :
  m ≤ n → streak_room n st → streak_room m st.
Proof. unfold streak_room. lia. Qed.


Lemma run_streak_step (st : GameState) (es : list Event) :
  streak_room (length es) st → streak_step st (run st es).
Proof.
  revert st. induction es as [|e es IH]; intros st Hroom; [done|].
  trans (step st e).
  - apply step_streak_step. by apply (streak_room_best (length (e :: es))).
  - apply IH. by apply step_streak_room.
Qed.

End Streaks.




(** ** Loading a continent *)

(** Pushing a name that an array already holds changes the members of no
    array, whether or not it is the array pushed on. *)
Lemma array_push_members (stored dom : nat) (n : jsstring) (heap : list (list jsstring))
    (x : jsstring) :
  n ∈ array_get stored heap →
  x ∈ array_get stored (array_push dom n heap) ↔ x ∈ array_get stored heap.
Proof.
  unfold array_get, array_push. intros Hn.
  destruct (decide (stored = dom)) as [->|Hne].
  - rewrite list_lookup_alter_eq. destruct (heap !! dom) as [a|]; simpl in *; [|done].
    rewrite elem_of_app, list_elem_of_singleton. split; [by intros [?| ->]|by left].
  - by rewrite list_lookup_alter_ne.
Qed.

Lemma remark_dominated_countries (stored dom : nat) (names : list jsstring)
    (cs : list Country) (heap : list (list jsstring)) :
  (∀ x, x ∈ array_get stored heap ↔ x ∈ names) →
  (remark_dominated stored dom cs heap).1
  = (λ c, if bool_decide (name c ∈ names) then marked c else c) <$> cs.
Proof.
  revert heap. induction cs as [|c cs IH]; intros heap Hmem; [done|].
  cbn [remark_dominated fmap list_fmap].
  case_bool_decide as Hin.
  - specialize (IH (array_push dom (name c) heap)).
    destruct (remark_dominated stored dom cs _) as [rest' heap'].
    rewrite bool_decide_eq_true_2 by by apply Hmem.
    simpl in *. unfold marked. f_equal. apply IH.
    intros x. rewrite array_push_members by done. apply Hmem.
  - specialize (IH heap Hmem).
    destruct (remark_dominated stored dom cs heap) as [rest' heap'].
    rewrite bool_decide_eq_false_2 by by rewrite <- Hmem.
    simpl in *. by f_equal.
Qed.

Section Loading.
Context `{Platform}.

Lemma merged_names (names : list jsstring) (fetched : list ApiCountry) :
  name <$> ((λ c, if bool_decide (name c ∈ names) then marked c else c) <$>
            (to_country <$> fetched))
  = name_common <$> fetched.
Proof.
  induction fetched as [|a l IH]; [done|]. cbn [fmap list_fmap] in *.
  rewrite IH. by case_bool_decide.
Qed.

Lemma merged_dominated_names (names : list jsstring) (fetched : list ApiCountry) :
  name <$> List.filter isDominated
             ((λ c, if bool_decide (name c ∈ names) then marked c else c) <$>
              (to_country <$> fetched))
  = filter (λ n, n ∈ names) (name_common <$> fetched).
Proof.
  induction fetched as [|a l IH]; [done|]. cbn [fmap list_fmap] in *.
  change (name (to_country a)) with (name_common a).
  rewrite filter_cons. destruct (decide (name_common a ∈ names)) as [Hin|Hin].
  - rewrite bool_decide_eq_true_2 by done.
    cbn [List.filter marked isDominated fmap list_fmap name]. by rewrite IH.
  - rewrite bool_decide_eq_false_2 by done.
    cbn [List.filter to_country isDominated]. by rewrite IH.
Qed.

Lemma merged_flags (names : list jsstring) (fetched : list ApiCountry) :
  Forall (λ c, isDominated c = true ↔ name c ∈ names)
    ((λ c, if bool_decide (name c ∈ names) then marked c else c) <$>
     (to_country <$> fetched)).
Proof.
  induction fetched as [|a l IH]; [by constructor|]. cbn [fmap list_fmap].
  constructor; [|done]. case_bool_decide; simpl; [done|]. by split.
Qed.

(** [newRound] leaves the countries and the arrays alone. *)
Lemma newRound_session (pick : nat) (st : GameState) :
  countries (newRound pick st) = countries st ∧
  dominated (newRound pick st) = dominated st ∧
  arrays (newRound pick st) = arrays st.
Proof.
  unfold newRound.
  destruct (List.filter _ (countries st)) as [|c0 rest].
  - by destruct (handleContinentWin_spec st) as (_&_&_&_&_&_&_&_&_&->&->&->).
  - set (st5 := set_isGameActive _ _).
    by destruct (renderStreak_session st5) as (-> & -> & -> & _).
Qed.

Lemma loadContinent_merge (continent : string) (data : list ApiCountry) (pick : nat)
    (st : GameState) (status : string) (stored : nat) :
  continentStatus st !! continent = Some (StatusObject status stored) →
  List.filter qualifies data ≠ [] →
  let names := array_get stored (arrays st) in
  let st' := loadContinent continent (Some data) pick st in
  countries st'
  = (λ c, if bool_decide (name c ∈ names) then marked c else c) <$>
    (to_country <$> List.filter qualifies data) ∧
  array_get (dominated st') (arrays st')
  = name <$> List.filter isDominated (countries st').
Proof.
  intros Hstatus Hfetched names st'. subst st'. unfold loadContinent.
  set (st1 := set_countries _ st).
  rewrite bool_decide_eq_false_2.
  2: { subst st1. simpl. rewrite length_fmap.
       destruct (List.filter qualifies data); [done|simpl; lia]. }
  assert (countries (merge_dominated continent st1)
          = (λ c, if bool_decide (name c ∈ names) then marked c else c) <$>
            (to_country <$> List.filter qualifies data)) as Hcs.
  { unfold merge_dominated. subst st1. simpl. rewrite Hstatus.
    rewrite <- (remark_dominated_countries stored (dominated st) names _ (arrays st)) by done.
    by destruct (remark_dominated _ _ _ _). }
  revert Hcs. generalize (merge_dominated continent st1). intros st2 Hcs.
  set (st4 := set_dominated _ _).
  destruct (newRound_session pick st4) as (-> & -> & ->).
  subst st4. simpl. split; [done|].
  unfold array_get. by rewrite list_lookup_middle.
Qed.

End Loading.

(** C7: when a continent is loaded with success and its status is an
    in-progress object, the countries of the game are the fetched records that
    qualify, in their order; one is marked dominated exactly when its name is
    in the stored array; and the new array of dominated names holds the
    fetched names that are stored, so it is the intersection of the two; a
    stored name that was not fetched is in it no more. *)
Theorem loadContinent_merges_stored `{Platform} (continent : string)
    (data : list ApiCountry) (pick : nat) (st : GameState) (status : string)
    (stored : nat) :
  continentStatus st !! continent = Some (StatusObject status stored) →
  List.filter qualifies data ≠ [] →
  let fetched := name_common <$> List.filter qualifies data in
  let names := array_get stored (arrays st) in
  let st' := loadContinent continent (Some data) pick st in
  name <$> countries st' = fetched ∧
  Forall (λ c, isDominated c = true ↔ name c ∈ names) (countries st') ∧
  array_get (dominated st') (arrays st') = filter (λ n, n ∈ names) fetched ∧
  (∀ n, n ∈ array_get (dominated st') (arrays st') ↔ n ∈ fetched ∧ n ∈ names) ∧
  (∀ n, n ∈ names → n ∉ fetched → n ∉ array_get (dominated st') (arrays st')).
Proof.
  intros Hstatus Hfetched fetched names st'.
  destruct (loadContinent_merge continent data pick st status stored Hstatus Hfetched)
    as [Hcs Hdom].
  fold names st' in Hcs, Hdom.
  assert (array_get (dominated st') (arrays st') = filter (λ n, n ∈ names) fetched) as Hget.
  { rewrite Hdom, Hcs. apply merged_dominated_names. }
  split; [rewrite Hcs; apply merged_names|].
  split; [rewrite Hcs; apply merged_flags|].
  split; [done|]. rewrite Hget. split.
  - intros n. rewrite list_elem_of_filter. tauto.
  - intros n Hn Hnot [_ ?]%list_elem_of_filter. done.
Qed.

Lemma loadContinent_merges_stored_witness :
  let st := americas_in_progress in
  let data := [chile_api; peru_api] in
  continentStatus st !! "Americas"%string = Some (StatusObject "in-progress" 1) ∧
  List.filter qualifies data ≠ [] ∧
  array_get (dominated (@loadContinent latin1 "Americas" (Some data) 0 st))
    (arrays (@loadContinent latin1 "Americas" (Some data) 0 st))
  = filter (λ n, n ∈ array_get 1 (arrays st)) (name_common <$> List.filter qualifies data).
Proof.
  assert (continentStatus americas_in_progress !! "Americas"%string
          = Some (StatusObject "in-progress" 1)) as Hstatus by by vm_compute.
  assert (List.filter qualifies [chile_api; peru_api] ≠ []) as Hfetched by done.
  split; [exact Hstatus|]. split; [exact Hfetched|].
  apply (@loadContinent_merges_stored latin1 "Americas" [chile_api; peru_api] 0
           americas_in_progress "in-progress" 1 Hstatus Hfetched).
Defined.

(** ** Two observations on the stored progress *)

(** The in-progress object does not survive a reload: [initializeAppUI] keeps
    its [status] string only, so a continent loaded on a new page starts with
    no country marked, whatever names the storage holds. *)
Example reload_forgets_progress :
  let storage := localStorage americas_in_progress in
  let st := @run latin1 (onload storage)
              [ClickContinent "Americas";
               FetchSettled "Americas" (Some [peru_api; chile_api]) 0] in
  stored_continent_status storage ≫= lookup "Americas"%string
  = Some (StoredObject "in-progress" [lit "Peru"]) ∧
  continentStatus (onload storage) !! "Americas"%string = Some (StatusString "in-progress") ∧
  isDominated <$> countries st = [false; false] ∧
  array_get (dominated st) (arrays st) = [].
Proof. by vm_compute. Qed.

(** Within a session the array of the status object is [gameState.dominated]
    itself, so loading the continent again pushes the names it finds on the
    array it is reading. *)
Example reload_in_session_pushes_on_stored :
  let st := @run latin1 americas_in_progress
              [ClickContinent "Americas";
               FetchSettled "Americas" (Some [peru_api; chile_api]) 1] in
  continentStatus americas_in_progress !! "Americas"%string
  = Some (StatusObject "in-progress" (dominated americas_in_progress)) ∧
  array_get (dominated americas_in_progress) (arrays st) = [lit "Peru"; lit "Peru"] ∧
  array_get (dominated st) (arrays st) = [lit "Peru"] ∧
  isDominated <$> countries st = [true; false].
Proof. by vm_compute. Qed.

(** ** Active rounds *)

Lemma game_fields_round (st st' : GameState) :
  game_fields st' = game_fields st →
  currentCountry st' = currentCountry st ∧ isGameActive st' = isGameActive st.
Proof. unfold game_fields. intros [= ]. by split. Qed.


Lemma handleContinentWin_round (st : GameState) :
  currentCountry (handleContinentWin st) = currentCountry st ∧
  isGameActive (handleContinentWin st) = isGameActive st.
Proof. unfold handleContinentWin. by destruct (forallb _ _). Qed.

Lemma global_reset_round (st : GameState) :
  currentCountry (global_reset st) = currentCountry st ∧
  isGameActive (global_reset st) = isGameActive st.
Proof.
  unfold global_reset.
  pose proof (reset_loop_fields CONTINENTS st) as Hf1.
  revert Hf1. generalize (foldl (λ st c, set_continentStatus
    (<[c := StatusString "available"]> (continentStatus st)) st) st CONTINENTS).
  intros st1 [Hc1 Ha1]%game_fields_round.
  pose proof (initializeAppUI_fields (saveGameStateToStorage st1)) as Hf3.
  revert Hf3. generalize (initializeAppUI (saveGameStateToStorage st1)).
  intros st3 [Hc3 Ha3]%game_fields_round. simpl in *. split; congruence.
Qed.

Lemma merge_dominated_round (continent : string) (st : GameState) :
  currentCountry (merge_dominated continent st) = currentCountry st ∧
  isGameActive (merge_dominated continent st) = isGameActive st.
Proof.
  unfold merge_dominated.
  destruct (continentStatus st !! continent) as [[s|s stored]|]; [done| |done].
  by destruct (remark_dominated _ _ _ _).
Qed.

Section ActiveRounds.
Context `{Platform}.








End ActiveRounds.

(** ** The outcome of a round *)



(** * Further properties *)

(** ** What a reload keeps *)

Lemma status_word_nonempty (held : option StatusValue) : status_word held ≠ EmptyString.
Proof. destruct held as [[s|s l]|]; simpl; [case_bool_decide; done..|done]. Qed.

Lemma status_word_stable (held : option StatusValue) :
  status_word (Some (StatusString (status_word held))) = status_word held.
Proof.
  simpl. rewrite bool_decide_eq_false_2; [done|apply status_word_nonempty].
Qed.

(** One pass of the loading loop, seen through the words. *)
Lemma load_continent_status_word (status : gmap string StoredStatus) (st : GameState)
    (a c : string) :
  status_word (continentStatus (load_continent_status status st a) !! c)
  = if bool_decide (c = a) then reloaded_word (status !! c) (continentStatus st !! c)
    else status_word (continentStatus st !! c).
Proof.
  unfold load_continent_status. case_bool_decide as Hc.
  - subst a. destruct (status !! c) as [[s|s names]|] eqn:Hs; simpl; [|by rewrite lookup_insert_eq|done].
    case_bool_decide; [done|]. simpl. rewrite lookup_insert_eq. simpl.
    by rewrite bool_decide_eq_false_2.
  - destruct (status !! a) as [[s|s names]|]; simpl; [|by rewrite lookup_insert_ne|done].
    case_bool_decide; [done|]. simpl. by rewrite lookup_insert_ne.
Qed.

Lemma reloaded_word_twice (stored : option StoredStatus) (held : option StatusValue) :
  reloaded_word stored (Some (StatusString (reloaded_word stored held)))
  = reloaded_word stored held.
Proof.
  destruct stored as [[s|s names]|]; simpl; [|done|].
  - case_bool_decide; [|done]. simpl.
    rewrite bool_decide_eq_false_2; [done|apply status_word_nonempty].
  - rewrite bool_decide_eq_false_2; [done|apply status_word_nonempty].
Qed.

Lemma load_loop_word (status : gmap string StoredStatus) (l : list string)
    (st : GameState) (c : string) :
  status_word (continentStatus (foldl (load_continent_status status) st l) !! c)
  = if bool_decide (c ∈ l) then reloaded_word (status !! c) (continentStatus st !! c)
    else status_word (continentStatus st !! c).
Proof.
  revert st. induction l as [|a l IH]; intros st; [done|].
  cbn [foldl]. rewrite IH.
  pose proof (load_continent_status_word status st a c) as Ha.
  destruct (decide (c = a)) as [->|Hne].
  - rewrite bool_decide_eq_true_2 in Ha by done.
    rewrite (bool_decide_eq_true_2 (a ∈ a :: l)) by apply list_elem_of_here.
    case_bool_decide; [|done].
    destruct (status !! a) as [[s|s names]|] eqn:Hs; simpl in *; [|done|done].
    by case_bool_decide.
  - rewrite bool_decide_eq_false_2 in Ha by done.
    assert (bool_decide (c ∈ a :: l) = bool_decide (c ∈ l)) as ->.
    { apply bool_decide_ext. rewrite elem_of_cons. split; [by intros [?|?]|by right]. }
    case_bool_decide; [|done].
    destruct (status !! c) as [[s|s names]|] eqn:Hs; simpl in *; [|done|done].
    by case_bool_decide.
Qed.

Lemma load_loop_other (status : gmap string StoredStatus) (l : list string)
    (st : GameState) (c : string) :
  c ∉ l → continentStatus (foldl (load_continent_status status) st l) !! c
          = continentStatus st !! c.
Proof.
  revert st. induction l as [|a l IH]; intros st Hc; [done|].
  apply not_elem_of_cons in Hc as [Hne Hc]. cbn [foldl]. rewrite IH by done.
  unfold load_continent_status.
  destruct (status !! a) as [[s|s names]|]; simpl; [|by rewrite lookup_insert_ne|done].
  case_bool_decide; [done|]. simpl. by rewrite lookup_insert_ne.
Qed.

Lemma initialize_continent_lookup (st : GameState) (a c : string) :
  continentStatus (initialize_continent st a) !! c
  = if bool_decide (c = a) then Some (StatusString (status_word (continentStatus st !! c)))
    else continentStatus st !! c.
Proof.
  unfold initialize_continent. case_bool_decide as Hc.
  - subst a. destruct (continentStatus st !! c) as [[s|s l]|] eqn:Hs; simpl.
    + destruct (decide (s = EmptyString)) as [->|Hne]; simpl;
        [by rewrite lookup_insert_eq|].
      rewrite (bool_decide_eq_false_2 (s = EmptyString)) by done. simpl.
      case_bool_decide as Hav; simpl; [by rewrite lookup_insert_eq, Hav|done].
    + by rewrite lookup_insert_eq.
    + by rewrite lookup_insert_eq.
  - destruct (continentStatus st !! a) as [[s|s l]|]; simpl;
      [destruct (_ || _); simpl|..]; by rewrite ?lookup_insert_ne.
Qed.

Lemma initialize_loop_lookup (l : list string) (st : GameState) (c : string) :
  continentStatus (foldl initialize_continent st l) !! c
  = if bool_decide (c ∈ l) then Some (StatusString (status_word (continentStatus st !! c)))
    else continentStatus st !! c.
Proof.
  revert st. induction l as [|a l IH]; intros st; [done|].
  cbn [foldl]. rewrite IH, initialize_continent_lookup.
  destruct (decide (c = a)) as [->|Hne].
  - rewrite (bool_decide_eq_true_2 (a = a)) by done.
    rewrite (bool_decide_eq_true_2 (a ∈ a :: l)) by apply list_elem_of_here.
    case_bool_decide; [|done]. by rewrite status_word_stable.
  - rewrite (bool_decide_eq_false_2 (c = a)) by done.
    apply (f_equal (λ b : bool, if b then _ else _)).
    apply bool_decide_ext. rewrite elem_of_cons. split; [by right|by intros [?|?]].
Qed.

(** The statuses after [initializeAppUI], whatever the storage and the state. *)
Lemma initializeAppUI_status (st : GameState) (c : string) :
  continentStatus (initializeAppUI st) !! c
  = if bool_decide (c ∈ CONTINENTS) then
      Some (StatusString
              (reloaded_word (stored_continent_status (localStorage st) ≫= lookup c)
                 (continentStatus st !! c)))
    else continentStatus st !! c.
Proof.
  unfold initializeAppUI.
  assert (∀ v st', continentStatus (showView v st') = continentStatus st') as -> by done.
  rewrite initialize_loop_lookup.
  unfold loadGameStateFromStorage.
  set (st1 := match stored_best_streak (localStorage st) with
              | Some z => set_bestStreak z st | None => st end).
  assert (localStorage st1 = localStorage st ∧ continentStatus st1 = continentStatus st)
    as [Hls Hcs] by (subst st1; by destruct (stored_best_streak (localStorage st))).
  rewrite Hls. clearbody st1.
  destruct (stored_continent_status (localStorage st)) as [status|];
    cbn [mbind option_bind].
  - case_bool_decide as Hin.
    + by rewrite load_loop_word, bool_decide_eq_true_2, Hcs.
    + by rewrite load_loop_other, Hcs.
  - rewrite Hcs. by case_bool_decide.
Qed.

Lemma onload_status (storage : Storage) (c : string) :
  continentStatus (onload storage) !! c
  = if bool_decide (c ∈ CONTINENTS) then
      Some (StatusString (reloaded_word (stored_continent_status storage ≫= lookup c) None))
    else None.
Proof. unfold onload. rewrite initializeAppUI_status. by case_bool_decide. Qed.

(** X1: what a page load reads from a storage of the game's own shapes: a
    best-streak item that [parseInt] reads as an integer, and a status object
    each of whose values is a string or an object with a string [status] and
    an array of names.  The best streak is the stored one, or 0 without one.
    Each of the five continents gets a status string: the stored string when
    there is a non-empty one, the [status] field of a stored object, and
    ['available'] otherwise; the names of a stored object are not read back.
    Keys of the stored object that are no continent are ignored, and nothing
    else of the game is set. *)
Theorem onload_reads_storage (storage : Storage) :
  let st := onload storage in
  bestStreak st = default 0%Z (stored_best_streak storage) ∧
  (∀ c, c ∈ CONTINENTS →
     continentStatus st !! c
     = Some (StatusString
               (reloaded_word (stored_continent_status storage ≫= lookup c) None))) ∧
  (∀ c, c ∉ CONTINENTS → continentStatus st !! c = None) ∧
  currentStreak st = 0%Z ∧ isGameActive st = false ∧ countries st = [] ∧
  troops st = MAX_TROOPS ∧ localStorage st = storage ∧ saveCalls st = 0 ∧
  signals st = [] ∧ modal st = None.
Proof.
  intros st. subst st.
  split.
  { unfold onload.
    by destruct (initializeAppUI_frame (gameState0 storage)) as (_ & -> & _). }
  split.
  { intros c Hc. by rewrite onload_status, bool_decide_eq_true_2. }
  split.
  { intros c Hc. by rewrite onload_status, bool_decide_eq_false_2. }
  unfold onload.
  destruct (initializeAppUI_frame (gameState0 storage))
    as (Hcs & Hbs & Htr & Hact & Hls & Hsc & Hco & _ & Hsi & Hmo).
  by rewrite Hcs, Htr, Hact, Hls, Hsc, Hco, Hsi, Hmo.
Qed.

Lemma onload_reads_storage_witness :
  continentStatus (onload (localStorage americas_in_progress)) !! "Americas"%string
  = Some (StatusString
            (reloaded_word
               (stored_continent_status (localStorage americas_in_progress)
                  ≫= lookup "Americas"%string) None)).
Proof.
  apply (proj1 (proj2 (onload_reads_storage (localStorage americas_in_progress)))).
  apply (bool_decide_unpack _). by vm_compute.
Defined.




(** X3: a continent completed stays completed over a reload.  When
    [handleContinentWin] runs on one of the five continents, the page loaded
    from the storage it leaves has that continent dominated, and a click on
    its card does nothing. *)
Theorem completed_continent_survives_reload `{Platform} (st : GameState) :
  currentContinent st ∈ CONTINENTS →
  let st' := onload (localStorage (handleContinentWin st)) in
  continentStatus st' !! currentContinent st = Some (StatusString "dominated") ∧
  step st' (ClickContinent (currentContinent st)) = st'.
Proof.
  intros Hc st'.
  assert (continentStatus st' !! currentContinent st = Some (StatusString "dominated")) as Hdom.
  { subst st'. rewrite onload_status, bool_decide_eq_true_2 by done.
    destruct (handleContinentWin_spec st) as (Hst & Hls & _).
    rewrite Hls, Hst. cbn [stored_continent_status mbind option_bind].
    by rewrite lookup_fmap, lookup_insert_eq. }
  split; [exact Hdom|].
  cbn [step]. by rewrite bool_decide_eq_true_2.
Qed.

Lemma completed_continent_survives_reload_witness :
  currentContinent last_country_won ∈ CONTINENTS ∧
  continentStatus (onload (localStorage (handleContinentWin last_country_won)))
  !! currentContinent last_country_won = Some (StatusString "dominated").
Proof.
  assert (currentContinent last_country_won ∈ CONTINENTS) as Hc.
  { apply (bool_decide_unpack _). by vm_compute. }
  split; [exact Hc|].
  apply (proj1 (@completed_continent_survives_reload latin1 last_country_won Hc)).
Defined.

Section FreshLoad.
Context `{Platform}.

Lemma filter_undominated (fetched : list ApiCountry) :
  List.filter (λ c, negb (isDominated c)) (to_country <$> fetched) = to_country <$> fetched.
Proof. induction fetched as [|a l IH]; [done|]. cbn. by rewrite IH. Qed.

Lemma filter_dominated (fetched : list ApiCountry) :
  List.filter isDominated (to_country <$> fetched) = [].
Proof. by induction fetched as [|a l IH]. Qed.

(** Without a status object for the continent nothing is merged: the round
    starts on a list of countries none of which is dominated. *)
Lemma loadContinent_no_object (continent : string) (data : list ApiCountry) (pick : nat)
    (st : GameState) :
  (∀ status names, continentStatus st !! continent ≠ Some (StatusObject status names)) →
  List.filter qualifies data ≠ [] →
  let fetched := to_country <$> List.filter qualifies data in
  let st' := loadContinent continent (Some data) pick st in
  countries st' = fetched ∧
  array_get (dominated st') (arrays st') = [] ∧
  troops st' = MAX_TROOPS ∧ isGameActive st' = true ∧ guessedLetters st' = ∅ ∧
  ∃ country, country ∈ fetched ∧ currentCountry st' = Some country ∧
             targetWord st' = cleanWord (name country).
Proof.
  intros Hstr Hfetched fetched st'. subst st'. unfold loadContinent.
  set (st1 := set_countries _ st).
  rewrite bool_decide_eq_false_2.
  2: { subst st1. simpl. rewrite length_fmap.
       destruct (List.filter qualifies data); [done|simpl; lia]. }
  assert (merge_dominated continent st1 = st1) as ->.
  { unfold merge_dominated. subst st1. simpl.
    destruct (continentStatus st !! continent) as [[s|s names]|] eqn:Hs; [done| |done].
    by destruct (Hstr s names). }
  set (st4 := set_dominated _ _).
  assert (countries st4 = fetched) as Hcs by done.
  assert (arrays st4 !! dominated st4 = Some []) as Harr.
  { subst st4 st1. simpl. rewrite filter_dominated. simpl. by rewrite list_lookup_middle. }
  clearbody st4. clear st1.
  unfold newRound. rewrite Hcs. subst fetched. rewrite filter_undominated.
  destruct (to_country <$> List.filter qualifies data) as [|c0 rest] eqn:Hlist.
  { apply fmap_nil_inv in Hlist. done. }
  set (country := nth _ _ _).
  set (st5 := set_isGameActive _ _).
  destruct (renderStreak_round st5) as (-> & -> & -> & -> & -> & _).
  destruct (renderStreak_session st5) as (-> & -> & -> & _).
  subst st5. simpl. split; [done|]. split.
  { unfold array_get. by rewrite Harr. }
  split; [done|]. split; [done|]. split; [done|].
  exists country. split; [|done].
  apply list_elem_of_In. subst country. apply nth_In.
  apply Nat.mod_upper_bound. done.
Qed.

(** X4: the countries won in a continent are forgotten by a reload.  On a
    page just loaded from a storage of the game's own shapes (each stored
    status a string, or an object with a string [status] and an array of
    names), a continent that loads with success starts with every fetched
    country undominated and an empty list of dominated names, and a round is
    on one of the fetched countries. *)
Theorem first_load_has_no_dominated_country (storage : Storage) (continent : string)
    (data : list ApiCountry) (pick : nat) :
  List.filter qualifies data ≠ [] →
  let st' := loadContinent continent (Some data) pick (onload storage) in
  name <$> countries st' = name_common <$> List.filter qualifies data ∧
  Forall (λ c, isDominated c = false) (countries st') ∧
  array_get (dominated st') (arrays st') = [] ∧
  troops st' = MAX_TROOPS ∧ isGameActive st' = true ∧ guessedLetters st' = ∅ ∧
  ∃ country, country ∈ countries st' ∧ currentCountry st' = Some country ∧
             targetWord st' = cleanWord (name country).
Proof.
  intros Hfetched st'.
  assert (∀ status names,
            continentStatus (onload storage) !! continent ≠ Some (StatusObject status names))
    as Hstr.
  { intros status names. rewrite onload_status. by case_bool_decide. }
  destruct (loadContinent_no_object continent data pick (onload storage) Hstr Hfetched)
    as (Hcs & Hdom & Ht & Ha & Hg & Hcur).
  fold st' in Hcs, Hdom, Ht, Ha, Hg, Hcur.
  split. { rewrite Hcs, <- list_fmap_compose. done. }
  split. { rewrite Hcs. apply Forall_fmap. by apply Forall_true. }
  split; [done|]. split; [done|]. split; [done|]. split; [done|].
  by rewrite Hcs.
Qed.

End FreshLoad.

Lemma first_load_has_no_dominated_country_witness :
  let st' := @loadContinent latin1 "Americas" (Some [peru_api; chile_api]) 0
               (onload (localStorage americas_in_progress)) in
  List.filter qualifies [peru_api; chile_api] ≠ [] ∧
  Forall (λ c, isDominated c = false) (countries st').
Proof.
  assert (List.filter qualifies [peru_api; chile_api] ≠ []) as Hfetched by done.
  split; [exact Hfetched|].
  apply (proj1 (proj2 (@first_load_has_no_dominated_country latin1
           (localStorage americas_in_progress) "Americas" [peru_api; chile_api] 0 Hfetched))).
Defined.


(** ** The accounts of a round *)

Lemma troops_counted_frame (st st' : GameState) :
  targetWord st' = targetWord st → guessedLetters st' = guessedLetters st →
  troops st' = troops st → troops_counted st → troops_counted st'.
Proof. unfold troops_counted, wrong_letters. by intros -> -> ->. Qed.

Lemma game_fields_board (st st' : GameState) :
  game_fields st' = game_fields st →
  targetWord st' = targetWord st ∧ guessedLetters st' = guessedLetters st ∧
  troops st' = troops st.
Proof. unfold game_fields. intros [= ]. by repeat split. Qed.

Lemma handleContinentWin_board (st : GameState) :
  targetWord (handleContinentWin st) = targetWord st ∧
  guessedLetters (handleContinentWin st) = guessedLetters st ∧
  troops (handleContinentWin st) = troops st.
Proof. unfold handleContinentWin. by destruct (forallb _ _). Qed.

Lemma global_reset_board (st : GameState) :
  targetWord (global_reset st) = targetWord st ∧
  guessedLetters (global_reset st) = guessedLetters st ∧
  troops (global_reset st) = troops st.
Proof.
  unfold global_reset.
  pose proof (reset_loop_fields CONTINENTS st) as Hf1.
  revert Hf1. generalize (foldl (λ st c, set_continentStatus
    (<[c := StatusString "available"]> (continentStatus st)) st) st CONTINENTS).
  intros st1 (Hw1 & Hg1 & Ht1)%game_fields_board.
  pose proof (initializeAppUI_fields (saveGameStateToStorage st1)) as Hf3.
  revert Hf3. generalize (initializeAppUI (saveGameStateToStorage st1)).
  intros st3 (Hw3 & Hg3 & Ht3)%game_fields_board. simpl in *.
  split; [congruence|]. split; congruence.
Qed.

Lemma merge_dominated_board (continent : string) (st : GameState) :
  targetWord (merge_dominated continent st) = targetWord st ∧
  guessedLetters (merge_dominated continent st) = guessedLetters st ∧
  troops (merge_dominated continent st) = troops st.
Proof.
  unfold merge_dominated.
  destruct (continentStatus st !! continent) as [[s|s stored]|]; [done| |done].
  by destruct (remark_dominated _ _ _ _).
Qed.

Lemma wrong_letters_none (st : GameState) :
  guessedLetters st = ∅ → size (wrong_letters st) = 0.
Proof.
  unfold wrong_letters. intros ->. rewrite filter_empty_L by apply _. apply size_empty.
Qed.

Lemma record_guess_counted (u : jsstring) (st : GameState) :
  u ∉ guessedLetters st → troops_counted st → troops_counted (record_guess u st).
Proof.
  intros Hnew Hst. unfold troops_counted, wrong_letters in *.
  destruct (record_guess_frame u st) as (-> & -> & _).
  rewrite filter_union_L by apply _.
  destruct (includes (targetWord st) u) eqn:Hinc.
  - destruct (record_guess_right u st Hinc) as (-> & _).
    rewrite filter_singleton_False_L by (first [apply _ | simpl; congruence]).
    by rewrite (left_id_L ∅ (∪)).
  - destruct (record_guess_wrong u st Hinc) as (-> & _).
    rewrite filter_singleton_True_L by (first [apply _ | done]).
    rewrite size_union
      by (apply disjoint_singleton_l; intros [_ ?]%elem_of_filter; done).
    rewrite size_singleton. lia.
Qed.

Section Accounts.
Context `{Platform}.

Lemma guessLetter_counted (letter : jsstring) (st : GameState) :
  troops_counted st → troops_counted (guessLetter letter st).
Proof.
  intros Hst.
  destruct (isGameActive st) eqn:Hact; [|by rewrite guessLetter_inactive].
  destruct (decide (toUpperCase letter ∈ guessedLetters st)) as [Hin|Hin];
    [by rewrite guessLetter_repeated|].
  rewrite guessLetter_fresh by done.
  destruct (checkGameStatus_round (record_guess (toUpperCase letter) st))
    as (Ht & Hg & Hw & _).
  apply (troops_counted_frame (record_guess (toUpperCase letter) st)); [done..|].
  by apply record_guess_counted.
Qed.

Lemma guesses_counted (letters : list jsstring) (st : GameState) :
  troops_counted st → troops_counted (guesses st letters).
Proof.
  revert st. induction letters as [|l ls IH]; intros st Hst; [done|].
  rewrite guesses_cons. by apply IH, guessLetter_counted.
Qed.

Lemma newRound_counted (pick : nat) (st : GameState) :
  troops_counted st → troops_counted (newRound pick st).
Proof.
  intros Hst. destruct (newRound_starts pick st) as [->|(Ht & _ & Hg)].
  - destruct (handleContinentWin_board st) as (Hw & Hg & Ht).
    by apply (troops_counted_frame st).
  - unfold troops_counted. rewrite Ht, wrong_letters_none by done. lia.
Qed.

Lemma loadContinent_counted (continent : string) (response : option (list ApiCountry))
    (pick : nat) (st : GameState) :
  troops_counted st → troops_counted (loadContinent continent response pick st).
Proof.
  intros Hst. unfold loadContinent. destruct response as [data|]; [|done].
  case_bool_decide; [done|].
  apply newRound_counted.
  set (st1 := set_countries _ st).
  destruct (merge_dominated_board continent st1) as (Hw & Hg & Ht).
  revert Hw Hg Ht. generalize (merge_dominated continent st1). subst st1. simpl.
  intros st2 Hw Hg Ht. by apply (troops_counted_frame st).
Qed.

Lemma modalButton_counted (pick : nat) (st : GameState) :
  troops_counted st → troops_counted (modalButton pick st).
Proof.
  intros Hst. unfold modalButton. destruct (modal st) as [m|]; [|done].
  destruct (modalAction m).
  - by apply newRound_counted.
  - destruct (global_reset_board (set_modal None st)) as (Hw & Hg & Ht).
    by apply (troops_counted_frame st).
  - done.
Qed.

Lemma step_counted (st : GameState) (e : Event) :
  troops_counted st → troops_counted (step st e).
Proof.
  intros Hst. destruct e; simpl; try done.
  - by case_bool_decide.
  - by apply loadContinent_counted.
  - by apply guessLetter_counted.
  - by apply modalButton_counted.
Qed.

Lemma run_counted (st : GameState) (es : list Event) :
  troops_counted st → troops_counted (run st es).
Proof.
  revert st. induction es as [|e es IH]; intros st Hst; [done|].
  apply IH. by apply step_counted.
Qed.

Lemma onload_counted (storage : Storage) : troops_counted (onload storage).
Proof.
  unfold onload.
  pose proof (initializeAppUI_fields (gameState0 storage)) as Hf.
  apply game_fields_board in Hf as (Hw & Hg & Ht).
  unfold troops_counted. rewrite Ht, wrong_letters_none by by rewrite Hg. simpl. lia.
Qed.

(** X5: the troops are counted by the wrong letters.  In every state that
    a session can reach the troops are 3 less the number of guessed letters
    that are not in the word, so a letter costs a troop once and a right
    letter never does; and any sequence of guesses keeps the count. *)
Theorem troops_count_wrong_letters :
  (∀ storage es,
     let st := run (onload storage) es in
     troops st = (MAX_TROOPS - Z.of_nat (size (wrong_letters st)))%Z) ∧
  (∀ st letters,
     troops st = (MAX_TROOPS - Z.of_nat (size (wrong_letters st)))%Z →
     troops (guesses st letters)
     = (MAX_TROOPS - Z.of_nat (size (wrong_letters (guesses st letters))))%Z).
Proof.
  split.
  - intros storage es. apply run_counted, onload_counted.
  - intros st letters. apply guesses_counted.
Qed.

End Accounts.

Lemma troops_count_wrong_letters_witness :
  troops (@guesses latin1 peru_round [lit "X"; lit "P"; lit "x"; lit "Z"])
  = (MAX_TROOPS
     - Z.of_nat (size (wrong_letters
                         (@guesses latin1 peru_round [lit "X"; lit "P"; lit "x"; lit "Z"]))))%Z.
Proof.
  apply (proj2 (@troops_count_wrong_letters latin1) peru_round).
  by vm_compute.
Defined.

(** ** The two streaks *)

Lemma streaks_ok_frame (st st' : GameState) :
  currentStreak st' = currentStreak st → bestStreak st' = bestStreak st →
  streaks_ok st → streaks_ok st'.
Proof. unfold streaks_ok. by intros -> ->. Qed.

Lemma renderStreak_streaks_ok (st : GameState) :
  (0 ≤ currentStreak st)%Z → streaks_ok (renderStreak st).
Proof.
  intros Hpos. unfold streaks_ok.
  destruct (renderStreak_cases st) as [[-> ?]|[-> ?]]; simpl; lia.
Qed.

Lemma win_country_streaks_ok (st : GameState) :
  streaks_ok st → streaks_ok (win_country st).
Proof.
  intros [Hpos _]. unfold win_country.
  set (st2 := set_currentStreak _ _).
  assert (streaks_ok (renderStreak st2)) as Hok.
  { apply renderStreak_streaks_ok. subst st2. simpl. lia. }
  revert Hok. generalize (renderStreak st2). clear st st2 Hpos. intros st3 Hok.
  destruct (currentCountry st3) as [cur|]; [|done].
  destruct (mark_dominated_frame (key cur) st3) as (_&_&_&_&_&Hs&Hb&_).
  revert Hs Hb. generalize (mark_dominated (key cur) st3). intros st4 Hs Hb.
  by apply (streaks_ok_frame st3).
Qed.

Lemma checkGameStatus_streaks_ok (st : GameState) :
  streaks_ok st → streaks_ok (checkGameStatus st).
Proof.
  intros Hok. unfold checkGameStatus.
  destruct (isGameActive st); simpl; [|done].
  destruct (correctlyGuessed st); [by apply win_country_streaks_ok|].
  destruct (troops st <=? 0)%Z; [|done].
  destruct (lose_game_round st) as (_&_&_&_&_&Hs&Hb&_).
  by apply (streaks_ok_frame st).
Qed.

Lemma record_guess_streaks_ok (u : jsstring) (st : GameState) :
  streaks_ok st → streaks_ok (record_guess u st).
Proof.
  intros Hok. unfold record_guess. simpl.
  destruct (includes (targetWord st) u); [done|].
  by apply renderStreak_streaks_ok.
Qed.

Lemma handleContinentWin_streaks_ok (st : GameState) :
  streaks_ok st → streaks_ok (handleContinentWin st).
Proof.
  destruct (handleContinentWin_spec st) as (_&_&_&_&_&Hb&Hs&_).
  by apply streaks_ok_frame.
Qed.

Section TwoStreaks.
Context `{Platform}.

Lemma guessLetter_streaks_ok (letter : jsstring) (st : GameState) :
  streaks_ok st → streaks_ok (guessLetter letter st).
Proof.
  intros Hok. unfold guessLetter. destruct (isGameActive st); simpl; [|done].
  case_bool_decide; [done|].
  by apply checkGameStatus_streaks_ok, record_guess_streaks_ok.
Qed.

Lemma newRound_streaks_ok (pick : nat) (st : GameState) :
  streaks_ok st → streaks_ok (newRound pick st).
Proof.
  intros Hok. unfold newRound.
  destruct (List.filter _ (countries st)) as [|c0 rest];
    [by apply handleContinentWin_streaks_ok|].
  apply renderStreak_streaks_ok. simpl. by destruct Hok.
Qed.

Lemma loadContinent_streaks_ok (continent : string) (response : option (list ApiCountry))
    (pick : nat) (st : GameState) :
  streaks_ok st → streaks_ok (loadContinent continent response pick st).
Proof.
  intros Hok. unfold loadContinent. destruct response as [data|]; [|done].
  case_bool_decide; [done|].
  apply newRound_streaks_ok.
  set (st1 := set_countries _ st).
  assert (currentStreak (merge_dominated continent st1) = currentStreak st1 ∧
          bestStreak (merge_dominated continent st1) = bestStreak st1) as [Hs Hb].
  { unfold merge_dominated.
    destruct (continentStatus st1 !! continent) as [[s|s stored]|]; [done| |done].
    by destruct (remark_dominated _ _ _ _). }
  revert Hs Hb. generalize (merge_dominated continent st1). subst st1. simpl.
  intros st2 Hs Hb. by apply (streaks_ok_frame st).
Qed.

Lemma modalButton_streaks_ok (pick : nat) (st : GameState) :
  (bestStreak st < plain_limit)%Z →
  streaks_ok st → streaks_ok (modalButton pick st).
Proof.
  intros Hlt Hok. unfold modalButton. destruct (modal st) as [m|]; [|done].
  destruct (modalAction m).
  - by apply newRound_streaks_ok.
  - destruct (global_reset_spec (set_modal None st)) as (_&_&_&Hb&Hs&_).
    pose proof (parseInt_toString_le (bestStreak st) Hlt).
    unfold streaks_ok in *. rewrite Hb, Hs. simpl. lia.
  - done.
Qed.

Lemma step_streaks_ok (st : GameState) (e : Event) :
  (bestStreak st < plain_limit)%Z →
  streaks_ok st → streaks_ok (step st e).
Proof.
  intros Hlt Hok. destruct e; simpl; try done.
  - by case_bool_decide.
  - by apply loadContinent_streaks_ok.
  - by apply guessLetter_streaks_ok.
  - by apply modalButton_streaks_ok.
  - unfold streaks_ok in *. simpl. lia.
Qed.

Lemma run_streaks_ok (st : GameState) (es : list Event) :
  streak_room (length es) st →
  streaks_ok st → streaks_ok (run st es).
Proof.
  revert st. induction es as [|e es IH]; intros st Hroom Hst; [done|].
  apply IH; [by apply step_streak_room|].
  apply step_streaks_ok; [|done]. by apply (streak_room_best (length (e :: es))).
Qed.

Lemma onload_streaks_ok (storage : Storage) : streaks_ok (onload storage).
Proof.
  unfold onload, streaks_ok.
  destruct (initializeAppUI_frame (gameState0 storage)) as (-> & _).
  simpl. lia.
Qed.

Lemma onload_streaks (storage : Storage) :
  currentStreak (onload storage) = 0%Z ∧
  bestStreak (onload storage) = default 0%Z (stored_best_streak storage).
Proof.
  unfold onload.
  by destruct (initializeAppUI_frame (gameState0 storage)) as (-> & -> & _).
Qed.

(** X6: the bounds of the current streak.  In every state that a session
    can reach the current streak is not negative.  In a session whose streaks
    cannot reach 10^21, which a session of [n] events from a stored best
    streak [b] is when [max 0 b + n] is below 10^21, the current streak is,
    unless it is 0, not above the best streak; and when the stored best streak
    is not negative (or there is none) the current streak is never above the
    best one, which is never below the stored one. *)
Theorem currentStreak_bounds (storage : Storage) (es : list Event) :
  let st := run (onload storage) es in
  (0 ≤ currentStreak st)%Z ∧
  ((Z.max 0 (default 0 (stored_best_streak storage)) + Z.of_nat (length es)
    < plain_limit)%Z →
   (currentStreak st ≤ bestStreak st ∨ currentStreak st = 0)%Z ∧
   ((0 ≤ default 0 (stored_best_streak storage))%Z →
    (currentStreak st ≤ bestStreak st)%Z ∧
    (default 0 (stored_best_streak storage) ≤ bestStreak st)%Z)).
Proof.
  intros st. destruct (onload_streaks storage) as [Hc Hb].
  split.
  { apply run_nonneg. rewrite Hc. lia. }
  intros Hshort.
  assert (streak_room (length es) (onload storage)) as Hroom.
  { unfold streak_room, streak_top. rewrite Hc, Hb. lia. }
  pose proof (run_streaks_ok (onload storage) es Hroom (onload_streaks_ok storage)) as Hok.
  fold st in Hok. unfold streaks_ok in Hok.
  split; [lia|].
  intros Hstored.
  destruct (run_streak_step (onload storage) es Hroom) as (Hmono & _). fold st in Hmono.
  lia.
Qed.

End TwoStreaks.

Lemma currentStreak_bounds_witness :
  let st := @run latin1 (onload empty_storage) (conquest "Asia") in
  (Z.max 0 (default 0 (stored_best_streak empty_storage))
   + Z.of_nat (length (conquest "Asia")) < plain_limit)%Z ∧
  (0 ≤ default 0 (stored_best_streak empty_storage))%Z ∧
  (currentStreak st ≤ bestStreak st)%Z.
Proof.
  assert (Z.max 0 (default 0 (stored_best_streak empty_storage))
          + Z.of_nat (length (conquest "Asia")) < plain_limit)%Z as Hshort by by vm_compute.
  assert (0 ≤ default 0 (stored_best_streak empty_storage))%Z as Hstored by done.
  split; [exact Hshort|]. split; [exact Hstored|].
  apply (proj1 (proj2 (proj2 (@currentStreak_bounds latin1 empty_storage (conquest "Asia"))
                         Hshort) Hstored)).
Defined.

(** ** A country won *)

Lemma array_push_length (l : nat) (x : jsstring) (heap : list (list jsstring)) :
  length (array_push l x heap) = length heap.
Proof. unfold array_push. apply length_alter. Qed.

Lemma array_push_get (l : nat) (x : jsstring) (heap : list (list jsstring)) :
  l < length heap → array_get l (array_push l x heap) = array_get l heap ++ [x].
Proof.
  intros Hl. unfold array_get, array_push. rewrite list_lookup_alter_eq.
  destruct (lookup_lt_is_Some_2 heap l Hl) as [a ->]. done.
Qed.

Lemma mark_dominated_spec (k : jsstring) (st : GameState) (i : nat) (c : Country) :
  countries st !! i = Some c → key c = k →
  (∀ j y, countries st !! j = Some y → j < i → key y ≠ k) →
  mark_dominated k st
  = set_arrays (array_push (dominated st) (name c) (arrays st))
      (set_countries (<[i := marked c]> (countries st)) st).
Proof.
  intros Hi Hk Hfirst. unfold mark_dominated.
  assert (list_find (λ c, key c = k) (countries st) = Some (i, c)) as ->; [|done].
  apply list_find_Some. split; [done|]. split; [done|]. intros j y Hj Hlt.
  by apply (Hfirst j y).
Qed.

Lemma mark_dominated_heap (k : jsstring) (st : GameState) :
  dominated (mark_dominated k st) = dominated st ∧
  length (arrays (mark_dominated k st)) = length (arrays st).
Proof.
  unfold mark_dominated. destruct (list_find _ _) as [[i c]|]; [|done].
  simpl. by rewrite array_push_length.
Qed.

Lemma win_country_spec (st : GameState) (cur : Country) (i : nat) :
  currentCountry st = Some cur → countries st !! i = Some cur →
  (∀ j y, countries st !! j = Some y → j < i → key y ≠ key cur) →
  let st' := win_country st in
  countries st' = <[i := marked cur]> (countries st) ∧
  arrays st' = array_push (dominated st) (name cur) (arrays st) ∧
  dominated st' = dominated st ∧
  continentStatus st'
  = <[currentContinent st := StatusObject "in-progress" (dominated st)]> (continentStatus st) ∧
  localStorage st'
  = {| stored_best_streak := Some (parseInt_toString (bestStreak st'));
       stored_continent_status :=
         Some (stringify_status (arrays st') <$> continentStatus st') |}.
Proof.
  intros Hcur Hi Hfirst st'. subst st'. unfold win_country.
  set (st2 := set_currentStreak _ _).
  destruct (renderStreak_round st2) as (_ & _ & _ & _ & Hc & _).
  destruct (renderStreak_session st2) as (Hcs & Hd & Ha & Hst & Hcc & _).
  revert Hc Hcs Hd Ha Hst Hcc. generalize (renderStreak st2). subst st2. simpl.
  intros st3 Hc Hcs Hd Ha Hst Hcc. rewrite Hc, Hcur.
  rewrite (mark_dominated_spec (key cur) st3 i cur); [|by rewrite Hcs|done|by rewrite Hcs].
  simpl. by rewrite Hcs, Hd, Ha, Hst, Hcc.
Qed.

Lemma win_country_heap (st : GameState) :
  dominated (win_country st) = dominated st ∧
  length (arrays (win_country st)) = length (arrays st).
Proof.
  unfold win_country.
  set (st2 := set_currentStreak _ _).
  destruct (renderStreak_session st2) as (_ & Hd & Ha & _).
  revert Hd Ha. generalize (renderStreak st2). subst st2. simpl.
  intros st3 Hd Ha.
  destruct (currentCountry st3) as [cur|]; [|by rewrite Hd, Ha].
  destruct (mark_dominated_heap (key cur) st3) as [Hd4 Ha4].
  simpl. by rewrite Hd4, Ha4, Hd, Ha.
Qed.

Lemma checkGameStatus_heap (st : GameState) :
  dominated (checkGameStatus st) = dominated st ∧
  length (arrays (checkGameStatus st)) = length (arrays st).
Proof.
  unfold checkGameStatus.
  destruct (isGameActive st); simpl; [|done].
  destruct (correctlyGuessed st); [apply win_country_heap|].
  destruct (troops st <=? 0)%Z; [|done].
  unfold lose_game. simpl. by destruct (currentCountry st).
Qed.

Lemma record_guess_heap (u : jsstring) (st : GameState) :
  dominated (record_guess u st) = dominated st ∧
  arrays (record_guess u st) = arrays st.
Proof.
  unfold record_guess. simpl. destruct (includes (targetWord st) u); [done|].
  set (st3 := set_currentStreak _ _).
  by destruct (renderStreak_session st3) as (_ & -> & -> & _).
Qed.

Lemma dominated_in_range_frame (st st' : GameState) :
  dominated st' = dominated st → length (arrays st') = length (arrays st) →
  dominated_in_range st → dominated_in_range st'.
Proof. unfold dominated_in_range. by intros -> ->. Qed.

Lemma load_continent_status_heap (status : gmap string StoredStatus) (st : GameState)
    (c : string) :
  dominated (load_continent_status status st c) = dominated st ∧
  length (arrays st) ≤ length (arrays (load_continent_status status st c)).
Proof.
  unfold load_continent_status. destruct (status !! c) as [[s|s names]|]; [| |done].
  - by case_bool_decide.
  - simpl. rewrite length_app. split; [done|lia].
Qed.

Lemma load_loop_heap (status : gmap string StoredStatus) (l : list string) (st : GameState) :
  dominated (foldl (load_continent_status status) st l) = dominated st ∧
  length (arrays st) ≤ length (arrays (foldl (load_continent_status status) st l)).
Proof.
  revert st. induction l as [|a l IH]; intros st; [done|]. cbn [foldl].
  destruct (IH (load_continent_status status st a)) as [-> Hle].
  destruct (load_continent_status_heap status st a) as [-> Hle']. split; [done|lia].
Qed.

Lemma initialize_continent_arrays (st : GameState) (c : string) :
  arrays (initialize_continent st c) = arrays st.
Proof.
  unfold initialize_continent. destruct (continentStatus st !! c) as [[s|s l]|]; [|done..].
  by destruct (_ || _).
Qed.

Lemma initializeAppUI_heap (st : GameState) :
  dominated (initializeAppUI st) = dominated st ∧
  length (arrays st) ≤ length (arrays (initializeAppUI st)).
Proof.
  destruct (initializeAppUI_frame st) as (_&_&_&_&_&_&_&Hd&_). split; [done|].
  unfold initializeAppUI, showView. cbn [arrays set_currentView].
  rewrite (foldl_project arrays initialize_continent CONTINENTS
             (loadGameStateFromStorage st) initialize_continent_arrays).
  unfold loadGameStateFromStorage.
  set (st1 := match stored_best_streak _ with Some z => _ | None => st end).
  assert (arrays st1 = arrays st) as <- by (subst st1; by destruct (stored_best_streak _)).
  destruct (stored_continent_status (localStorage st1)) as [status|]; [|done].
  apply load_loop_heap.
Qed.

Lemma global_reset_in_range (st : GameState) :
  dominated_in_range st → dominated_in_range (global_reset st).
Proof.
  unfold dominated_in_range, global_reset. intros Hst.
  pose proof (reset_loop_fields CONTINENTS st) as Hf1.
  pose proof (reset_loop_arrays CONTINENTS st) as Ha1.
  revert Hf1 Ha1. generalize (foldl (λ st c, set_continentStatus
    (<[c := StatusString "available"]> (continentStatus st)) st) st CONTINENTS).
  intros st1 Hf1 Ha1.
  apply game_fields_eq in Hf1 as (_&_&_&_&_&_&_&Hd1&_).
  destruct (initializeAppUI_heap (saveGameStateToStorage st1)) as [Hd3 Ha3].
  revert Hd3 Ha3. generalize (initializeAppUI (saveGameStateToStorage st1)).
  intros st3 Hd3 Ha3. simpl in *. rewrite Ha1 in Ha3. lia.
Qed.

Section CountryWon.
Context `{Platform}.

Lemma guessLetter_in_range (letter : jsstring) (st : GameState) :
  dominated_in_range st → dominated_in_range (guessLetter letter st).
Proof.
  intros Hst. unfold guessLetter. destruct (isGameActive st); simpl; [|done].
  case_bool_decide; [done|].
  destruct (checkGameStatus_heap (record_guess (toUpperCase letter) st)) as [Hd Ha].
  destruct (record_guess_heap (toUpperCase letter) st) as [Hd' Ha'].
  apply (dominated_in_range_frame st); congruence.
Qed.

Lemma newRound_in_range (pick : nat) (st : GameState) :
  dominated_in_range st → dominated_in_range (newRound pick st).
Proof.
  destruct (newRound_session pick st) as (_ & Hd & Ha).
  apply dominated_in_range_frame; congruence.
Qed.

Lemma loadContinent_in_range (continent : string) (response : option (list ApiCountry))
    (pick : nat) (st : GameState) :
  dominated_in_range st → dominated_in_range (loadContinent continent response pick st).
Proof.
  intros Hst. unfold loadContinent. destruct response as [data|]; [|done].
  case_bool_decide; [done|].
  apply newRound_in_range. unfold dominated_in_range. simpl. rewrite length_app. simpl. lia.
Qed.

Lemma modalButton_in_range (pick : nat) (st : GameState) :
  dominated_in_range st → dominated_in_range (modalButton pick st).
Proof.
  intros Hst. unfold modalButton. destruct (modal st) as [m|]; [|done].
  destruct (modalAction m).
  - by apply newRound_in_range.
  - by apply global_reset_in_range.
  - done.
Qed.

Lemma step_in_range (st : GameState) (e : Event) :
  dominated_in_range st → dominated_in_range (step st e).
Proof.
  intros Hst. destruct e; simpl; try done.
  - by case_bool_decide.
  - by apply loadContinent_in_range.
  - by apply guessLetter_in_range.
  - by apply modalButton_in_range.
Qed.

Lemma run_in_range (st : GameState) (es : list Event) :
  dominated_in_range st → dominated_in_range (run st es).
Proof.
  revert st. induction es as [|e es IH]; intros st Hst; [done|].
  apply IH. by apply step_in_range.
Qed.

Lemma onload_in_range (storage : Storage) : dominated_in_range (onload storage).
Proof.
  unfold onload, dominated_in_range.
  destruct (initializeAppUI_heap (gameState0 storage)) as [-> Hle].
  revert Hle. generalize (initializeAppUI (gameState0 storage)). intros st.
  unfold gameState0. cbn [dominated arrays length]. lia.
Qed.

(** X7: what a country won leaves behind.  In a session the array of
    dominated names always exists.  When [checkGameStatus] finds the word
    complete and the current country is the first of the list with its key,
    that country and no other is marked dominated, its name is appended to
    the dominated names, the status of the current continent becomes the
    in-progress object on that very array while the other statuses stay, and
    the storage holds the in-progress status with the names written out,
    beside the best streak as [toString] writes it: the best streak itself
    while that is below 10^21 in magnitude. *)
Theorem country_won_is_recorded :
  (∀ storage es, dominated_in_range (run (onload storage) es)) ∧
  (∀ st cur i,
     isGameActive st = true → currentCountry st = Some cur →
     word_complete (targetWord st) (guessedLetters st) →
     countries st !! i = Some cur →
     (∀ j y, countries st !! j = Some y → j < i → key y ≠ key cur) →
     dominated_in_range st →
     let st' := checkGameStatus st in
     let names := array_get (dominated st) (arrays st) ++ [name cur] in
     countries st' = <[i := marked cur]> (countries st) ∧
     dominated st' = dominated st ∧
     array_get (dominated st') (arrays st') = names ∧
     continentStatus st' !! currentContinent st
     = Some (StatusObject "in-progress" (dominated st')) ∧
     (∀ c, c ≠ currentContinent st → continentStatus st' !! c = continentStatus st !! c) ∧
     stored_continent_status (localStorage st') ≫= lookup (currentContinent st)
     = Some (StoredObject "in-progress" names) ∧
     stored_best_streak (localStorage st') = Some (parseInt_toString (bestStreak st')) ∧
     ((Z.abs (bestStreak st') < plain_limit)%Z →
      stored_best_streak (localStorage st') = Some (bestStreak st'))).
Proof.
  split; [intros storage es; apply run_in_range, onload_in_range|].
  intros st cur i Hact Hcur Hcomplete Hi Hfirst Hrange st' names.
  assert (st' = win_country st) as Hwin.
  { subst st'. unfold checkGameStatus. rewrite Hact. simpl.
    by rewrite (proj2 (correctlyGuessed_spec st) Hcomplete). }
  destruct (win_country_spec st cur i Hcur Hi Hfirst) as (Hcs & Ha & Hd & Hst & Hls).
  rewrite <- Hwin in Hcs, Ha, Hd, Hst, Hls. clearbody st'.
  assert (array_get (dominated st') (arrays st') = names) as Hnames.
  { rewrite Hd, Ha. by apply array_push_get. }
  split; [done|]. split; [done|]. split; [done|].
  split; [by rewrite Hst, lookup_insert_eq, Hd|].
  split; [intros c Hc; by rewrite Hst, lookup_insert_ne|].
  rewrite Hls. cbn [stored_continent_status stored_best_streak mbind option_bind].
  split; [|split; [done|intros Hplain; by rewrite parseInt_toString_plain]].
  rewrite lookup_fmap, Hst, lookup_insert_eq. simpl. by rewrite <- Hd, Hnames.
Qed.

End CountryWon.

Lemma country_won_is_recorded_witness :
  array_get (dominated (checkGameStatus peru_last_letter))
    (arrays (checkGameStatus peru_last_letter))
  = array_get (dominated peru_last_letter) (arrays peru_last_letter) ++ [name peru].
Proof.
  refine (proj1 (proj2 (proj2
    (proj2 (@country_won_is_recorded latin1) peru_last_letter peru 0 _ _ _ _ _ _)))).
  - by vm_compute.
  - by vm_compute.
  - apply correctlyGuessed_spec. by vm_compute.
  - by vm_compute.
  - intros j y _ Hj. lia.
  - unfold dominated_in_range. vm_compute. lia.
Defined.

(** ** The start of a round *)

Section RoundStart.
Context `{Platform}.

(** X8: [newRound] never starts a round on a dominated country.  While a
    country of the list is not dominated, the round starts on such a country
    of the list, with its cleaned name as the word, no guessed letter and 3
    troops, and neither a signal nor a status changes; the last country left
    is taken whatever the draw.  When every country is dominated (or the
    list is empty) no round starts: the current continent becomes dominated,
    this is saved, and the dialog of the continent or of the global victory
    is shown. *)
Theorem newRound_picks_undominated (pick : nat) (st : GameState) :
  let st' := newRound pick st in
  ((∃ c, c ∈ countries st ∧ isDominated c = false) →
   ∃ c, c ∈ countries st ∧ isDominated c = false ∧
        currentCountry st' = Some c ∧ targetWord st' = cleanWord (name c) ∧
        guessedLetters st' = ∅ ∧ troops st' = MAX_TROOPS ∧ isGameActive st' = true ∧
        signals st' = signals st ∧ continentStatus st' = continentStatus st) ∧
  (∀ c, List.filter (λ c, negb (isDominated c)) (countries st) = [c] →
        currentCountry st' = Some c) ∧
  ((∀ c, c ∈ countries st → isDominated c = true) →
   continentStatus st'
   = <[currentContinent st := StatusString "dominated"]> (continentStatus st) ∧
   saveCalls st' = S (saveCalls st) ∧
   (∃ sig, signals st' = sig :: signals st ∧
           (sig = GlobalVictory ∨ sig = ContinentConquered (currentContinent st))) ∧
   isGameActive st' = isGameActive st ∧ troops st' = troops st ∧
   countries st' = countries st).
Proof.
  intros st'. subst st'. unfold newRound.
  destruct (List.filter (λ c, negb (isDominated c)) (countries st))
    as [|c0 rest] eqn:Havailable.
  - split; [|split; [done|]].
    { intros (c & Hin & Hc). exfalso.
      assert (c ∈ List.filter (λ c, negb (isDominated c)) (countries st)) as Hc'.
      { apply list_elem_of_In, filter_In. split; [by apply list_elem_of_In|by rewrite Hc]. }
      rewrite Havailable in Hc'. by apply not_elem_of_nil in Hc'. }
    intros _.
    destruct (handleContinentWin_spec st) as (Hst & _ & Hs & Hsig & _ & _ & _ & Ht & Ha & Hc & _).
    split; [done|]. split; [done|]. split; [|done].
    eexists. split; [exact Hsig|]. destruct (forallb _ _); [by left|by right].
  - set (country := nth _ _ _).
    set (st5 := set_isGameActive _ _).
    destruct (renderStreak_round st5) as (Ht & Ha & Hg & Hw & Hc & _ & Hsig & _).
    destruct (renderStreak_session st5) as (_ & _ & _ & Hst & _).
    rewrite Ht, Ha, Hg, Hw, Hc, Hsig, Hst. subst st5. simpl.
    assert (country ∈ c0 :: rest) as Hin.
    { apply list_elem_of_In. subst country. apply nth_In, Nat.mod_upper_bound. done. }
    split; [|split].
    + intros _. exists country.
      rewrite <- Havailable in Hin.
      apply list_elem_of_In, filter_In in Hin as [Hin Hc'%negb_true_iff].
      by apply list_elem_of_In in Hin.
    + intros c [= -> ->]. by apply list_elem_of_singleton in Hin as ->.
    + intros Hall. exfalso.
      assert (c0 ∈ List.filter (λ c, negb (isDominated c)) (countries st)) as Hc0.
      { rewrite Havailable. by left. }
      apply list_elem_of_In, filter_In in Hc0 as [Hc0 Hd%negb_true_iff].
      apply list_elem_of_In, Hall in Hc0. congruence.
Qed.

(** X9: a word without letters.  When the cleaned name of the country is
    empty, the first letter guessed ends the round as won: it is not in the
    word, so it takes a troop and the streak, and the word being complete the
    country is won with a streak of 1. *)
Theorem empty_word_is_won_by_any_letter (letter : jsstring) (st : GameState) (cur : Country) :
  isGameActive st = true → currentCountry st = Some cur → targetWord st = [] →
  toUpperCase letter ≠ [] → toUpperCase letter ∉ guessedLetters st →
  let st' := guessLetter letter st in
  isGameActive st' = false ∧ troops st' = (troops st - 1)%Z ∧
  currentStreak st' = 1%Z ∧
  signals st' = CountryDominated (name cur) 1 :: signals st.
Proof.
  intros Hact Hcur Hword Hletter Hnew st'. subst st'.
  rewrite guessLetter_fresh by done.
  set (u := toUpperCase letter) in *.
  assert (includes (targetWord st) u = false) as Hinc.
  { rewrite Hword. destruct u; [done|]. done. }
  destruct (record_guess_wrong u st Hinc) as (Ht & Hs).
  destruct (record_guess_frame u st) as (Hg & Hw & Ha & Hc & Hsig).
  revert Ht Hs Hg Hw Ha Hc Hsig. generalize (record_guess u st).
  intros st1 Ht Hs Hg Hw Ha Hc Hsig.
  assert (correctlyGuessed st1 = true) as Hyes.
  { apply correctlyGuessed_spec. rewrite Hw, Hword. intros c Hin. by apply not_elem_of_nil in Hin. }
  assert (checkGameStatus st1 = win_country st1) as ->.
  { unfold checkGameStatus. by rewrite Ha, Hact, Hyes. }
  destruct (win_country_round st1) as (-> & -> & _ & _ & _ & ->).
  rewrite <- Hc in Hcur. destruct (win_country_signals st1 cur Hcur) as (-> & _).
  by rewrite Ht, Hs, Hsig.
Qed.

End RoundStart.

Lemma newRound_picks_undominated_witness :
  ∃ c, c ∈ countries americas_in_progress ∧ isDominated c = false ∧
       currentCountry (@newRound latin1 0 americas_in_progress) = Some c.
Proof.
  destruct (proj1 (@newRound_picks_undominated latin1 0 americas_in_progress))
    as (c & Hin & Hc & Hcur & _).
  - exists (@to_country latin1 chile_api). split; [|done].
    apply (bool_decide_unpack _). by vm_compute.
  - exists c. by split; [|split].
Defined.

Lemma empty_word_is_won_by_any_letter_witness :
  isGameActive unnamed_round = true ∧ targetWord unnamed_round = [] ∧
  currentStreak (@guessLetter latin1 (lit "q") unnamed_round) = 1%Z.
Proof.
  assert (isGameActive unnamed_round = true) as Hact by by vm_compute.
  assert (targetWord unnamed_round = []) as Hword by by vm_compute.
  split; [exact Hact|]. split; [exact Hword|].
  refine (proj1 (proj2 (proj2
    (@empty_word_is_won_by_any_letter latin1 (lit "q") unnamed_round
       (@to_country latin1 unnamed_api) Hact _ Hword _ _)))).
  - by vm_compute.
  - by vm_compute.
  - apply (bool_decide_unpack _). by vm_compute.
Defined.

(** * The page *)

(** ** The game behind the page *)

Lemma ui_renderWordDisplay_game (p : UI.Page) :
  UI.game (UI.renderWordDisplay p) = UI.game p.
Proof. unfold UI.renderWordDisplay. by case_bool_decide. Qed.

Lemma ui_renderKeyboard_game (p : UI.Page) : UI.game (UI.renderKeyboard p) = UI.game p.
Proof. reflexivity. Qed.

Lemma ui_renderTroops_game (p : UI.Page) : UI.game (UI.renderTroops p) = UI.game p.
Proof. reflexivity. Qed.

Lemma ui_renderStreak_game (p : UI.Page) :
  UI.game (UI.renderStreak p) = renderStreak (UI.game p).
Proof. reflexivity. Qed.

Section PageGame.
Context `{Platform}.

Lemma ui_newRound_game (pick : nat) (p : UI.Page) :
  UI.game (UI.newRound pick p) = newRound pick (UI.game p).
Proof.
  unfold UI.newRound, newRound.
  destruct (List.filter _ (countries (UI.game p))) as [|c0 rest]; [reflexivity|].
  rewrite ui_renderKeyboard_game, ui_renderWordDisplay_game, ui_renderStreak_game.
  rewrite ui_renderTroops_game. reflexivity.
Qed.

Lemma ui_win_country_game (p : UI.Page) :
  UI.game (UI.win_country p) = win_country (UI.game p).
Proof.
  unfold UI.win_country, win_country. cbv zeta.
  set (st2 := set_currentStreak _ _).
  pose proof (ui_renderStreak_game (UI.set_game st2 p)) as Hg.
  cbn [UI.game UI.set_game] in Hg.
  revert Hg. generalize (UI.renderStreak (UI.set_game st2 p)). intros p3 Hg.
  rewrite Hg. generalize dependent (renderStreak st2). intros st3 Hg.
  destruct (currentCountry st3); [reflexivity|exact Hg].
Qed.

Lemma ui_checkGameStatus_game (p : UI.Page) :
  UI.game (UI.checkGameStatus p) = checkGameStatus (UI.game p).
Proof.
  unfold UI.checkGameStatus, checkGameStatus.
  destruct (isGameActive (UI.game p)); simpl; [|done].
  destruct (correctlyGuessed (UI.game p)); [apply ui_win_country_game|].
  by destruct (troops (UI.game p) <=? 0)%Z.
Qed.

Lemma ui_record_guess_game (u : jsstring) (p : UI.Page) :
  UI.game (UI.record_guess u p) = record_guess u (UI.game p).
Proof.
  unfold UI.record_guess, record_guess. cbv zeta.
  cbn [UI.game UI.set_game targetWord set_guessedLetters].
  destruct (includes (targetWord (UI.game p)) u); reflexivity.
Qed.

Lemma ui_guessLetter_game (letter : jsstring) (p : UI.Page) :
  UI.game (UI.guessLetter letter p) = guessLetter letter (UI.game p).
Proof.
  unfold UI.guessLetter, guessLetter.
  destruct (isGameActive (UI.game p)); simpl; [|done].
  case_bool_decide; [done|].
  by rewrite ui_checkGameStatus_game, ui_renderWordDisplay_game, ui_renderTroops_game,
    ui_record_guess_game.
Qed.

Lemma ui_loadContinent_game (continent : string) (response : option (list ApiCountry))
    (pick : nat) (p : UI.Page) :
  UI.game (UI.loadContinent continent response pick p)
  = loadContinent continent response pick (UI.game p).
Proof.
  unfold UI.loadContinent, loadContinent. destruct response as [data|]; [|done].
  case_bool_decide; [done|]. by rewrite ui_newRound_game.
Qed.

Lemma ui_modalButton_game (pick : nat) (p : UI.Page) :
  UI.game (UI.modalButton pick p) = modalButton pick (UI.game p).
Proof.
  unfold UI.modalButton, modalButton. destruct (modal (UI.game p)) as [m|]; [|done].
  destruct (modalAction m); [|done..]. by rewrite ui_newRound_game.
Qed.

Lemma ui_click_game (button : UI.Button) (p : UI.Page) :
  UI.game (UI.click button p)
  = from_option (step (UI.game p)) (UI.game p) (guess_of button).
Proof.
  unfold UI.click, guess_of.
  destruct (negb (UI.disabled button) && UI.onclick button); [|done].
  apply ui_guessLetter_game.
Qed.

Lemma ui_step_game (p : UI.Page) (e : UI.Event) :
  UI.game (UI.step p e) = from_option (step (UI.game p)) (UI.game p) (game_event p e).
Proof.
  destruct e as [| | |continent|continent response pick| |i|k|pick|];
    cbn [UI.step game_event from_option step]; try done.
  - by case_bool_decide.
  - apply ui_loadContinent_game.
  - destruct (UI.keyboard p !! i) as [button|]; [|done]. apply ui_click_game.
  - unfold UI.keydown.
    destruct (bool_decide _ && isGameActive _); [|done].
    destruct (toUpperCase k) as [|c [|c' rest]]; [done| |done].
    destruct (is_upper_latin c); [|done].
    destruct (list_find _ _) as [[i button]|]; [|done].
    cbn [mbind option_bind snd]. rewrite <- ui_click_game.
    unfold UI.click. by destruct (UI.disabled button).
  - apply ui_modalButton_game.
Qed.

Lemma ui_run_game (p : UI.Page) (es : list UI.Event) :
  UI.game (UI.run p es) = run (UI.game p) (game_events p es).
Proof.
  revert p. induction es as [|e es IH]; intros p; [done|].
  cbn [UI.run foldl game_events]. fold (UI.run (UI.step p e) es).
  rewrite IH, ui_step_game.
  by destruct (game_event p e).
Qed.

End PageGame.

(** ** The page agrees with the game *)

Lemma alphabet_NoDup : NoDup UI.alphabet.
Proof. apply (bool_decide_unpack _). vm_compute. exact I. Qed.

Lemma alphabet_upper (u : jsstring) :
  u ∈ UI.alphabet → ∃ c, u = [c] ∧ is_upper_latin c = true.
Proof.
  assert (Forall (λ u, ∃ c, u = [c] ∧ is_upper_latin c = true) UI.alphabet) as Hall.
  { unfold UI.alphabet. apply Forall_fmap, Forall_forall. intros c Hc. by exists c; split;
      [|revert c Hc; apply Forall_forall, (bool_decide_unpack _); vm_compute]. }
  intros Hu. by apply (proj1 (Forall_forall _ _) Hall).
Qed.

Lemma alphabet_complete (c : N) : is_upper_latin c = true → [c] ∈ UI.alphabet.
Proof.
  unfold is_upper_latin. intros [Hlo Hhi]%andb_true_iff.
  apply N.leb_le in Hlo, Hhi.
  assert (UI.alphabet = (λ n, [N.of_nat n]) <$> seq 65 26) as -> by by vm_compute.
  apply list_elem_of_fmap. exists (N.to_nat c). split; [by rewrite N2Nat.id|].
  apply elem_of_seq. lia.
Qed.

Lemma update_button_map (u : jsstring) (f : UI.Button → UI.Button) (kb : list UI.Button) :
  NoDup (UI.data_letter <$> kb) →
  UI.update_button u f kb
  = (λ b, if bool_decide (UI.data_letter b = u) then f b else b) <$> kb.
Proof.
  induction kb as [|b kb IH]; intros Hnd; [done|].
  cbn [fmap list_fmap] in Hnd. apply NoDup_cons in Hnd as [Hb Hnd].
  unfold UI.update_button. cbn [list_find]. case_decide as Hu.
  - cbn. rewrite bool_decide_eq_true_2 by done. f_equal.
    trans (id <$> kb); [by rewrite list_fmap_id|].
    apply list_fmap_ext. intros i x Hx. rewrite bool_decide_eq_false_2; [done|].
    intros Hxu. apply Hb, list_elem_of_fmap. exists x. split; [congruence|].
    by apply list_elem_of_lookup_2 in Hx.
  - cbn [fmap list_fmap]. rewrite bool_decide_eq_false_2 by done.
    specialize (IH Hnd). unfold UI.update_button in IH.
    destruct (list_find _ kb) as [[i b']|]; cbn; by rewrite <- IH.
Qed.

Lemma page_ok_frame (p p' : UI.Page) :
  UI.keyboard p' = UI.keyboard p → UI.wordDisplay p' = UI.wordDisplay p →
  UI.troopsDisplay p' = UI.troopsDisplay p → UI.flagImage p' = UI.flagImage p →
  guessedLetters (UI.game p') = guessedLetters (UI.game p) →
  targetWord (UI.game p') = targetWord (UI.game p) →
  troops (UI.game p') = troops (UI.game p) →
  currentCountry (UI.game p') = currentCountry (UI.game p) →
  (isGameActive (UI.game p') = true →
   isGameActive (UI.game p) = true ∧
   currentStreak (UI.game p') = currentStreak (UI.game p) ∧
   UI.streakDisplay p' = UI.streakDisplay p) →
  page_ok p → page_ok p'.
Proof.
  intros Hk Hw Ht Hf Hg Hword Htr Hc Hact
    [(Hl & Hb & Hne & Ha) (Hd1 & Hd2 & Hd3 & Hd4 & Hd5)].
  unfold page_ok, keyboard_ok, displays_ok, button_ok in *. cbv zeta.
  rewrite Hk, Hw, Ht, Hf, Hg, Hword, Htr, Hc.
  split.
  - split; [done|]. split; [done|]. split; [|done].
    intros Hact'. apply Hne. by apply Hact.
  - split; [done|]. split; [intros Ha'; apply Hd2; by apply Hact|].
    split; [done|]. split; [|done].
    intros Ha'. destruct (Hact Ha') as (? & -> & ->). by apply Hd4.
Qed.

(** A change of the game that the page does not show. *)
Lemma page_ok_set_game (p : UI.Page) (st' : GameState) :
  guessedLetters st' = guessedLetters (UI.game p) →
  targetWord st' = targetWord (UI.game p) →
  troops st' = troops (UI.game p) →
  currentCountry st' = currentCountry (UI.game p) →
  (isGameActive st' = true →
   isGameActive (UI.game p) = true ∧ currentStreak st' = currentStreak (UI.game p)) →
  page_ok p → page_ok (UI.set_game st' p).
Proof.
  intros Hg Hw Ht Hc Hact. apply page_ok_frame; try done.
  intros Ha. destruct (Hact Ha) as [? ?]. by repeat split.
Qed.

Lemma page_ok_fields (p : UI.Page) (st' : GameState) :
  game_fields st' = game_fields (UI.game p) → page_ok p → page_ok (UI.set_game st' p).
Proof.
  unfold game_fields. intros [= ]. apply page_ok_set_game; try done.
  intros Ha. split; congruence.
Qed.

Lemma page_ok_handleContinentWin (p : UI.Page) :
  page_ok p → page_ok (UI.set_game (handleContinentWin (UI.game p)) p).
Proof.
  destruct (handleContinentWin_board (UI.game p)) as (Hw & Hg & Ht).
  destruct (handleContinentWin_round (UI.game p)) as (Hc & Ha).
  destruct (handleContinentWin_spec (UI.game p)) as (_&_&_&_&_&_&Hs&_).
  apply page_ok_set_game; try done. rewrite Ha. by intros ->.
Qed.

Lemma page_ok_global_reset (p : UI.Page) (st1 : GameState) :
  face st1 = face (UI.game p) →
  page_ok p → page_ok (UI.set_game (global_reset st1) p).
Proof.
  intros Hf.
  destruct (global_reset_board st1) as (Hw & Hg & Ht).
  destruct (global_reset_round st1) as (Hc & Ha).
  destruct (global_reset_spec st1) as (_&_&_&_&Hs&_).
  unfold face in Hf. injection Hf as ? ? ? ? ? ?.
  apply page_ok_set_game; try congruence.
  rewrite Ha. intros Hact. split; congruence.
Qed.

(** A page that has just been drawn for a round without guesses. *)
Lemma page_ok_rendered (q : UI.Page) :
  guessedLetters (UI.game q) = ∅ →
  UI.keyboard q = UI.keyboard_button (UI.game q) <$> UI.alphabet →
  UI.troopsDisplay q = Some (UI.troop_icons (troops (UI.game q))) →
  (targetWord (UI.game q) ≠ [] →
   UI.wordDisplay q
   = Some (UI.word_slot (guessedLetters (UI.game q)) <$> targetWord (UI.game q))) →
  UI.streakDisplay q = Some (currentStreak (UI.game q)) →
  UI.flagImage q = flag <$> currentCountry (UI.game q) →
  page_ok q.
Proof.
  intros Hg Hk Ht Hw Hs Hf. split.
  - unfold keyboard_ok. rewrite Hk. split; [right|split; [|split]].
    + rewrite <- list_fmap_compose. apply list_fmap_id.
    + apply Forall_fmap, Forall_forall. intros letter _.
      unfold button_ok, UI.keyboard_button. cbn. rewrite Hg.
      rewrite bool_decide_eq_false_2 by apply not_elem_of_empty. cbn.
      split; [done|]. split; [split; [done|by intros ?%not_elem_of_empty]|].
      split; (split; [done|by intros [?%not_elem_of_empty _]]).
    + intros _. done.
    + intros u. rewrite Hg. by intros ?%not_elem_of_empty.
  - unfold displays_ok. cbv zeta. rewrite Ht, Hs.
    split; [by intros shown [= <-]|]. split; [by eexists|]. done.
Qed.

Lemma ui_renderWordDisplay_fields (p : UI.Page) :
  UI.keyboard (UI.renderWordDisplay p) = UI.keyboard p ∧
  UI.troopsDisplay (UI.renderWordDisplay p) = UI.troopsDisplay p ∧
  UI.streakDisplay (UI.renderWordDisplay p) = UI.streakDisplay p ∧
  UI.flagImage (UI.renderWordDisplay p) = UI.flagImage p ∧
  (targetWord (UI.game p) ≠ [] →
   UI.wordDisplay (UI.renderWordDisplay p)
   = Some (UI.word_slot (guessedLetters (UI.game p)) <$> targetWord (UI.game p))) ∧
  (targetWord (UI.game p) = [] →
   UI.wordDisplay (UI.renderWordDisplay p) = UI.wordDisplay p).
Proof. unfold UI.renderWordDisplay. by case_bool_decide. Qed.

Lemma ui_win_country_fields (p : UI.Page) :
  UI.keyboard (UI.win_country p) = UI.keyboard p ∧
  UI.wordDisplay (UI.win_country p) = UI.wordDisplay p ∧
  UI.troopsDisplay (UI.win_country p) = UI.troopsDisplay p ∧
  UI.flagImage (UI.win_country p) = UI.flagImage p.
Proof.
  unfold UI.win_country. cbv zeta.
  set (st2 := set_currentStreak _ _).
  assert (UI.keyboard (UI.renderStreak (UI.set_game st2 p)) = UI.keyboard p ∧
          UI.wordDisplay (UI.renderStreak (UI.set_game st2 p)) = UI.wordDisplay p ∧
          UI.troopsDisplay (UI.renderStreak (UI.set_game st2 p)) = UI.troopsDisplay p ∧
          UI.flagImage (UI.renderStreak (UI.set_game st2 p)) = UI.flagImage p) as Hp3
    by done.
  revert Hp3. generalize (UI.renderStreak (UI.set_game st2 p)). intros p3 Hp3.
  by destruct (currentCountry (UI.game p3)).
Qed.

Lemma ui_checkGameStatus_cases (p : UI.Page) :
  UI.checkGameStatus p = p ∨
  isGameActive (UI.game (UI.checkGameStatus p)) = false ∧
  UI.keyboard (UI.checkGameStatus p) = UI.keyboard p ∧
  UI.wordDisplay (UI.checkGameStatus p) = UI.wordDisplay p ∧
  UI.troopsDisplay (UI.checkGameStatus p) = UI.troopsDisplay p ∧
  UI.flagImage (UI.checkGameStatus p) = UI.flagImage p.
Proof.
  unfold UI.checkGameStatus.
  destruct (isGameActive (UI.game p)); simpl; [|by left].
  destruct (correctlyGuessed (UI.game p)).
  { right. rewrite ui_win_country_game.
    destruct (win_country_round (UI.game p)) as (_ & -> & _).
    split; [done|]. apply ui_win_country_fields. }
  destruct (troops (UI.game p) <=? 0)%Z; [|by left].
  right. cbn [UI.game UI.set_game].
  by destruct (lose_game_round (UI.game p)) as (_ & -> & _).
Qed.

Section PageInvariant.
Context `{Platform}.
Hypothesis upper_fixed : ∀ c, is_upper_latin c = true → toUpperCase [c] = [c].

Lemma ui_checkGameStatus_ok (p : UI.Page) :
  page_ok p → page_ok (UI.checkGameStatus p).
Proof.
  intros Hok.
  destruct (ui_checkGameStatus_cases p) as [->|(Ha & Hk & Hw & Ht & Hf)]; [done|].
  pose proof (ui_checkGameStatus_game p) as Hgame.
  destruct (checkGameStatus_round (UI.game p)) as (Htr & Hg & Hword & Hc).
  rewrite <- Hgame in Htr, Hg, Hword, Hc.
  apply (page_ok_frame p); try done.
  rewrite Ha. done.
Qed.

Lemma ui_newRound_ok (pick : nat) (p : UI.Page) :
  page_ok p → page_ok (UI.newRound pick p).
Proof.
  intros Hok. pose proof (ui_newRound_game pick p) as Hgame.
  unfold UI.newRound in *. unfold newRound in Hgame.
  destruct (List.filter _ (countries (UI.game p))) as [|c0 rest];
    [by apply page_ok_handleContinentWin|].
  cbv zeta in *.
  set (country := nth _ _ _) in *.
  set (st5 := set_isGameActive _ _) in *.
  set (p1 := UI.set_flagImage _ _) in *.
  destruct (renderStreak_round st5) as (Ht & Ha & Hg & Hw & Hc & Hs & _).
  rewrite <- Hgame in Ht, Ha, Hg, Hw, Hc, Hs.
  destruct (ui_renderWordDisplay_fields (UI.renderStreak (UI.renderTroops p1)))
    as (Hk1 & Ht1 & Hs1 & Hf1 & Hw1 & _).
  rewrite ui_renderStreak_game, ui_renderTroops_game in Hw1.
  assert (UI.game p1 = st5) as Hp1 by done.
  rewrite Hp1 in Hw1.
  destruct (renderStreak_round st5) as (_ & _ & Hg5 & Hw5 & _).
  rewrite Hg5, Hw5 in Hw1.
  revert Hgame Ht Ha Hg Hw Hc Hs Hk1 Ht1 Hs1 Hf1 Hw1.
  generalize (UI.renderWordDisplay (UI.renderStreak (UI.renderTroops p1))).
  intros q Hgame Ht Ha Hg Hw Hc Hs Hk1 Ht1 Hs1 Hf1 Hw1.
  unfold UI.renderKeyboard in *. cbn [UI.set_keyboard UI.game] in *.
  apply page_ok_rendered;
    cbn [UI.set_keyboard UI.game UI.keyboard UI.troopsDisplay UI.wordDisplay
         UI.streakDisplay UI.flagImage].
  - by rewrite Hg.
  - done.
  - by rewrite Ht1, Ht.
  - intros Hne. rewrite Hg, Hw. apply Hw1. by rewrite <- Hw.
  - by rewrite Hs1, Hs.
  - by rewrite Hf1, Hc.
Qed.

Lemma page_ok_keyboard (p : UI.Page) (kb' : list UI.Button) :
  UI.data_letter <$> kb' = UI.data_letter <$> UI.keyboard p →
  Forall (button_ok (UI.game p)) kb' →
  page_ok p → page_ok (UI.set_keyboard kb' p).
Proof.
  intros Hletters Hall [(Hl & Hb & Hne & Ha) Hd]. split; [|done].
  unfold keyboard_ok. cbn [UI.set_keyboard UI.keyboard UI.game].
  split; [|split; [done|split; [|done]]].
  - destruct Hl as [Hl|Hl]; [left|right; congruence].
    rewrite Hl in Hletters. by apply fmap_nil_inv in Hletters.
  - intros Hact ->. apply (Hne Hact). symmetry in Hletters.
    by apply fmap_nil_inv in Hletters.
Qed.

Lemma ui_record_guess_fields (u : jsstring) (p : UI.Page) :
  let q := UI.record_guess u p in
  let right := includes (targetWord (UI.game p)) u in
  UI.wordDisplay q = UI.wordDisplay p ∧ UI.troopsDisplay q = UI.troopsDisplay p ∧
  UI.flagImage q = UI.flagImage p ∧
  UI.keyboard q
  = UI.update_button u
      (if right then UI.add_guessed_correct else UI.add_guessed_incorrect) (UI.keyboard p) ∧
  UI.streakDisplay q = if right then UI.streakDisplay p else Some 0%Z.
Proof.
  unfold UI.record_guess. cbv zeta.
  cbn [UI.game UI.set_game targetWord set_guessedLetters].
  by destruct (includes (targetWord (UI.game p)) u).
Qed.

Lemma ui_guessLetter_ok (letter : jsstring) (p : UI.Page) :
  letter ∈ UI.alphabet → page_ok p → page_ok (UI.guessLetter letter p).
Proof.
  intros Hletter Hok.
  destruct (alphabet_upper letter Hletter) as (c & -> & Hc).
  unfold UI.guessLetter. destruct (isGameActive (UI.game p)) eqn:Hact; [|done].
  cbn [negb]. rewrite (upper_fixed c Hc). cbv zeta.
  pose proof Hok as [(Hl & Hb & Hne & Ha) (Hd1 & Hd2 & Hd3 & Hd4 & Hd5)].
  assert (UI.data_letter <$> UI.keyboard p = UI.alphabet) as Hletters.
  { destruct Hl as [Hl|Hl]; [by destruct (Hne Hact)|done]. }
  assert (NoDup (UI.data_letter <$> UI.keyboard p)) as Hnd.
  { rewrite Hletters. apply alphabet_NoDup. }
  rewrite update_button_map by done.
  set (kb1 := _ <$> UI.keyboard p).
  assert (UI.data_letter <$> kb1 = UI.data_letter <$> UI.keyboard p) as Hletters1.
  { subst kb1. rewrite <- list_fmap_compose. apply list_fmap_ext.
    intros i b _. simpl. by case_bool_decide. }
  cbn [UI.game UI.set_keyboard].
  case_bool_decide as Hin.
  { apply page_ok_keyboard; [done| |done].
    subst kb1. apply Forall_fmap. eapply Forall_impl; [exact Hb|].
    intros b (Hon & Hdis & Hcor & Hinc). simpl.
    case_bool_decide as Hbc; [|done].
    unfold button_ok. cbn. split; [done|]. split; [|done].
    rewrite Hbc. by split. }
  apply ui_checkGameStatus_ok.
  destruct (ui_record_guess_fields [c] (UI.set_keyboard kb1 p))
    as (Hw1 & Ht1 & Hf1 & Hk1 & Hs1).
  pose proof (ui_record_guess_game [c] (UI.set_keyboard kb1 p)) as Hg1.
  cbn [UI.game UI.set_keyboard UI.keyboard UI.wordDisplay UI.troopsDisplay UI.flagImage
       UI.streakDisplay] in Hg1, Hw1, Ht1, Hf1, Hk1, Hs1.
  rewrite update_button_map in Hk1 by by rewrite Hletters1.
  destruct (record_guess_frame [c] (UI.game p)) as (Hg & Hw & Hact1 & Hcur & _).
  assert (troops (record_guess [c] (UI.game p))
          = (if includes (targetWord (UI.game p)) [c]
             then troops (UI.game p) else troops (UI.game p) - 1)%Z ∧
          currentStreak (record_guess [c] (UI.game p))
          = if includes (targetWord (UI.game p)) [c]
            then currentStreak (UI.game p) else 0%Z) as [Htr Hst].
  { destruct (includes (targetWord (UI.game p)) [c]) eqn:Hinc.
    - by destruct (record_guess_right _ _ Hinc) as (-> & -> & _).
    - by destruct (record_guess_wrong _ _ Hinc) as (-> & ->). }
  rewrite <- Hg1 in Hg, Hw, Hact1, Hcur, Htr, Hst.
  revert Hw1 Ht1 Hf1 Hk1 Hs1 Hg Hw Hact1 Hcur Htr Hst. clear Hg1.
  generalize (UI.record_guess [c] (UI.set_keyboard kb1 p)).
  intros q Hw1 Ht1 Hf1 Hk1 Hs1 Hg Hw Hact1 Hcur Htr Hst.
  destruct (ui_renderWordDisplay_fields (UI.renderTroops q))
    as (Hk2 & Ht2 & Hs2 & Hf2 & Hw2 & Hw2').
  pose proof (ui_renderWordDisplay_game (UI.renderTroops q)) as Hg2.
  cbn [UI.renderTroops UI.set_troopsDisplay UI.game UI.keyboard UI.troopsDisplay
       UI.streakDisplay UI.flagImage UI.wordDisplay] in Hk2, Ht2, Hs2, Hf2, Hw2, Hw2', Hg2.
  revert Hk2 Ht2 Hs2 Hf2 Hw2 Hw2' Hg2.
  generalize (UI.renderWordDisplay (UI.renderTroops q)).
  intros r Hk2 Ht2 Hs2 Hf2 Hw2 Hw2' Hg2.
  split.
  - unfold keyboard_ok. rewrite Hk2, Hk1, Hg2, Hg, Hact1.
    split; [right|split; [|split]].
    + rewrite <- list_fmap_compose, <- Hletters, <- Hletters1.
      apply list_fmap_ext. intros i b _. simpl. by destruct (includes _ _), (bool_decide _).
    + subst kb1. rewrite <- list_fmap_compose.
      apply Forall_fmap. eapply Forall_impl; [exact Hb|].
      intros b (Hon & Hdis & Hcor & Hinc). unfold button_ok. rewrite Hg, Hw. simpl.
      destruct (decide (UI.data_letter b = [c])) as [Hbc|Hbc].
      * rewrite (bool_decide_eq_true_2 _ Hbc). cbn [UI.set_disabled UI.data_letter].
        rewrite (bool_decide_eq_true_2 _ Hbc).
        rewrite Hbc in Hcor, Hinc, Hdis.
        assert (UI.guessed_correct b = false) as Hno1.
        { destruct (UI.guessed_correct b); [|done]. by destruct (proj1 Hcor eq_refl). }
        assert (UI.guessed_incorrect b = false) as Hno2.
        { destruct (UI.guessed_incorrect b); [|done]. by destruct (proj1 Hinc eq_refl). }
        assert ([c] ∈ ({[ [c] ]} ∪ guessedLetters (UI.game p) : gset jsstring)) as Hnow
          by (apply elem_of_union; left; by apply elem_of_singleton).
        destruct (includes (targetWord (UI.game p)) [c]) eqn:Hright; cbn;
          rewrite Hbc, ?Hno1, ?Hno2, Hright;
          (split; [done|]); (split; [done|]); split; split; try done;
          by intros [_ ?].
      * rewrite (bool_decide_eq_false_2 _ Hbc).
        rewrite (bool_decide_eq_false_2 _ Hbc).
        assert (∀ X : gset jsstring,
                  UI.data_letter b ∈ {[ [c] ]} ∪ X ↔ UI.data_letter b ∈ X) as Hsame.
        { intros X. rewrite elem_of_union, elem_of_singleton. tauto. }
        rewrite !Hsame. done.
    + intros _. intros Hnil. apply (Hne Hact).
      apply fmap_nil_inv in Hnil. subst kb1. by apply fmap_nil_inv in Hnil.
    + intros u [->%elem_of_singleton|Hu]%elem_of_union; [done|by apply Ha].
  - unfold displays_ok. cbv zeta. rewrite Ht2, Hs2, Hf2, Hg2, Hg, Hw, Htr, Hact1, Hst, Hcur.
    rewrite Hs1, Hf1.
    split; [by intros shown [= <-]|]. split; [by eexists|].
    split; [intros Hne'; rewrite Hw2; rewrite ?Hw, ?Hg; done|].
    split; [|done]. intros _.
    destruct (includes (targetWord (UI.game p)) [c]); [by apply Hd4|done].
Qed.

Lemma ui_click_ok (button : UI.Button) (p : UI.Page) :
  button ∈ UI.keyboard p → page_ok p → page_ok (UI.click button p).
Proof.
  intros Hin Hok. unfold UI.click.
  destruct (negb (UI.disabled button) && UI.onclick button); [|done].
  apply ui_guessLetter_ok; [|done].
  destruct Hok as [(Hl & _) _]. destruct Hl as [Hl|Hl].
  - rewrite Hl in Hin. by apply not_elem_of_nil in Hin.
  - rewrite <- Hl. apply list_elem_of_fmap. by exists button.
Qed.

Lemma ui_loadContinent_ok (continent : string) (response : option (list ApiCountry))
    (pick : nat) (p : UI.Page) :
  page_ok p → page_ok (UI.loadContinent continent response pick p).
Proof.
  intros Hok. unfold UI.loadContinent. destruct response as [data|]; [|done].
  case_bool_decide; [by apply page_ok_set_game|].
  apply ui_newRound_ok.
  set (st1 := set_countries _ (UI.game p)).
  destruct (merge_dominated_board continent st1) as (Hw & Hg & Ht).
  destruct (merge_dominated_round continent st1) as (Hc & Ha).
  assert (currentStreak (merge_dominated continent st1) = currentStreak st1) as Hs.
  { unfold merge_dominated.
    destruct (continentStatus st1 !! continent) as [[s|s stored]|]; [done| |done].
    by destruct (remark_dominated _ _ _ _). }
  revert Hw Hg Ht Hc Ha Hs. generalize (merge_dominated continent st1). subst st1.
  cbn [targetWord guessedLetters troops currentCountry isGameActive currentStreak
       set_countries].
  intros st2 Hw Hg Ht Hc Ha Hs.
  apply page_ok_set_game; cbn; try done. rewrite Ha. by intros ->.
Qed.

Lemma ui_modalButton_ok (pick : nat) (p : UI.Page) :
  page_ok p → page_ok (UI.modalButton pick p).
Proof.
  intros Hok. unfold UI.modalButton. destruct (modal (UI.game p)) as [m|]; [|done].
  destruct (modalAction m).
  - apply ui_newRound_ok. by apply page_ok_set_game.
  - by apply page_ok_global_reset.
  - by apply page_ok_set_game.
Qed.

Lemma ui_step_ok (p : UI.Page) (e : UI.Event) : page_ok p → page_ok (UI.step p e).
Proof.
  intros Hok.
  destruct e as [| | |continent|continent response pick| |i|k|pick|]; cbn [UI.step].
  - by apply page_ok_fields.
  - by apply page_ok_fields.
  - by apply page_ok_fields.
  - case_bool_decide; [done|]. by apply page_ok_fields.
  - by apply ui_loadContinent_ok.
  - by apply page_ok_fields.
  - destruct (UI.keyboard p !! i) as [button|] eqn:Hi; [|done].
    apply ui_click_ok; [|done]. by apply list_elem_of_lookup_2 in Hi.
  - unfold UI.keydown.
    destruct (bool_decide _ && isGameActive _); [|done].
    destruct (toUpperCase k) as [|c [|c' rest]]; [done| |done].
    destruct (is_upper_latin c); [|done].
    destruct (list_find _ _) as [[i button]|] eqn:Hfind; [|done].
    destruct (UI.disabled button); [done|]. cbn [negb].
    apply ui_click_ok; [|done].
    apply list_find_Some in Hfind as (Hi & _). by apply list_elem_of_lookup_2 in Hi.
  - by apply ui_modalButton_ok.
  - by apply page_ok_set_game.
Qed.

Lemma ui_run_ok (p : UI.Page) (es : list UI.Event) : page_ok p → page_ok (UI.run p es).
Proof.
  revert p. induction es as [|e es IH]; intros p Hok; [done|].
  apply IH. by apply ui_step_ok.
Qed.

Lemma onload_face (storage : Storage) :
  guessedLetters (onload storage) = ∅ ∧ targetWord (onload storage) = [] ∧
  currentCountry (onload storage) = None ∧ isGameActive (onload storage) = false.
Proof.
  unfold onload.
  pose proof (initializeAppUI_fields (gameState0 storage)) as Hf.
  revert Hf. generalize (initializeAppUI (gameState0 storage)). intros st Hf.
  unfold game_fields, gameState0 in Hf.
  cbn [set_bestStreak currentStreak bestStreak currentContinent countries dominated
       currentCountry targetWord guessedLetters troops isGameActive localStorage saveCalls
       modal signals] in Hf.
  by injection Hf as _ _ _ _ _ -> -> -> _ -> _ _ _ _.
Qed.

Lemma ui_onload_ok (storage : Storage) : page_ok (UI.onload storage).
Proof.
  destruct (onload_face storage) as (Hg & Hw & Hc & Ha).
  split.
  - unfold keyboard_ok. cbn [UI.onload UI.keyboard UI.game].
    split; [by left|]. split; [by constructor|]. rewrite Ha, Hg.
    split; [done|]. by intros u ?%not_elem_of_empty.
  - unfold displays_ok. cbv zeta. cbn [UI.onload UI.troopsDisplay UI.wordDisplay
      UI.streakDisplay UI.flagImage UI.game]. rewrite Ha, Hw, Hc.
    by repeat split.
Qed.

Lemma game_event_letter (p : UI.Page) (e : UI.Event) (letter : jsstring) :
  page_ok p → game_event p e = Some (ClickKey letter) → letter ∈ UI.alphabet.
Proof.
  intros [(Hl & _) _] He.
  assert (∀ b, b ∈ UI.keyboard p → guess_of b = Some (ClickKey letter) →
               letter ∈ UI.alphabet) as Hguess.
  { intros b Hb. unfold guess_of. destruct (_ && _); [|done]. intros [= <-].
    destruct Hl as [Hl|Hl]; [rewrite Hl in Hb; by apply not_elem_of_nil in Hb|].
    rewrite <- Hl. apply list_elem_of_fmap. by exists b. }
  destruct e as [| | |continent|continent response pick| |i|k|pick|];
    cbn [game_event] in He; try done.
  - destruct (UI.keyboard p !! i) as [b|] eqn:Hi; [|done].
    apply (Hguess b); [|done]. by apply list_elem_of_lookup_2 in Hi.
  - destruct (bool_decide _ && isGameActive _); [|done].
    destruct (toUpperCase k) as [|c [|c' rest]]; [done| |done].
    destruct (is_upper_latin c); [|done].
    destruct (list_find _ _) as [[i b]|] eqn:Hfind; [|done].
    apply list_find_Some in Hfind as (Hi & _).
    apply (Hguess b); [|done]. by apply list_elem_of_lookup_2 in Hi.
Qed.

Lemma game_events_letters (p : UI.Page) (es : list UI.Event) :
  page_ok p →
  Forall (λ e, ∀ letter, e = ClickKey letter → letter ∈ UI.alphabet) (game_events p es).
Proof.
  revert p. induction es as [|e es IH]; intros p Hok; [by constructor|].
  cbn [game_events]. specialize (IH (UI.step p e) (ui_step_ok p e Hok)).
  destruct (game_event p e) as [e'|] eqn:He; [|done].
  constructor; [|done]. intros letter ->. by apply (game_event_letter p e).
Qed.

Lemma troop_icons_count (t : Z) :
  (0 ≤ t ≤ MAX_TROOPS)%Z →
  length (UI.troop_icons t) = 3 ∧
  Z.of_nat (length (List.filter id (UI.troop_icons t))) = t.
Proof.
  unfold MAX_TROOPS. intros Ht.
  assert (t = 0 ∨ t = 1 ∨ t = 2 ∨ t = 3)%Z as [->|[->|[->| ->]]] by lia; by vm_compute.
Qed.

(** X10: the on-screen keyboard follows the guesses.  In every state
    that a session of the page can reach, the guessed letters are among the 26
    letters A to Z; while a round is active the keyboard has one button for
    each of them, in order; and every button has its handler, is disabled
    exactly when its letter is guessed, and carries [guessed-correct] or
    [guessed-incorrect] exactly when its letter is guessed and is, or is not,
    in the word. *)
Theorem keyboard_follows_guesses (storage : Storage) (es : list UI.Event) :
  let p := UI.run (UI.onload storage) es in
  let st := UI.game p in
  (∀ u, u ∈ guessedLetters st → u ∈ UI.alphabet) ∧
  (isGameActive st = true → UI.data_letter <$> UI.keyboard p = UI.alphabet) ∧
  (∀ b, b ∈ UI.keyboard p →
     UI.onclick b = true ∧
     (UI.disabled b = true ↔ UI.data_letter b ∈ guessedLetters st) ∧
     (UI.guessed_correct b = true ↔
        UI.data_letter b ∈ guessedLetters st ∧
        includes (targetWord st) (UI.data_letter b) = true) ∧
     (UI.guessed_incorrect b = true ↔
        UI.data_letter b ∈ guessedLetters st ∧
        includes (targetWord st) (UI.data_letter b) = false)).
Proof.
  intros p st.
  destruct (ui_run_ok (UI.onload storage) es (ui_onload_ok storage))
    as [(Hl & Hb & Hne & Ha) _].
  fold p in Hl, Hb, Hne, Ha. fold st in Hb, Hne, Ha.
  split; [exact Ha|]. split.
  - intros Hact. destruct Hl as [Hl|Hl]; [by destruct (Hne Hact)|done].
  - intros b Hin. by apply (proj1 (Forall_forall _ _) Hb).
Qed.

(** X11: the displays follow the game.  In every state that a session of
    the page can reach: the troop icons, once drawn, are 3, as many of them
    full as there are troops, and they are drawn while a round is active; the
    slots of a word that is not empty show a placeholder for each space and,
    for any other character, the character if it is guessed and an
    underscore if not; the streak counter shows the current streak while a
    round is active; and the flag is the one of the current country. *)
Theorem displays_follow_game (storage : Storage) (es : list UI.Event) :
  let p := UI.run (UI.onload storage) es in
  let st := UI.game p in
  (∀ shown, UI.troopsDisplay p = Some shown →
     shown = UI.troop_icons (troops st) ∧ length shown = 3 ∧
     Z.of_nat (length (List.filter id shown)) = troops st) ∧
  (isGameActive st = true → is_Some (UI.troopsDisplay p)) ∧
  (targetWord st ≠ [] →
   UI.wordDisplay p = Some (UI.word_slot (guessedLetters st) <$> targetWord st)) ∧
  (isGameActive st = true → UI.streakDisplay p = Some (currentStreak st)) ∧
  UI.flagImage p = flag <$> currentCountry st.
Proof.
  intros p st.
  destruct (ui_run_ok (UI.onload storage) es (ui_onload_ok storage))
    as [_ (Hd1 & Hd2 & Hd3 & Hd4 & Hd5)].
  fold p in Hd1, Hd2, Hd3, Hd4, Hd5. fold st in Hd1, Hd2, Hd3, Hd4, Hd5.
  split; [|done].
  intros shown Hshown. rewrite (Hd1 shown Hshown). split; [done|].
  apply troop_icons_count.
  assert (troops_ok st) as [Hrange _]; [|done].
  subst st p. rewrite ui_run_game. apply run_troops_ok, onload_troops_ok.
Qed.

(** X12: a session of the page is a session of the game.  The game
    behind the page after any events of the page is the game after the events
    they amount to, and every guess among these is the guess of one of the 26
    letters A to Z. *)
Theorem page_session_is_game_session (storage : Storage) (es : list UI.Event) :
  let es' := game_events (UI.onload storage) es in
  UI.game (UI.run (UI.onload storage) es) = run (onload storage) es' ∧
  Forall (λ e, ∀ letter, e = ClickKey letter → letter ∈ UI.alphabet) es'.
Proof.
  intros es'. split.
  - apply ui_run_game.
  - apply game_events_letters, ui_onload_ok.
Qed.

(** X13: the physical keyboard.  A key does nothing unless the game view
    is shown and a round is active; then it does what a click on a button of
    the keyboard does, the first one whose letter is the key in upper case,
    and nothing when there is no such button or the upper-case key is not one
    letter A to Z. *)
Theorem key_press_is_button_click (key : jsstring) (p : UI.Page) :
  (currentView (UI.game p) ≠ ViewGame ∨ isGameActive (UI.game p) = false →
   UI.keydown key p = p) ∧
  (UI.keydown key p = p ∨
   ∃ i button,
     UI.keyboard p !! i = Some button ∧ UI.data_letter button = toUpperCase key ∧
     UI.data_letter button ∈ UI.alphabet ∧
     UI.keydown key p = UI.step p (UI.ClickButton i)).
Proof.
  unfold UI.keydown. split.
  - intros [Hview|Hact].
    + by rewrite bool_decide_eq_false_2.
    + rewrite Hact. by rewrite andb_false_r.
  - destruct (bool_decide _ && isGameActive _); [|by left].
    destruct (toUpperCase key) as [|c [|c' rest]] eqn:Hupper; [by left| |by left].
    destruct (is_upper_latin c) eqn:Hc; [|by left].
    destruct (list_find _ _) as [[i button]|] eqn:Hfind; [|by left].
    apply list_find_Some in Hfind as (Hi & Hletter & _).
    right. exists i, button. split; [done|]. split; [done|]. split.
    + rewrite Hletter. by apply alphabet_complete.
    + cbn [UI.step]. rewrite Hi. unfold UI.click. by destruct (UI.disabled button).
Qed.

End PageInvariant.

Lemma latin1_upper_fixed (c : N) :
  is_upper_latin c = true → @toUpperCase latin1 [c] = [c].
Proof.
  unfold is_upper_latin. intros [Hlo Hhi]%andb_true_iff.
  apply N.leb_le in Hlo, Hhi.
  cbn [toUpperCase latin1 flat_map]. unfold latin1_upper_unit.
  replace (97 <=? c)%N with false by (symmetry; apply N.leb_gt; lia).
  replace (c =? 181)%N with false by (symmetry; apply N.eqb_neq; lia).
  replace (c =? 223)%N with false by (symmetry; apply N.eqb_neq; lia).
  replace (c =? 247)%N with false by (symmetry; apply N.eqb_neq; lia).
  replace (c =? 255)%N with false by (symmetry; apply N.eqb_neq; lia).
  replace (224 <=? c)%N with false by (symmetry; apply N.leb_gt; lia).
  done.
Qed.

Lemma key_press_is_button_click_witness :
  @UI.keydown latin1 (lit "a") (UI.onload empty_storage) = UI.onload empty_storage.
Proof.
  apply (proj1 (@key_press_is_button_click latin1 (lit "a") (UI.onload empty_storage))).
  left. by vm_compute.
Defined.

(** A round on Peru played with the on-screen and the physical keyboard:
    P by its button, then the keys e, x and e again. *)
Lemma keyboard_follows_guesses_witness :
  let p := @UI.run latin1 (UI.onload empty_storage)
             [UI.ClickContinent "Americas"; UI.FetchSettled "Americas" (Some [peru_api]) 0;
              UI.ClickButton 15; UI.KeyDown (lit "e"); UI.KeyDown (lit "x");
              UI.KeyDown (lit "e")] in
  isGameActive (UI.game p) = true ∧ UI.data_letter <$> UI.keyboard p = UI.alphabet.
Proof.
  intros p. assert (isGameActive (UI.game p) = true) as Hact by by vm_compute.
  split; [exact Hact|].
  apply (proj1 (proj2 (@keyboard_follows_guesses latin1 latin1_upper_fixed empty_storage _)) Hact).
Defined.

Lemma displays_follow_game_witness :
  let p := @UI.run latin1 (UI.onload empty_storage)
             [UI.ClickContinent "Americas"; UI.FetchSettled "Americas" (Some [peru_api]) 0;
              UI.ClickButton 15; UI.KeyDown (lit "x")] in
  isGameActive (UI.game p) = true ∧
  UI.streakDisplay p = Some (currentStreak (UI.game p)).
Proof.
  intros p. assert (isGameActive (UI.game p) = true) as Hact by by vm_compute.
  split; [exact Hact|].
  apply (proj1 (proj2 (proj2 (proj2
    (@displays_follow_game latin1 latin1_upper_fixed empty_storage _)))) Hact).
Defined.

Lemma page_session_is_game_session_witness :
  let es := [UI.ClickContinent "Americas"; UI.FetchSettled "Americas" (Some [peru_api]) 0;
             UI.ClickButton 15; UI.KeyDown (lit "x"); UI.KeyDown (lit "!")] in
  UI.game (@UI.run latin1 (UI.onload empty_storage) es)
  = @run latin1 (onload empty_storage) (@game_events latin1 (UI.onload empty_storage) es).
Proof.
  intros es.
  apply (proj1 (@page_session_is_game_session latin1 latin1_upper_fixed empty_storage es)).
Defined.

(** * The earlier variant *)

(** ** Its continents stay dominated *)

Lemma legacy_renderStreak_fields (st : GameState) :
  Legacy.renderStreak st = st ∨
  Legacy.renderStreak st = set_bestStreak (currentStreak st) st.
Proof. unfold Legacy.renderStreak. destruct (_ >? _)%Z; auto. Qed.

Lemma legacy_renderStreak_status (st : GameState) :
  continentStatus (Legacy.renderStreak st) = continentStatus st.
Proof. by destruct (legacy_renderStreak_fields st) as [-> | ->]. Qed.

Lemma legacy_win_country_status (st : GameState) :
  continentStatus (Legacy.win_country st) = continentStatus st.
Proof.
  unfold Legacy.win_country.
  set (st2 := set_currentStreak _ _).
  pose proof (legacy_renderStreak_status st2) as Hs.
  revert Hs. generalize (Legacy.renderStreak st2). subst st2. simpl. intros st3 Hs.
  destruct (currentCountry st3) as [cur|]; [|done].
  destruct (mark_dominated_frame (key cur) st3) as (_&_&_&_&_&_&_&_&_&_&_&Hst&_).
  simpl. congruence.
Qed.

Lemma legacy_checkGameStatus_status (st : GameState) :
  continentStatus (Legacy.checkGameStatus st) = continentStatus st.
Proof.
  unfold Legacy.checkGameStatus.
  destruct (isGameActive st); simpl; [|done].
  destruct (correctlyGuessed st); [apply legacy_win_country_status|].
  destruct (troops st <=? 0)%Z; [|done].
  unfold lose_game. simpl. by destruct (currentCountry st).
Qed.

Lemma legacy_record_guess_status (u : jsstring) (st : GameState) :
  continentStatus (Legacy.record_guess u st) = continentStatus st.
Proof.
  unfold Legacy.record_guess. simpl. destruct (includes _ _); [done|].
  by rewrite legacy_renderStreak_status.
Qed.

Lemma legacy_handleContinentWin_status (st : GameState) :
  continentStatus (Legacy.handleContinentWin st)
  = <[currentContinent st := StatusString "dominated"]> (continentStatus st).
Proof. unfold Legacy.handleContinentWin. by destruct (forallb _ _). Qed.

Lemma insert_dominated_all (st : GameState) (continent : string)
    (status : gmap string StatusValue) :
  (∀ c, c ∈ CONTINENTS → status !! c = Some (StatusString "dominated")) →
  ∀ c, c ∈ CONTINENTS →
       <[continent := StatusString "dominated"]> status !! c = Some (StatusString "dominated").
Proof.
  intros Hall c Hc. destruct (decide (continent = c)) as [->|Hne].
  - by rewrite lookup_insert_eq.
  - rewrite lookup_insert_ne by done. by apply Hall.
Qed.

Lemma legacy_initialize_continent_dominated (st : GameState) (a c : string) :
  continentStatus st !! c = Some (StatusString "dominated") →
  continentStatus (Legacy.initialize_continent st a) !! c = Some (StatusString "dominated").
Proof.
  intros Hc. unfold Legacy.initialize_continent.
  destruct (decide (a = c)) as [->|Hne].
  - by rewrite Hc.
  - destruct (continentStatus st !! a) as [[s|s l]|]; simpl; [|done|].
    + case_bool_decide; [|done]. simpl. by rewrite lookup_insert_ne.
    + by rewrite lookup_insert_ne.
Qed.

Lemma legacy_initialize_loop_dominated (l : list string) (st : GameState) (c : string) :
  continentStatus st !! c = Some (StatusString "dominated") →
  continentStatus (foldl Legacy.initialize_continent st l) !! c
  = Some (StatusString "dominated").
Proof.
  revert st. induction l as [|a l IH]; intros st Hc; [done|].
  cbn [foldl]. by apply IH, legacy_initialize_continent_dominated.
Qed.

Lemma legacy_render_all (p : Legacy.Page) :
  all_dominated (Legacy.game p) → Legacy.cards (Legacy.renderContinentSelect p) = [].
Proof.
  intros Hall. unfold Legacy.renderContinentSelect. cbn [Legacy.cards].
  assert (∀ l, (∀ c, c ∈ l → c ∈ CONTINENTS) →
            List.filter
              (λ c, negb (bool_decide (continentStatus (Legacy.game p) !! c
                                       = Some (StatusString "dominated")))) l = []) as Hl.
  { induction l as [|a l IH]; intros Hin; [done|]. cbn [List.filter].
    rewrite bool_decide_eq_true_2 by (apply Hall, Hin; by left). cbn [negb].
    apply IH. intros c Hc. apply Hin. by right. }
  by apply Hl.
Qed.

Section LegacyFinal.
Context `{Platform}.

Lemma legacy_guessLetter_status (letter : jsstring) (st : GameState) :
  continentStatus (Legacy.guessLetter letter st) = continentStatus st.
Proof.
  unfold Legacy.guessLetter. destruct (isGameActive st); simpl; [|done].
  case_bool_decide; [done|].
  by rewrite legacy_checkGameStatus_status, legacy_record_guess_status.
Qed.

Lemma legacy_newRound_all (pick : nat) (st : GameState) :
  all_dominated st → all_dominated (Legacy.newRound pick st).
Proof.
  intros Hall. unfold Legacy.newRound.
  destruct (List.filter _ (countries st)) as [|c0 rest].
  - unfold all_dominated. rewrite legacy_handleContinentWin_status.
    by apply insert_dominated_all.
  - unfold all_dominated. by rewrite legacy_renderStreak_status.
Qed.

Lemma legacy_loadContinent_all (continent : string) (response : option (list ApiCountry))
    (pick : nat) (st : GameState) :
  all_dominated st → all_dominated (Legacy.loadContinent continent response pick st).
Proof.
  intros Hall. unfold Legacy.loadContinent. destruct response as [data|]; [|done].
  case_bool_decide; [done|]. by apply legacy_newRound_all.
Qed.

Lemma legacy_initializeAppUI_all (p : Legacy.Page) :
  all_dominated (Legacy.game p) →
  all_dominated (Legacy.game (Legacy.initializeAppUI p)) ∧
  Legacy.cards (Legacy.initializeAppUI p) = [].
Proof.
  intros Hall. unfold Legacy.initializeAppUI. cbv zeta.
  assert (all_dominated (foldl Legacy.initialize_continent (Legacy.game p) CONTINENTS))
    as Hall'.
  { intros c Hc. by apply legacy_initialize_loop_dominated, Hall. }
  revert Hall'. generalize (foldl Legacy.initialize_continent (Legacy.game p) CONTINENTS).
  intros st1 Hall'. split; [done|].
  by apply (legacy_render_all (Legacy.set_game st1 p)).
Qed.

Lemma legacy_step_final (p : Legacy.Page) (e : Event) :
  all_dominated (Legacy.game p) ∧ Legacy.cards p = [] →
  all_dominated (Legacy.game (Legacy.step p e)) ∧ Legacy.cards (Legacy.step p e) = [].
Proof.
  intros [Hall Hcards].
  destruct e as [| | |continent|continent response pick| |letter|pick|];
    cbn [Legacy.step]; try done.
  - rewrite Hcards. by rewrite bool_decide_eq_false_2 by apply not_elem_of_nil.
  - split; [|done]. by apply legacy_loadContinent_all.
  - split; [|done]. cbn [Legacy.game Legacy.set_game]. unfold all_dominated.
    by rewrite legacy_guessLetter_status.
  - unfold Legacy.modalButton. destruct (modal (Legacy.game p)) as [m|]; [|done].
    destruct (modalAction m); cbv zeta.
    + split; [|done]. by apply legacy_newRound_all.
    + destruct (legacy_initializeAppUI_all
                  (Legacy.set_game (set_modal None (Legacy.game p)) p)) as [Hall' Hcards'];
        [done|].
      revert Hall' Hcards'. generalize (Legacy.initializeAppUI
        (Legacy.set_game (set_modal None (Legacy.game p)) p)). by intros p2.
    + split; [done|].
      by apply (legacy_render_all (Legacy.set_game (set_modal None (Legacy.game p)) p)).
  - unfold Legacy.backToMap. cbv zeta. split; [done|].
    by apply (legacy_render_all
      (Legacy.set_game (set_currentStreak 0 (set_isGameActive false (Legacy.game p))) p)).
Qed.

Lemma legacy_run_final (p : Legacy.Page) (es : list Event) :
  all_dominated (Legacy.game p) ∧ Legacy.cards p = [] →
  all_dominated (Legacy.game (Legacy.run p es)) ∧ Legacy.cards (Legacy.run p es) = [].
Proof.
  revert p. induction es as [|e es IH]; intros p Hp; [done|].
  apply IH. by apply legacy_step_final.
Qed.

Lemma legacy_initialize_continent_fields (st : GameState) (c : string) :
  game_fields (Legacy.initialize_continent st c) = game_fields st.
Proof.
  unfold Legacy.initialize_continent.
  destruct (continentStatus st !! c) as [[s|s l]|]; [case_bool_decide| |]; done.
Qed.

Lemma legacy_initializeAppUI_frame (p : Legacy.Page) :
  isGameActive (Legacy.game (Legacy.initializeAppUI p)) = isGameActive (Legacy.game p) ∧
  modal (Legacy.game (Legacy.initializeAppUI p)) = modal (Legacy.game p) ∧
  signals (Legacy.game (Legacy.initializeAppUI p)) = signals (Legacy.game p).
Proof.
  unfold Legacy.initializeAppUI. cbv zeta.
  pose proof (foldl_project game_fields Legacy.initialize_continent CONTINENTS (Legacy.game p)
                legacy_initialize_continent_fields) as Hf.
  apply game_fields_eq in Hf as (_ & _ & _ & Hact & _ & _ & _ & _ & Hsi & Hmo).
  revert Hact Hsi Hmo.
  generalize (foldl Legacy.initialize_continent (Legacy.game p) CONTINENTS).
  intros st1 Hact Hsi Hmo. by cbn.
Qed.

(** Once every continent is dominated and no card has a handler, with no
    round active and no dialog open, only a response of the API moves the
    game. *)
Lemma legacy_step_quiet (p : Legacy.Page) (e : Event) :
  all_dominated (Legacy.game p) → Legacy.cards p = [] →
  isGameActive (Legacy.game p) = false → modal (Legacy.game p) = None →
  is_response e = false →
  isGameActive (Legacy.game (Legacy.step p e)) = false ∧
  modal (Legacy.game (Legacy.step p e)) = None ∧
  signals (Legacy.game (Legacy.step p e)) = signals (Legacy.game p).
Proof.
  intros Hall Hcards Hact Hmodal He.
  destruct e as [| | |continent|continent response pick| |letter|pick|];
    cbn [Legacy.step]; try done.
  - rewrite Hcards. by rewrite bool_decide_eq_false_2 by apply not_elem_of_nil.
  - cbn [Legacy.game Legacy.set_game]. unfold Legacy.guessLetter. by rewrite Hact.
  - unfold Legacy.modalButton. by rewrite Hmodal.
Qed.

Lemma legacy_run_quiet (p : Legacy.Page) (es : list Event) :
  all_dominated (Legacy.game p) → Legacy.cards p = [] →
  isGameActive (Legacy.game p) = false → modal (Legacy.game p) = None →
  Forall (λ e, is_response e = false) es →
  isGameActive (Legacy.game (Legacy.run p es)) = false ∧
  modal (Legacy.game (Legacy.run p es)) = None ∧
  signals (Legacy.game (Legacy.run p es)) = signals (Legacy.game p).
Proof.
  revert p. induction es as [|e es IH]; intros p Hall Hcards Hact Hmodal Hes; [done|].
  apply Forall_cons in Hes as [He Hes].
  destruct (legacy_step_final p e (conj Hall Hcards)) as [Hall' Hcards'].
  destruct (legacy_step_quiet p e Hall Hcards Hact Hmodal He) as (Hact' & Hmodal' & Hsig).
  rewrite <- Hsig. by apply IH.
Qed.

(** X14: in the earlier variant the global victory is the end.  When its
    dialog is acknowledged with the five continents dominated, they stay
    dominated and no continent card has a handler, whatever happens
    afterwards: a click on a card does nothing.  If no round was active at
    the acknowledgement, then as long as no response of the API to an earlier
    request arrives no round is active again and no dialog is shown: a letter
    does nothing and the list of signals stays as it was. *)
Theorem legacy_global_victory_is_final (p : Legacy.Page) (pick : nat) (es : list Event) :
  modal (Legacy.game p)
  = Some {| modalSignal := GlobalVictory; modalAction := ActGlobalReset |} →
  all_dominated (Legacy.game p) →
  let p' := Legacy.run (Legacy.step p (ClickModalButton pick)) es in
  all_dominated (Legacy.game p') ∧ Legacy.cards p' = [] ∧
  (∀ continent, Legacy.step p' (ClickContinent continent) = p') ∧
  (isGameActive (Legacy.game p) = false →
   Forall (λ e, is_response e = false) es →
   isGameActive (Legacy.game p') = false ∧
   modal (Legacy.game p') = None ∧
   signals (Legacy.game p') = signals (Legacy.game p) ∧
   ∀ letter, Legacy.step p' (ClickKey letter) = p').
Proof.
  intros Hmodal Hall p'.
  assert (all_dominated (Legacy.game (Legacy.step p (ClickModalButton pick))) ∧
          Legacy.cards (Legacy.step p (ClickModalButton pick)) = [] ∧
          isGameActive (Legacy.game (Legacy.step p (ClickModalButton pick)))
          = isGameActive (Legacy.game p) ∧
          modal (Legacy.game (Legacy.step p (ClickModalButton pick))) = None ∧
          signals (Legacy.game (Legacy.step p (ClickModalButton pick)))
          = signals (Legacy.game p)) as Hack.
  { cbn [Legacy.step]. unfold Legacy.modalButton. rewrite Hmodal.
    cbn [modalAction]. cbv zeta.
    destruct (legacy_initializeAppUI_all
                (Legacy.set_game (set_modal None (Legacy.game p)) p)) as [Hall' Hcards'];
      [done|].
    destruct (legacy_initializeAppUI_frame
                (Legacy.set_game (set_modal None (Legacy.game p)) p)) as (Hact & Hmo & Hsi).
    revert Hall' Hcards' Hact Hmo Hsi. generalize (Legacy.initializeAppUI
      (Legacy.set_game (set_modal None (Legacy.game p)) p)). by intros p2. }
  destruct Hack as (Hall1 & Hcards1 & Hact1 & Hmodal1 & Hsig1).
  destruct (legacy_run_final _ es (conj Hall1 Hcards1)) as [Hall' Hcards'].
  fold p' in Hall', Hcards'.
  split; [done|]. split; [done|]. split.
  { intros continent. cbn [Legacy.step]. rewrite Hcards'.
    by rewrite bool_decide_eq_false_2 by apply not_elem_of_nil. }
  intros Hact Hes. rewrite Hact in Hact1.
  destruct (legacy_run_quiet _ es Hall1 Hcards1 Hact1 Hmodal1 Hes) as (Hact' & Hmodal' & Hsig').
  fold p' in Hact', Hmodal', Hsig'.
  split; [done|]. split; [done|]. split; [by rewrite Hsig'|].
  intros letter. cbn [Legacy.step]. unfold Legacy.guessLetter. rewrite Hact'.
  by destruct p'.
Qed.

End LegacyFinal.

Lemma legacy_global_victory_is_final_witness :
  let p' := @Legacy.run latin1 (@Legacy.step latin1 legacy_all_conquered (ClickModalButton 0))
              [ClickStart; ClickContinent "Africa"; ClickBackToMap] in
  all_dominated (Legacy.game legacy_all_conquered) ∧ Legacy.cards p' = [] ∧
  isGameActive (Legacy.game p') = false.
Proof.
  intros p'.
  assert (modal (Legacy.game legacy_all_conquered)
          = Some {| modalSignal := GlobalVictory; modalAction := ActGlobalReset |}) as Hmodal
    by by vm_compute.
  assert (all_dominated (Legacy.game legacy_all_conquered)) as Hall.
  { intros c Hc. revert c Hc. apply Forall_forall, (bool_decide_unpack _). by vm_compute. }
  assert (isGameActive (Legacy.game legacy_all_conquered) = false) as Hact
    by by vm_compute.
  assert (Forall (λ e, is_response e = false)
            [ClickStart; ClickContinent "Africa"; ClickBackToMap]) as Hes
    by (repeat constructor).
  split; [exact Hall|]. split.
  - apply (proj1 (proj2 (@legacy_global_victory_is_final latin1 legacy_all_conquered 0
             [ClickStart; ClickContinent "Africa"; ClickBackToMap] Hmodal Hall))).
  - apply (proj1 (proj2 (proj2 (proj2 (@legacy_global_victory_is_final latin1
             legacy_all_conquered 0
             [ClickStart; ClickContinent "Africa"; ClickBackToMap] Hmodal Hall))) Hact Hes)).
Defined.

(** ** The two variants play the same rounds *)

Lemma agree_renderStreak (st st' : GameState) :
  agree st st' → agree (Legacy.renderStreak st) (renderStreak st').
Proof.
  intros (Hs & Hb & Hrest). unfold Legacy.renderStreak, renderStreak.
  rewrite Hs, Hb. destruct (_ >? _)%Z; [|done].
  unfold agree, dominated_in_range in *. simpl. by rewrite Hs.
Qed.

Lemma agree_mark_dominated (k : jsstring) (st st' : GameState) :
  agree st st' → agree (mark_dominated k st) (mark_dominated k st').
Proof.
  intros Hag. pose proof Hag as (Hs & Hb & Hcc & Hcs & Hcur & Hw & Hg & Ht & Ha & Hm &
    Hsig & Hdom & Hr & Hr').
  unfold mark_dominated. rewrite Hcs.
  destruct (list_find _ (countries st')) as [[i c]|]; [|done].
  unfold agree, dominated_in_range in *. simpl.
  rewrite !array_push_length, !array_push_get, Hdom by done.
  by repeat split.
Qed.

Lemma agree_handleModal (sig : Signal) (action : ModalAction) (st st' : GameState) :
  agree st st' → agree (handleModal sig action st) (handleModal sig action st').
Proof.
  intros (Hs & Hb & Hcc & Hcs & Hcur & Hw & Hg & Ht & Ha & Hm & Hsig & Hdom & Hr & Hr').
  unfold agree, dominated_in_range in *. simpl. rewrite Hsig. by repeat split.
Qed.

Lemma agree_win_country (st st' : GameState) :
  agree st st' → agree (Legacy.win_country st) (win_country st').
Proof.
  intros Hag. unfold Legacy.win_country, win_country.
  assert (agree (set_currentStreak (currentStreak (set_isGameActive false st) + 1)%Z
                   (set_isGameActive false st))
                (set_currentStreak (currentStreak (set_isGameActive false st') + 1)%Z
                   (set_isGameActive false st'))) as Hag2.
  { destruct Hag as (Hs & Hb & Hcc & Hcs & Hcur & Hw & Hg & Ht & Ha & Hm & Hsig & Hdom &
      Hr & Hr').
    unfold agree, dominated_in_range in *. simpl. rewrite Hs. by repeat split. }
  apply agree_renderStreak in Hag2. revert Hag2. cbv zeta.
  generalize (Legacy.renderStreak
    (set_currentStreak (currentStreak (set_isGameActive false st) + 1)%Z
       (set_isGameActive false st))).
  generalize (renderStreak
    (set_currentStreak (currentStreak (set_isGameActive false st') + 1)%Z
       (set_isGameActive false st'))).
  intros st3' st3 Hag3.
  assert (currentCountry st3 = currentCountry st3') as -> by apply Hag3.
  destruct (currentCountry st3') as [cur|]; [|done].
  apply (agree_mark_dominated (key cur)) in Hag3. revert Hag3.
  generalize (mark_dominated (key cur) st3) (mark_dominated (key cur) st3').
  intros st4 st4' Hag4.
  assert (currentStreak st4 = currentStreak st4') as Hs4 by apply Hag4.
  cbn [currentStreak saveGameStateToStorage set_saveCalls set_localStorage
       set_continentStatus]. rewrite Hs4.
  apply agree_handleModal.
  destruct Hag4 as (Hs & Hb & Hcc & Hcs & Hcur & Hw & Hg & Ht & Ha & Hm & Hsig & Hdom &
    Hr & Hr').
  unfold agree, dominated_in_range in *. simpl. by repeat split.
Qed.

Lemma agree_correctlyGuessed (st st' : GameState) :
  agree st st' → correctlyGuessed st = correctlyGuessed st'.
Proof.
  intros (_ & _ & _ & _ & _ & Hw & Hg & _).
  unfold correctlyGuessed, wordLetters. by rewrite Hw, Hg.
Qed.

Lemma agree_checkGameStatus (st st' : GameState) :
  agree st st' → agree (Legacy.checkGameStatus st) (checkGameStatus st').
Proof.
  intros Hag. unfold Legacy.checkGameStatus, checkGameStatus.
  rewrite (agree_correctlyGuessed st st' Hag).
  assert (isGameActive st = isGameActive st') as -> by apply Hag.
  assert (troops st = troops st') as -> by apply Hag.
  destruct (isGameActive st'); simpl; [|done].
  destruct (correctlyGuessed st'); [by apply agree_win_country|].
  destruct (troops st' <=? 0)%Z; [|done].
  unfold lose_game.
  assert (currentCountry (set_isGameActive false st)
          = currentCountry (set_isGameActive false st')) as -> by apply Hag.
  assert (agree (set_isGameActive false st) (set_isGameActive false st')) as Hag1.
  { destruct Hag as (Hs & Hb & Hcc & Hcs & Hcur & Hw & Hg & Ht & Ha & Hm & Hsig & Hdom &
      Hr & Hr').
    unfold agree, dominated_in_range in *. simpl. by repeat split. }
  destruct (currentCountry _); [|done]. by apply agree_handleModal.
Qed.

Lemma agree_record_guess (u : jsstring) (st st' : GameState) :
  agree st st' → agree (Legacy.record_guess u st) (record_guess u st').
Proof.
  intros Hag. pose proof Hag as (Hs & Hb & Hcc & Hcs & Hcur & Hw & Hg & Ht & Ha & Hm &
    Hsig & Hdom & Hr & Hr').
  unfold Legacy.record_guess, record_guess. cbn [targetWord set_guessedLetters].
  rewrite Hw. destruct (includes (targetWord st') u).
  - unfold agree, dominated_in_range in *. simpl. rewrite Hg. by repeat split.
  - apply agree_renderStreak.
    unfold agree, dominated_in_range in *. simpl. rewrite Hg, Ht. by repeat split.
Qed.

Lemma same_conquests_insert (continent : string) (st st' : GameState) :
  same_conquests st st' →
  ∀ c, <[continent := StatusString "dominated"]> (continentStatus st) !! c
       = Some (StatusString "dominated") ↔
       <[continent := StatusString "dominated"]> (continentStatus st') !! c
       = Some (StatusString "dominated").
Proof.
  intros Hsame c. destruct (decide (continent = c)) as [->|Hne].
  - by rewrite !lookup_insert_eq.
  - rewrite !lookup_insert_ne by done. apply Hsame.
Qed.

Lemma agree_handleContinentWin (st st' : GameState) :
  agree st st' → same_conquests st st' →
  agree (Legacy.handleContinentWin st) (handleContinentWin st') ∧
  same_conquests (Legacy.handleContinentWin st) (handleContinentWin st').
Proof.
  intros Hag Hsame.
  assert (currentContinent st = currentContinent st') as Hcc by apply Hag.
  pose proof (same_conquests_insert (currentContinent st') st st' Hsame) as Hins.
  split.
  - unfold Legacy.handleContinentWin, handleContinentWin. cbv zeta.
    cbn [continentStatus currentContinent saveGameStateToStorage set_saveCalls
         set_localStorage set_continentStatus].
    rewrite Hcc.
    assert (forallb (λ c, bool_decide
              (<[currentContinent st' := StatusString "dominated"]> (continentStatus st) !! c
               = Some (StatusString "dominated"))) CONTINENTS
            = forallb (λ c, bool_decide
              (<[currentContinent st' := StatusString "dominated"]> (continentStatus st') !! c
               = Some (StatusString "dominated"))) CONTINENTS) as ->.
    { induction CONTINENTS as [|a l IH]; [done|]. cbn [forallb].
      by rewrite IH, (bool_decide_ext _ _ (Hins a)). }
    assert (agree
      (set_continentStatus
         (<[currentContinent st' := StatusString "dominated"]> (continentStatus st)) st)
      (saveGameStateToStorage
         (set_continentStatus
            (<[currentContinent st' := StatusString "dominated"]> (continentStatus st')) st')))
      as Hag1.
    { destruct Hag as (Hs & Hb & _ & Hcs & Hcur & Hw & Hg & Ht & Ha & Hm & Hsig & Hdom &
        Hr & Hr').
      unfold agree, dominated_in_range in *. simpl. by repeat split. }
    destruct (forallb _ _); by apply agree_handleModal.
  - unfold same_conquests.
    rewrite legacy_handleContinentWin_status.
    destruct (handleContinentWin_spec st') as (-> & _). by rewrite Hcc.
Qed.

Section Variants.
Context `{Platform}.

Lemma agree_guessLetter (letter : jsstring) (st st' : GameState) :
  agree st st' → agree (Legacy.guessLetter letter st) (guessLetter letter st').
Proof.
  intros Hag. unfold Legacy.guessLetter, guessLetter.
  assert (isGameActive st = isGameActive st') as -> by apply Hag.
  assert (guessedLetters st = guessedLetters st') as -> by apply Hag.
  destruct (isGameActive st'); simpl; [|done].
  case_bool_decide; [done|].
  by apply agree_checkGameStatus, agree_record_guess.
Qed.

Lemma agree_newRound_round (pick : nat) (st st' : GameState) :
  agree st st' → List.filter (λ c, negb (isDominated c)) (countries st') ≠ [] →
  agree (Legacy.newRound pick st) (newRound pick st').
Proof.
  intros Hag Hsome. unfold Legacy.newRound, newRound.
  assert (countries st = countries st') as -> by apply Hag.
  destruct (List.filter _ (countries st')) as [|c0 rest]; [done|].
  cbv zeta. apply agree_renderStreak.
  destruct Hag as (Hs & Hb & Hcc & Hcs & Hcur & Hw & Hg & Ht & Ha & Hm & Hsig & Hdom &
    Hr & Hr').
  unfold agree, dominated_in_range in *. simpl. by repeat split.
Qed.

Lemma agree_newRound (pick : nat) (st st' : GameState) :
  agree st st' → same_conquests st st' →
  agree (Legacy.newRound pick st) (newRound pick st').
Proof.
  intros Hag Hsame.
  destruct (List.filter (λ c, negb (isDominated c)) (countries st')) as [|c0 rest] eqn:Hf.
  - unfold Legacy.newRound, newRound.
    assert (countries st = countries st') as -> by apply Hag.
    rewrite Hf. by apply agree_handleContinentWin.
  - apply agree_newRound_round; [done|]. by rewrite Hf.
Qed.

Lemma agree_loadContinent (continent : string) (response : option (list ApiCountry))
    (pick : nat) (st st' : GameState) :
  agree st st' →
  (∀ status names, continentStatus st' !! continent ≠ Some (StatusObject status names)) →
  agree (Legacy.loadContinent continent response pick st)
        (loadContinent continent response pick st').
Proof.
  intros Hag Hnone. unfold Legacy.loadContinent, loadContinent.
  destruct response as [data|]; [|done]. cbv zeta.
  cbn [countries set_countries].
  pose proof Hag as (Hs & Hb & Hcc & Hcs & Hcur & Hw & Hg & Ht & Ha & Hm & Hsig & Hdom &
    Hr & Hr').
  case_bool_decide as Hempty.
  { unfold agree, dominated_in_range in *. simpl. by repeat split. }
  assert (merge_dominated continent
            (set_countries (to_country <$> List.filter qualifies data) st')
          = set_countries (to_country <$> List.filter qualifies data) st') as ->.
  { unfold merge_dominated. simpl.
    destruct (continentStatus st' !! continent) as [[s|s names]|] eqn:Hst; [done| |done].
    by destruct (Hnone s names). }
  apply agree_newRound_round.
  - unfold agree, dominated_in_range. simpl. rewrite filter_dominated. simpl.
    unfold array_get. rewrite !list_lookup_middle by done. rewrite !length_app. simpl.
    repeat split; try done; lia.
  - simpl. rewrite filter_undominated. intros Hnil. apply Hempty.
    by rewrite Hnil.
Qed.

(** X15: the two variants play the same rounds.  From two states, one of
    each variant, with the same round, countries and dominated names, a guess
    leads to two such states again, with the same dialog and signals; so does
    [newRound] when the same continents are dominated in both, and so does
    the loading of a continent whose status, in the later variant, is not an
    in-progress object. *)
Theorem variants_agree_on_rounds (st st' : GameState) :
  agree st st' →
  (∀ letter, agree (Legacy.guessLetter letter st) (guessLetter letter st')) ∧
  (∀ pick, same_conquests st st' →
     agree (Legacy.newRound pick st) (newRound pick st')) ∧
  (∀ continent response pick,
     (∀ status names, continentStatus st' !! continent ≠ Some (StatusObject status names)) →
     agree (Legacy.loadContinent continent response pick st)
           (loadContinent continent response pick st')).
Proof.
  intros Hag. split; [|split].
  - intros letter. by apply agree_guessLetter.
  - intros pick Hsame. by apply agree_newRound.
  - intros continent response pick Hnone. by apply agree_loadContinent.
Qed.

End Variants.

Lemma variants_agree_on_rounds_witness :
  let st := Legacy.game (@Legacy.run latin1 Legacy.onload
              [ClickContinent "Americas"; FetchSettled "Americas" (Some [peru_api]) 0]) in
  agree st peru_round ∧
  agree (@Legacy.guessLetter latin1 (lit "P") st) (@guessLetter latin1 (lit "P") peru_round).
Proof.
  intros st.
  assert (agree st peru_round) as Hag.
  { unfold agree, dominated_in_range.
    repeat (split; [by vm_compute|]). vm_compute. lia. }
  split; [exact Hag|].
  apply (proj1 (@variants_agree_on_rounds latin1 st peru_round Hag)).
Defined.

(** * Arrays that are shared *)

Lemma array_push_get_any (l dom : nat) (x : jsstring) (heap : list (list jsstring)) :
  array_get l (array_push dom x heap)
  = if bool_decide (l = dom ∧ dom < length heap) then array_get l heap ++ [x]
    else array_get l heap.
Proof.
  unfold array_get, array_push. destruct (decide (l = dom)) as [->|Hne].
  - rewrite list_lookup_alter_eq. destruct (heap !! dom) as [a|] eqn:Ha; simpl.
    + rewrite bool_decide_eq_true_2; [done|]. split; [done|]. by apply lookup_lt_Some in Ha.
    + rewrite bool_decide_eq_false_2; [done|]. intros [_ Hlt].
      apply lookup_ge_None in Ha. lia.
  - rewrite list_lookup_alter_ne by done.
    rewrite bool_decide_eq_false_2; [done|]. by intros [? _].
Qed.

(** The arrays after the [forEach] of [loadContinent]: the array at [dom]
    has got the names found in the array at [stored], which may be the same
    array. *)
Lemma remark_dominated_get (stored dom : nat) (names : list jsstring) (cs : list Country)
    (heap : list (list jsstring)) (l : nat) :
  (∀ x, x ∈ array_get stored heap ↔ x ∈ names) →
  array_get l (remark_dominated stored dom cs heap).2
  = (if bool_decide (l = dom ∧ dom < length heap)
     then array_get l heap ++ (name <$> filter (λ c, name c ∈ names) cs)
     else array_get l heap) ∧
  length (remark_dominated stored dom cs heap).2 = length heap.
Proof.
  revert heap. induction cs as [|c cs IH]; intros heap Hmem.
  { cbn. split; [|done]. case_bool_decide; [|done]. by rewrite app_nil_r. }
  cbn [remark_dominated]. rewrite filter_cons.
  case_bool_decide as Hin.
  - specialize (IH (array_push dom (name c) heap)).
    destruct (remark_dominated stored dom cs _) as [rest' heap'].
    destruct IH as [IH1 IH2].
    { intros x. rewrite array_push_members by done. apply Hmem. }
    cbn [snd] in *. rewrite IH1, IH2, array_push_length, array_push_get_any.
    split; [|done].
    rewrite decide_True by by apply Hmem.
    destruct (bool_decide (l = dom ∧ dom < length heap)); [|done].
    cbn [fmap list_fmap]. by rewrite <- app_assoc.
  - specialize (IH heap Hmem).
    destruct (remark_dominated stored dom cs heap) as [rest' heap'].
    destruct IH as [IH1 IH2]. cbn [snd] in *. rewrite IH1, IH2.
    split; [|done].
    rewrite decide_False; [done|]. intros Hn. apply Hin. by apply Hmem.
Qed.

Lemma filter_names (names : list jsstring) (fetched : list ApiCountry) `{Platform} :
  name <$> filter (λ c, name c ∈ names) (to_country <$> fetched)
  = filter (λ n, n ∈ names) (name_common <$> fetched).
Proof.
  induction fetched as [|a l IH]; [done|]. cbn [fmap list_fmap].
  rewrite !filter_cons. change (name (to_country a)) with (name_common a).
  destruct (decide (name_common a ∈ names)); cbn [fmap list_fmap]; by rewrite IH.
Qed.

Section SharedArrays.
Context `{Platform}.

Lemma loadContinent_arrays (continent : string) (data : list ApiCountry) (pick : nat)
    (st : GameState) :
  List.filter qualifies data ≠ [] →
  let st2 := merge_dominated continent
               (set_countries (to_country <$> List.filter qualifies data) st) in
  arrays (loadContinent continent (Some data) pick st)
  = arrays st2 ++ [name <$> List.filter isDominated (countries st2)].
Proof.
  intros Hfetched st2. unfold loadContinent.
  rewrite bool_decide_eq_false_2.
  2: { simpl. rewrite length_fmap.
       destruct (List.filter qualifies data); [done|simpl; lia]. }
  fold st2. generalize st2. clear st2. intros st2.
  by destruct (newRound_session pick
    (set_dominated (length (arrays (set_currentContinent continent st2)))
       (set_arrays
          (arrays (set_currentContinent continent st2)
           ++ [name <$> List.filter isDominated
                          (countries (set_currentContinent continent st2))])
          (set_currentContinent continent st2)))) as (_ & _ & ->).
Qed.

(** X16: loading a continent again and the array of its status object.
    When the status of the continent is an object, the names of its array
    that are fetched again are appended to the current array of dominated
    names before that array is let go.  Within a session the two are one and
    the same array, which so gets each of these names once more, and a later
    save writes it with the repeated names; an array of its own is left as it
    was.  The new array of dominated names has these names once. *)
Theorem loading_again_repeats_names (continent : string) (data : list ApiCountry)
    (pick : nat) (st : GameState) (status : string) (stored : nat) :
  continentStatus st !! continent = Some (StatusObject status stored) →
  stored < length (arrays st) →
  List.filter qualifies data ≠ [] →
  let names := array_get stored (arrays st) in
  let again := filter (λ n, n ∈ names) (name_common <$> List.filter qualifies data) in
  let st' := loadContinent continent (Some data) pick st in
  array_get (dominated st') (arrays st') = again ∧
  (stored = dominated st →
   array_get stored (arrays st') = names ++ again ∧
   stringify_status (arrays st') (StatusObject status stored)
   = StoredObject status (names ++ again)) ∧
  (stored ≠ dominated st → array_get stored (arrays st') = names).
Proof.
  intros Hstatus Hrange Hfetched names again st'.
  destruct (loadContinent_merge continent data pick st status stored Hstatus Hfetched)
    as [Hcs Hdom].
  fold names st' in Hcs, Hdom. rewrite Hcs, merged_dominated_names in Hdom.
  pose proof (loadContinent_arrays continent data pick st Hfetched) as Harr.
  fold st' in Harr. split; [exact Hdom|].
  assert (array_get stored (arrays st')
          = if bool_decide (stored = dominated st ∧ dominated st < length (arrays st))
            then names ++ again else names) as Hget.
  { rewrite Harr. unfold array_get at 1. rewrite lookup_app_l.
    2: { unfold merge_dominated. simpl. rewrite Hstatus.
         pose proof (remark_dominated_get stored (dominated st) names
                       (to_country <$> List.filter qualifies data) (arrays st) stored
                       (λ x, iff_refl _)) as [_ Hlen].
         destruct (remark_dominated _ _ _ _). simpl in *. by rewrite Hlen. }
    fold (array_get stored (arrays (merge_dominated continent
            (set_countries (to_country <$> List.filter qualifies data) st)))).
    unfold merge_dominated. simpl. rewrite Hstatus.
    pose proof (remark_dominated_get stored (dominated st) names
                  (to_country <$> List.filter qualifies data) (arrays st) stored
                  (λ x, iff_refl _)) as [Hget _].
    destruct (remark_dominated _ _ _ _). simpl in *. rewrite Hget.
    case_bool_decide; [|done]. by rewrite filter_names. }
  split.
  - intros ->. rewrite bool_decide_eq_true_2 in Hget by done.
    split; [done|]. cbn [stringify_status]. by rewrite Hget.
  - intros Hne. rewrite bool_decide_eq_false_2 in Hget; [done|]. by intros [? _].
Qed.

End SharedArrays.

Lemma loading_again_repeats_names_witness :
  let st' := @loadContinent latin1 "Americas" (Some [peru_api; chile_api]) 1
               americas_in_progress in
  array_get (dominated americas_in_progress) (arrays st') = [lit "Peru"; lit "Peru"].
Proof.
  assert (continentStatus americas_in_progress !! "Americas"%string
          = Some (StatusObject "in-progress" (dominated americas_in_progress))) as Hstatus
    by by vm_compute.
  assert (dominated americas_in_progress < length (arrays americas_in_progress)) as Hrange
    by (vm_compute; lia).
  assert (List.filter qualifies [peru_api; chile_api] ≠ []) as Hfetched by done.
  apply (proj1 (proj1 (proj2 (@loading_again_repeats_names latin1 "Americas"
           [peru_api; chile_api] 1 americas_in_progress "in-progress"
           (dominated americas_in_progress) Hstatus Hrange Hfetched)) eq_refl)).
Defined.

(** * A response that comes late *)

Section LateResponse.
Context `{Platform}.

(** X17: [loadContinent] looks neither at the view nor at the round.  A
    response with a qualifying record, for a continent whose status is not an
    in-progress object, starts a round on that continent in whatever state it
    finds the game: a round in progress is replaced, with 3 troops and no
    guessed letter, while the view, the streaks, an open dialog and the
    continent statuses stay as they are. *)
Theorem late_response_replaces_round (continent : string) (data : list ApiCountry)
    (pick : nat) (st : GameState) :
  List.filter qualifies data ≠ [] →
  (∀ status names, continentStatus st !! continent ≠ Some (StatusObject status names)) →
  let st' := loadContinent continent (Some data) pick st in
  currentView st' = currentView st ∧ currentContinent st' = continent ∧
  isGameActive st' = true ∧ troops st' = MAX_TROOPS ∧ guessedLetters st' = ∅ ∧
  (∃ country, country ∈ to_country <$> List.filter qualifies data ∧
              currentCountry st' = Some country ∧
              targetWord st' = cleanWord (name country)) ∧
  currentStreak st' = currentStreak st ∧ (bestStreak st ≤ bestStreak st')%Z ∧
  modal st' = modal st ∧ signals st' = signals st ∧
  continentStatus st' = continentStatus st.
Proof.
  intros Hfetched Hstr st'.
  destruct (loadContinent_no_object continent data pick st Hstr Hfetched)
    as (_ & _ & Ht & Ha & Hg & Hcur).
  fold st' in Ht, Ha, Hg, Hcur.
  destruct (loadContinent_step continent (Some data) pick st) as (Hbest & _).
  fold st' in Hbest.
  assert (currentView st' = currentView st ∧ currentContinent st' = continent ∧
          currentStreak st' = currentStreak st ∧ modal st' = modal st ∧
          signals st' = signals st ∧ continentStatus st' = continentStatus st)
    as (Hv & Hcc & Hs & Hm & Hsig & Hst).
  { subst st'. unfold loadContinent.
    set (st1 := set_countries _ st).
    rewrite bool_decide_eq_false_2.
    2: { subst st1. simpl. rewrite length_fmap.
         destruct (List.filter qualifies data); [done|simpl; lia]. }
    assert (merge_dominated continent st1 = st1) as ->.
    { unfold merge_dominated. subst st1. simpl.
      destruct (continentStatus st !! continent) as [[s|s names]|] eqn:Hs; [done| |done].
      by destruct (Hstr s names). }
    unfold newRound.
    cbn [countries set_dominated set_arrays set_currentContinent]. subst st1. 
    cbn [countries set_countries]. rewrite filter_undominated.
    destruct (to_country <$> List.filter qualifies data) as [|c0 rest] eqn:Hlist.
    { apply fmap_nil_inv in Hlist. done. }
    cbv zeta.
    set (st5 := set_isGameActive _ _).
    destruct (renderStreak_round st5) as (_ & _ & _ & _ & _ & -> & -> & ->).
    by destruct (renderStreak_session st5) as (_ & _ & _ & -> & -> & ->). }
  by repeat split.
Qed.

End LateResponse.

(** A response for Asia that arrives during the round on Peru. *)
Lemma late_response_replaces_round_witness :
  let st' := @loadContinent latin1 "Asia" (Some [chile_api]) 0
               (@guesses latin1 peru_round [lit "P"; lit "X"]) in
  troops st' = MAX_TROOPS ∧ guessedLetters st' = ∅ ∧ currentContinent st' = "Asia"%string.
Proof.
  intros st'.
  assert (List.filter qualifies [chile_api] ≠ []) as Hfetched by done.
  assert (∀ status names,
            continentStatus (@guesses latin1 peru_round [lit "P"; lit "X"]) !! "Asia"%string
            ≠ Some (StatusObject status names)) as Hstr.
  { intros status names.
    assert (continentStatus (@guesses latin1 peru_round [lit "P"; lit "X"]) !! "Asia"%string
            = Some (StatusString "available")) as -> by by vm_compute.
    done. }
  destruct (@late_response_replaces_round latin1 "Asia" [chile_api] 0 _ Hfetched Hstr)
    as (_ & Hcc & _ & Ht & Hg & _).
  by split; [|split].
Defined.

(** * The earlier variant and the countries won *)

Section LegacyLoad.
Context `{Platform}.

Lemma legacy_renderStreak_frame (st : GameState) :
  countries (Legacy.renderStreak st) = countries st ∧
  dominated (Legacy.renderStreak st) = dominated st ∧
  arrays (Legacy.renderStreak st) = arrays st ∧
  isGameActive (Legacy.renderStreak st) = isGameActive st ∧
  troops (Legacy.renderStreak st) = troops st ∧
  guessedLetters (Legacy.renderStreak st) = guessedLetters st ∧
  currentCountry (Legacy.renderStreak st) = currentCountry st ∧
  targetWord (Legacy.renderStreak st) = targetWord st.
Proof. by destruct (legacy_renderStreak_fields st) as [-> | ->]. Qed.

Lemma legacy_newRound_round (pick : nat) (st : GameState) :
  List.filter (λ c, negb (isDominated c)) (countries st) ≠ [] →
  let st' := Legacy.newRound pick st in
  countries st' = countries st ∧ dominated st' = dominated st ∧ arrays st' = arrays st ∧
  isGameActive st' = true ∧ troops st' = MAX_TROOPS ∧ guessedLetters st' = ∅ ∧
  (∃ country, country ∈ List.filter (λ c, negb (isDominated c)) (countries st) ∧
              currentCountry st' = Some country ∧
              targetWord st' = cleanWord (name country)) ∧
  continentStatus st' = continentStatus st.
Proof.
  intros Hsome st'. subst st'. unfold Legacy.newRound.
  destruct (List.filter _ (countries st)) as [|c0 rest]; [done|]. cbv zeta.
  set (country := nth _ _ _).
  assert (country ∈ c0 :: rest) as Hin.
  { apply list_elem_of_In. subst country. apply nth_In, Nat.mod_upper_bound. done. }
  clearbody country.
  set (st5 := set_isGameActive _ _).
  rewrite legacy_renderStreak_status.
  destruct (legacy_renderStreak_frame st5) as (-> & -> & -> & -> & -> & -> & -> & ->).
  subst st5. cbn. split; [done|]. split; [done|]. split; [done|]. split; [done|].
  split; [done|]. split; [done|]. split; [|done]. by exists country.
Qed.

(** X18: the earlier variant forgets the countries won.  Every load of a
    continent that succeeds starts, whatever was won before, with every
    fetched country undominated and an empty list of dominated names, and a
    round is active on one of the fetched countries; the continent statuses
    are not touched. *)
Theorem legacy_load_forgets_progress (continent : string) (data : list ApiCountry)
    (pick : nat) (st : GameState) :
  List.filter qualifies data ≠ [] →
  let st' := Legacy.loadContinent continent (Some data) pick st in
  name <$> countries st' = name_common <$> List.filter qualifies data ∧
  Forall (λ c, isDominated c = false) (countries st') ∧
  array_get (dominated st') (arrays st') = [] ∧
  isGameActive st' = true ∧ troops st' = MAX_TROOPS ∧ guessedLetters st' = ∅ ∧
  (∃ country, country ∈ countries st' ∧ currentCountry st' = Some country ∧
              targetWord st' = cleanWord (name country)) ∧
  continentStatus st' = continentStatus st.
Proof.
  intros Hfetched st'. subst st'. unfold Legacy.loadContinent.
  set (st1 := set_countries _ st).
  rewrite bool_decide_eq_false_2.
  2: { subst st1. simpl. rewrite length_fmap.
       destruct (List.filter qualifies data); [done|simpl; lia]. }
  cbv zeta. set (st3 := set_dominated _ _).
  assert (countries st3 = to_country <$> List.filter qualifies data) as Hcs by done.
  assert (arrays st3 !! dominated st3 = Some []) as Harr.
  { subst st3 st1. simpl. by rewrite list_lookup_middle. }
  assert (continentStatus st3 = continentStatus st) as Hstatus by done.
  clearbody st3. clear st1.
  destruct (legacy_newRound_round pick st3) as (Hcs' & Hd & Ha & Hact & Ht & Hg & Hcur & Hst).
  { rewrite Hcs, filter_undominated. intros Hnil. apply fmap_nil_inv in Hnil. done. }
  rewrite Hcs, filter_undominated in Hcur.
  rewrite Hcs', Hd, Ha, Hst, Hcs, Hstatus.
  split. { by rewrite <- list_fmap_compose. }
  split. { apply Forall_fmap. by apply Forall_true. }
  split. { unfold array_get. by rewrite Harr. }
  done.
Qed.

End LegacyLoad.

(** Peru won in the earlier variant, then back to the map and in again. *)
Lemma legacy_load_forgets_progress_witness :
  let st := Legacy.game (@Legacy.run latin1 Legacy.onload
              [ClickContinent "Americas";
               FetchSettled "Americas" (Some [peru_api; chile_api]) 0;
               ClickKey (lit "P"); ClickKey (lit "E"); ClickKey (lit "R"); ClickKey (lit "U");
               ClickBackToMap; ClickContinent "Americas"]) in
  isDominated <$> countries st = [true; false] ∧
  Forall (λ c, isDominated c = false)
    (countries (@Legacy.loadContinent latin1 "Americas" (Some [peru_api; chile_api]) 0 st)).
Proof.
  intros st. split; [by vm_compute|].
  assert (List.filter qualifies [peru_api; chile_api] ≠ []) as Hfetched by done.
  apply (proj1 (proj2 (@legacy_load_forgets_progress latin1 "Americas"
           [peru_api; chile_api] 0 st Hfetched))).
Defined.
